(** * parkme-npm: the project scaffolding script [bin/index.js]

    A shallow embedding of the script and of the JavaScript and Node
    primitives it calls, followed by the properties of the provisioning
    pipeline.

    - JavaScript strings are sequences of code units; every character the
      script inspects is ASCII, so a string is a [list ascii] (the UTF-8
      bytes of the text).
    - [path] is Node's [path.posix] (the binding of [path] on every host
      but win32).
    - The filesystem is a finite map from absolute path strings to nodes.
    - A child process (git, npm, the Tomcat version command) is an outcome
      given by the environment: whether it succeeds, and the nodes it
      leaves below the directory it is run in. It writes nowhere else.
    - The script body is written in a small state, exception and exit
      monad over the world (filesystem, console, log of filesystem
      operations). *)

From Stdlib Require Import Ascii String List ZArith Lia Permutation.
From stdpp Require Import base tactics option list gmap strings.

Local Open Scope char_scope.
Local Open Scope nat_scope.
Local Open Scope list_scope.

#[local] Arguments Ascii.eqb : simpl never.

(** ** JavaScript strings *)

Abbreviation jsstring := (list ascii).

(** A string literal of the source. *)
Definition str (s : string) : jsstring := list_ascii_of_string s.

Module JS.

(** [s.startsWith(pat)] at the current position of a scan. *)
Fixpoint startsWith (pat s : jsstring) : bool :=
  match pat, s with
  | [], _ => true
  | _ :: _, [] => false
  | c :: pat', d :: s' => if Ascii.eqb c d then startsWith pat' s' else false
  end.

(** [s.indexOf(pat)]: the least index at which [pat] occurs in [s];
    [None] stands for JavaScript's -1. *)
Fixpoint indexOf (pat s : jsstring) : option nat :=
  if startsWith pat s then Some 0
  else match s with
       | [] => None
       | _ :: s' => S <$> indexOf pat s'
       end.

(** [s.includes(pat)]. *)
Definition includes (pat s : jsstring) : bool :=
  match indexOf pat s with Some _ => true | None => false end.

(** [s.lastIndexOf(c)] for a single character. *)
Fixpoint lastIndexOf (c : ascii) (s : jsstring) : option nat :=
  match s with
  | [] => None
  | d :: s' =>
      match lastIndexOf c s' with
      | Some k => Some (S k)
      | None => if Ascii.eqb d c then Some 0 else None
      end
  end.

(** ECMAScript GetSubstitution(matched, str, position, captures,
    namedCaptures, replacement) for a string pattern: there are no captures
    and no named captures, so [$n], [$nn] and [$<] stand for themselves.
    [preceding] is [str] up to [position], [following] is [str] from the end
    of the match. *)
Fixpoint getSubstitution (matched preceding following replacement : jsstring)
  : jsstring :=
  match replacement with
  | [] => []
  | "$" :: "$" :: r => "$" :: getSubstitution matched preceding following r
  | "$" :: "&" :: r => matched ++ getSubstitution matched preceding following r
  | "$" :: "`" :: r => preceding ++ getSubstitution matched preceding following r
  | "$" :: "'" :: r => following ++ getSubstitution matched preceding following r
  | c :: r => c :: getSubstitution matched preceding following r
  end.

(** [s.replace(pat, replacement)] with a string pattern: only the first
    occurrence is replaced, and the replacement text is expanded by
    [getSubstitution]. *)
Definition replace (s pat replacement : jsstring) : jsstring :=
  match indexOf pat s with
  | None => s
  | Some pos =>
      let preceding := take pos s in
      let following := drop (pos + length pat) s in
      preceding ++ getSubstitution pat preceding following replacement
                ++ following
  end.

(** [s.replace(/\\/g, "/")]: every backslash becomes a forward slash. *)
Definition replaceBackslashes (s : jsstring) : jsstring :=
  map (fun c => if Ascii.eqb c "\" then "/" else c) s.

End JS.

(** ** bin/index.js, line 20 *)

Definition normalizePath (filePath : jsstring) : jsstring :=
  JS.replaceBackslashes filePath.

(** ** Node's [path.posix] *)

Module Path.

Definition isPosixPathSeparator (c : ascii) : bool := Ascii.eqb c "/".

(** The loop state of [normalizeString]. [seg] is
    [path.slice(lastSlash + 1, i)], the characters read since the last
    separator, so that [lastSlash === i - 1] is [seg = []]; [code] is the
    last character code read (0 before the first). *)
Record nstate := NState {
  res : jsstring;
  lastSegmentLength : nat;
  seg : jsstring;
  dots : Z;
  code : ascii
}.

Definition nstate_init : nstate :=
  {| res := []; lastSegmentLength := 0; seg := []; dots := 0; code := zero |}.

(** What the loop does at a separator (a real one or the virtual one past
    the end of the path). *)
Definition at_separator (allowAboveRoot : bool) (st : nstate) : nstate :=
  let next r l :=
    {| res := r; lastSegmentLength := l; seg := []; dots := 0;
       code := "/" |} in
  let above :=
    if allowAboveRoot
    then next (if 0 <? length (res st) then res st ++ str "/.." else str "..")
              2%nat
    else next (res st) (lastSegmentLength st) in
  if (match seg st with [] => true | _ => false end) || (dots st =? 1)%Z
  then next (res st) (lastSegmentLength st)
  else if (dots st =? 2)%Z then
    if (length (res st) <? 2)
       || negb (lastSegmentLength st =? 2)
       || negb (Ascii.eqb (nth (length (res st) - 1) (res st) zero) ".")
       || negb (Ascii.eqb (nth (length (res st) - 2) (res st) zero) ".")
    then
      if 2 <? length (res st) then
        match JS.lastIndexOf "/" (res st) with
        | None => next [] 0%nat
        | Some lastSlashIndex =>
            let r := take lastSlashIndex (res st) in
            next r (match JS.lastIndexOf "/" r with
                    | None => length r
                    | Some k => length r - 1 - k
                    end)
        end
      else if negb (length (res st) =? 0) then next [] 0%nat
      else above
    else above
  else
    next (if 0 <? length (res st) then res st ++ "/" :: seg st else seg st)
         (length (seg st)).

(** One iteration of the loop on the character [c] of the path. *)
Definition nstep (allowAboveRoot : bool) (st : nstate) (c : ascii) : nstate :=
  if isPosixPathSeparator c then at_separator allowAboveRoot st
  else if Ascii.eqb c "." && negb (dots st =? -1)%Z then
    {| res := res st; lastSegmentLength := lastSegmentLength st;
       seg := seg st ++ [c]; dots := dots st + 1; code := c |}
  else
    {| res := res st; lastSegmentLength := lastSegmentLength st;
       seg := seg st ++ [c]; dots := -1; code := c |}.

(** [normalizeString(path, allowAboveRoot, "/", isPosixPathSeparator)]:
    after the last character the loop stops if that character was a
    separator, and otherwise runs once more on a virtual separator. *)
Definition normalizeString (path : jsstring) (allowAboveRoot : bool)
  : jsstring :=
  let st := fold_left (nstep allowAboveRoot) path nstate_init in
  if isPosixPathSeparator (code st) then res st
  else res (at_separator allowAboveRoot st).

Definition isAbsolute (path : jsstring) : bool :=
  match path with c :: _ => Ascii.eqb c "/" | [] => false end.

Definition endsWithSeparator (path : jsstring) : bool :=
  match last path with Some c => Ascii.eqb c "/" | None => false end.

(** [path.normalize(path)]. *)
Definition normalize (path : jsstring) : jsstring :=
  match path with
  | [] => str "."
  | _ =>
      let trailingSeparator := endsWithSeparator path in
      let p := normalizeString path (negb (isAbsolute path)) in
      match p with
      | [] =>
          if isAbsolute path then str "/"
          else if trailingSeparator then str "./" else str "."
      | _ =>
          let p := if trailingSeparator then p ++ str "/" else p in
          if isAbsolute path then "/" :: p else p
      end
  end.

(** The loop of [path.join(...args)]: the non-empty arguments separated by
    "/"; [None] is [joined === undefined]. *)
Fixpoint joinArgs (joined : option jsstring) (args : list jsstring)
  : option jsstring :=
  match args with
  | [] => joined
  | arg :: rest =>
      joinArgs
        (if 0 <? length arg
         then match joined with
              | None => Some arg
              | Some j => Some (j ++ "/" :: arg)
              end
         else joined) rest
  end.

(** [path.join(...args)]. *)
Definition join (args : list jsstring) : jsstring :=
  match joinArgs None args with
  | None => str "."
  | Some joined => normalize joined
  end.

(** The loop of [path.resolve(...args)], from the last argument to the
    first and then the working directory, until the path is absolute.
    [rargs] is the list of the remaining arguments, last one first. *)
Fixpoint resolveArgs (cwd : jsstring) (rargs : list jsstring)
    (resolvedPath : jsstring) : jsstring * bool :=
  match rargs with
  | [] =>
      if 0 <? length cwd then (cwd ++ "/" :: resolvedPath, isAbsolute cwd)
      else (resolvedPath, false)
  | path :: rest =>
      if 0 <? length path then
        if isAbsolute path then (path ++ "/" :: resolvedPath, true)
        else resolveArgs cwd rest (path ++ "/" :: resolvedPath)
      else resolveArgs cwd rest resolvedPath
  end.

(** [path.resolve(...args)] in a process whose working directory is
    [cwd]. *)
Definition resolve (cwd : jsstring) (args : list jsstring) : jsstring :=
  let '(resolvedPath, resolvedAbsolute) := resolveArgs cwd (rev args) [] in
  let p := normalizeString resolvedPath (negb resolvedAbsolute) in
  if resolvedAbsolute then "/" :: p
  else if 0 <? length p then p else str ".".

End Path.

(** ** The world of the process *)

(** A filesystem node: a regular file with its bytes, or a directory. *)
Inductive node :=
| File (content : jsstring)
| Dir.

(** The errors the filesystem and the child processes raise. *)
Inductive Error :=
| ENOENT (path : jsstring)
| ENOTDIR (path : jsstring)
| EEXIST (path : jsstring)
| EISDIR (path : jsstring)
| ProcessFailed (command message : jsstring).

(** The operations the script issues that can change the filesystem, in
    the order it issues them. *)
Inductive FsOp :=
| OpRemove (path : jsstring)
| OpEnsureDir (path : jsstring)
| OpClone (repo dir branch : jsstring)
| OpCopyFile (src dst : jsstring)
| OpOutputFile (path data : jsstring)
| OpExec (command : jsstring).

(** What the script shows: [console.log] (its arguments), [console.error]
    and the three spinner calls. Styling by chalk is not modelled. *)
Inductive Output :=
| ConsoleLog (args : list jsstring)
| ConsoleError (e : Error)
| SpinnerStart (text : jsstring)
| SpinnerSucceed (text : jsstring)
| SpinnerFail (text : jsstring).

Record World := mkWorld {
  fs : gmap jsstring node;
  console : list Output;
  ops : list FsOp
}.

(** The outcome of a child process: whether it succeeded, its error
    message, and the nodes it left in its directory, each under a path
    relative to that directory. *)
Record ProcessResult := mkProcessResult {
  succeeded : bool;
  failure : jsstring;
  written : list (jsstring * node)
}.

(** Everything the run reads from its surroundings. *)
Record Env := mkEnv {
  cwd : jsstring;                       (* process.cwd() *)
  dirname : jsstring;                   (* __dirname *)
  platform : jsstring;                  (* process.platform *)
  projectNameInput : jsstring;          (* typed at the first prompt *)
  overwriteInput : option bool;         (* typed at the confirm prompt *)
  gitClone : ProcessResult;             (* git clone -b master *)
  npmInstall : ProcessResult;           (* npm install *)
  catalina : jsstring -> bool           (* does this version command succeed *)
}.

(** *** The monad of the script *)

Inductive Result (A : Type) :=
| Ret (a : A)
| Throw (e : Error)
| Exit (code : Z).
Arguments Ret {A} a.
Arguments Throw {A} e.
Arguments Exit {A} code.

Definition M (A : Type) : Type := World -> World * Result A.

#[global] Instance M_ret : MRet M := fun A a w => (w, Ret a).
#[global] Instance M_bind : MBind M := fun A B k m w =>
  match m w with
  | (w', Ret a) => k a w'
  | (w', Throw e) => (w', Throw e)
  | (w', Exit c) => (w', Exit c)
  end.

Definition throw {A} (e : Error) : M A := fun w => (w, Throw e).

(** [process.exit(code)]. *)
Definition process_exit {A} (code : Z) : M A := fun w => (w, Exit code).

(** [try { body } catch (error) { handler }]: only exceptions are caught. *)
Definition try_catch {A} (body : M A) (handler : Error -> M A) : M A :=
  fun w =>
    match body w with
    | (w', Throw e) => handler e w'
    | r => r
    end.

(** The exit code of the process: 0 when the script runs to its end, the
    argument of [process.exit], 1 for an exception nobody caught. *)
Definition exitCode {A} (r : Result A) : Z :=
  match r with
  | Ret _ => 0
  | Throw _ => 1
  | Exit c => c
  end.

Definition emit (o : Output) : M unit := fun w =>
  ({| fs := fs w; console := console w ++ [o]; ops := ops w |}, Ret tt).

Definition record (o : FsOp) : M unit := fun w =>
  ({| fs := fs w; console := console w; ops := ops w ++ [o] |}, Ret tt).

Definition get_fs : M (gmap jsstring node) := fun w => (w, Ret (fs w)).

Definition put_fs (m : gmap jsstring node) : M unit := fun w =>
  ({| fs := m; console := console w; ops := ops w |}, Ret tt).

Definition console_log (args : list jsstring) : M unit := emit (ConsoleLog args).
Definition console_error (e : Error) : M unit := emit (ConsoleError e).
Definition spinner_start (text : jsstring) : M unit := emit (SpinnerStart text).
Definition spinner_succeed (text : jsstring) : M unit :=
  emit (SpinnerSucceed text).
Definition spinner_fail (text : jsstring) : M unit := emit (SpinnerFail text).

(** *** The filesystem *)

Definition root : jsstring := str "/".

(** [d] with a separator at its end: the prefix of every path below [d]. *)
Definition dirPrefix (d : jsstring) : jsstring :=
  if Path.endsWithSeparator d then d else d ++ str "/".

(** [p] is [d] or lies below [d]. *)
Definition within (d p : jsstring) : bool :=
  bool_decide (p = d) || JS.startsWith (dirPrefix d) p.


Definition lookupNode (m : gmap jsstring node) (p : jsstring) : option node :=
  if bool_decide (p = root) then Some Dir else m !! p.

(** The directory a path lies in. *)
Definition parentDir (p : jsstring) : jsstring :=
  match JS.lastIndexOf "/" p with
  | None => str "."
  | Some 0 => root
  | Some k => take k p
  end.

(** The directories on the way to [rest] below [pre], outermost first, the
    root left out: [dirChain [] "/a/b/c"] is ["/a"; "/a/b"; "/a/b/c"]. *)
Fixpoint dirChain (pre rest : jsstring) : list jsstring :=
  let here := if Path.endsWithSeparator pre then []
              else match pre with [] => [] | _ => [pre] end in
  match rest with
  | [] => here
  | c :: rest' =>
      (if Ascii.eqb c "/" then here else []) ++ dirChain (pre ++ [c]) rest'
  end.

(** [mkdir -p] along a chain: a missing directory is created, an existing
    one is kept, a file in the way is an error. *)
Fixpoint mkdirChain (chain : list jsstring) (m : gmap jsstring node)
  : gmap jsstring node * option Error :=
  match chain with
  | [] => (m, None)
  | d :: rest =>
      match m !! d with
      | None => mkdirChain rest (<[d := Dir]> m)
      | Some Dir => mkdirChain rest m
      | Some (File _) =>
          (m, Some (match rest with [] => EEXIST d | _ => ENOTDIR d end))
      end
  end.

Definition mkdirs (p : jsstring) : M unit :=
  m ← get_fs;
  match mkdirChain (dirChain [] p) m with
  | (m', None) => put_fs m'
  | (m', Some e) => put_fs m';; throw e
  end.

Definition pathExists (m : gmap jsstring node) (p : jsstring) : bool :=
  bool_decide (is_Some (lookupNode m p)).

(** [fs.existsSync(p)]. *)
Definition existsSync (p : jsstring) : M bool :=
  m ← get_fs; mret (pathExists m p).

(** [fs.remove(p)] of fs-extra: [p] and everything below it goes; nothing
    happens when [p] does not exist. *)
Definition remove (p : jsstring) : M unit :=
  record (OpRemove p);;
  m ← get_fs;
  put_fs (filter (fun kv => within p kv.1 = false) m).

(** [fs.ensureDir(p)] of fs-extra. *)
Definition ensureDir (p : jsstring) : M unit :=
  record (OpEnsureDir p);; mkdirs p.

(** [fs.writeFile(p, data)]. *)
Definition writeFile (p data : jsstring) : M unit :=
  m ← get_fs;
  match lookupNode m p with
  | Some Dir => throw (EISDIR p)
  | _ =>
      match lookupNode m (parentDir p) with
      | Some Dir => put_fs (<[p := File data]> m)
      | Some (File _) => throw (ENOTDIR p)
      | None => throw (ENOENT p)
      end
  end.

(** [fs.copyFile(src, dst)]. *)
Definition copyFile (src dst : jsstring) : M unit :=
  record (OpCopyFile src dst);;
  m ← get_fs;
  match lookupNode m src with
  | None => throw (ENOENT src)
  | Some Dir => throw (EISDIR src)
  | Some (File content) => writeFile dst content
  end.

(** [fs.readFile(p, "utf-8")]. *)
Definition readFile (p : jsstring) : M jsstring :=
  m ← get_fs;
  match lookupNode m p with
  | None => throw (ENOENT p)
  | Some Dir => throw (EISDIR p)
  | Some (File content) => mret content
  end.

(** [fs.outputFile(p, data)] of fs-extra: the parent directory is created
    when it is missing, then the file is written. *)
Definition outputFile (p data : jsstring) : M unit :=
  record (OpOutputFile p data);;
  m ← get_fs;
  (if pathExists m (parentDir p) return M unit
   then mret tt else mkdirs (parentDir p));;
  writeFile p data.

(** The nodes a child process leaves in the directory [dir]. *)
Definition writeUnder (dir : jsstring) (nodes : list (jsstring * node))
    (m : gmap jsstring node) : gmap jsstring node :=
  fold_right (fun kv acc => <[dir ++ "/" :: kv.1 := kv.2]> acc) m nodes.

(** A child process run in [dir]. *)
Definition runProcess (command dir : jsstring) (r : ProcessResult) : M unit :=
  m ← get_fs;
  put_fs (writeUnder dir (written r) m);;
  if succeeded r then mret tt else throw (ProcessFailed command (failure r)).

(** ** bin/index.js *)

Definition LF : ascii := "010".

(** The prompts of inquirer: an input prompt answers its default when
    nothing is typed, a confirm prompt when neither y nor n is. *)
Definition promptInput (default typed : jsstring) : jsstring :=
  match typed with [] => default | _ => typed end.

Definition promptConfirm (default : bool) (typed : option bool) : bool :=
  match typed with Some b => b | None => default end.

(** [execSync(command, options)]. *)
Definition execSync (command dir : jsstring) (r : ProcessResult) : M unit :=
  record (OpExec command);; runProcess command dir r.

(** Line 16. *)
Definition logStep (message : jsstring) : M unit :=
  console_log [str "› "; message].

Definition repo : jsstring :=
  str "https://github.com/IT24102532/parkingManagement.git".
Definition branch : jsstring := str "master".

(** Lines 25-43. *)
Definition cloneRepo (env : Env) (appPath : jsstring) : M unit :=
  spinner_start (str "Cloning repository...");;
  try_catch
    (ensureDir appPath;;
     (record (OpClone repo appPath branch);;
      runProcess (str "git clone") appPath (gitClone env));;
     spinner_succeed (str "Cloning completed."))
    (fun error =>
       spinner_fail (str "Failed to clone repository.");;
       console_error error;;
       process_exit 1).

Definition dataFiles : list jsstring :=
  [str "users.json"; str "bookings.json"; str "transactions.json";
   str "parkingSlots.json"].

(** The loop of lines 95-100. *)
Fixpoint copyDataFiles (env : Env) (dataDir : jsstring) (files : list jsstring)
  : M unit :=
  match files with
  | [] => mret tt
  | file :: rest =>
      copyFile (Path.join [dirname env; str "../templates"; file])
               (Path.join [dataDir; file]);;
      copyDataFiles env dataDir rest
  end.

Definition userToken : jsstring := str "%%user.file.path%%".
Definition bookingToken : jsstring := str "%%booking.file.path%%".
Definition transactionToken : jsstring := str "%%transaction.file.path%%".
Definition slotsToken : jsstring := str "%%slots.file.path%%".

(** Lines 120-136: the text of config.properties. *)
Definition result (dataDir template : jsstring) : jsstring :=
  JS.replace
    (JS.replace
       (JS.replace
          (JS.replace template
             userToken
             (normalizePath (Path.join [dataDir; str "users.json"])))
          bookingToken
          (normalizePath (Path.join [dataDir; str "bookings.json"])))
       transactionToken
       (normalizePath (Path.join [dataDir; str "transactions.json"])))
    slotsToken
    (normalizePath (Path.join [dataDir; str "parkingSlots.json"])).

(** Lines 48-55: the answer of the first prompt. *)
Definition projectNameOf (env : Env) : jsstring :=
  promptInput (str "park-me-app") (projectNameInput env).

(** Line 57. *)
Definition targetDirOf (env : Env) (projectName : jsstring) : jsstring :=
  Path.resolve (cwd env) [cwd env; projectName].

(** Lines 46-71: the welcome line, the two prompts and the removal of an
    existing target directory. Returns [projectName]. *)
Definition collectInput (env : Env) : M jsstring :=
  console_log [LF :: str "Welcome to Park.me Project Setup!" ++ [LF]];;
  let projectName := projectNameOf env in
  let targetDir := targetDirOf env projectName in
  console_log [[LF]];;
  (existsSync targetDir ≫= fun isThere : bool =>
   if isThere then
     let overwrite := promptConfirm false (overwriteInput env) in
     (if negb overwrite then process_exit 0 else mret tt);;
     remove targetDir
   else mret tt);;
  mret projectName.

(** Lines 80-106, step 2. *)
Definition provisionData (env : Env) (dataDir : jsstring) : M unit :=
  console_log [[LF]];;
  logStep (str "Creating data folder and copying files...");;
  spinner_start (str "Setting up data directory..." ++ [LF]);;
  try_catch
    (ensureDir dataDir;;
     copyDataFiles env dataDir dataFiles;;
     spinner_succeed (str "Data folder and files set up successfully."))
    (fun error =>
       spinner_fail (str "Failed to set up data folder or copy files.");;
       console_error error;;
       process_exit 1).

Definition configPath (appDir : jsstring) : jsstring :=
  Path.join [appDir; str "src"; str "main"; str "resources";
             str "config.properties"].

(** Lines 108-147, step 3. *)
Definition generateConfig (env : Env) (appDir dataDir : jsstring) : M unit :=
  console_log [[LF]];;
  logStep (str "Generating config.properties...");;
  spinner_start (str "Generating config.properties...");;
  try_catch
    (template ← readFile
       (Path.join [dirname env; str "../assets/config.properties.template"]);
     outputFile (configPath appDir) (result dataDir template);;
     spinner_succeed (str "config.properties created successfully."))
    (fun error =>
       spinner_fail (str "Failed to create config.properties.");;
       console_error error;;
       process_exit 1).

(** Lines 149-163, step 4. *)
Definition installDependencies (env : Env) (appDir : jsstring) : M unit :=
  console_log [[LF]];;
  logStep (str "Installing dependencies...");;
  spinner_start (str "Installing dependencies...");;
  try_catch
    (execSync (str "npm install") appDir (npmInstall env);;
     spinner_succeed (str "Dependencies installed successfully."))
    (fun error =>
       spinner_fail (str "Failed to install dependencies.");;
       console_error error;;
       process_exit 1).

(** The outcome of the version command of step 5, which only reports:
    it leaves nothing on the filesystem. *)
Definition versionCheck (env : Env) (command : jsstring) : ProcessResult :=
  {| succeeded := catalina env command; failure := []; written := [] |}.

Definition tomcatLink : jsstring :=
  str "https://tomcat.apache.org/download-90.cgi".

(** Lines 165-183, step 5. *)
Definition checkTomcat (env : Env) : M unit :=
  console_log [[LF]];;
  logStep (str "Checking for Tomcat...");;
  spinner_start (str "Checking for Tomcat...");;
  try_catch
    (let isWindows := bool_decide (platform env = str "win32") in
     let command :=
       if isWindows then str "catalina.bat version"
       else str "catalina version" in
     execSync command (cwd env) (versionCheck env command);;
     spinner_succeed (str "Tomcat is installed."))
    (fun error =>
       spinner_fail (str "Tomcat is not installed.");;
       console_log
         [str "Please install Tomcat to run the application." ++ [LF]
          ++ tomcatLink]).

(** Lines 185-195. *)
Definition done (projectName : jsstring) : M unit :=
  console_log [LF :: str "Setup completed successfully!"];;
  console_log
    [LF :: str "Next Steps:" ++ [LF]
     ++ str "1. Navigate to the project directory:" ++ [LF]
     ++ str "   cd " ++ projectName ++ [LF]
     ++ str "2. Open the project in your IDE." ++ [LF]
     ++ str "3. Configure Tomcat to deploy from /app." ++ [LF]
     ++ str "4. Start coding! 🤗 " ++ [LF]].

(** Lines 73-163: steps 1 to 4, each of which ends the process when it
    fails. *)
Definition provision (env : Env) (projectName : jsstring) : M unit :=
  let targetDir := targetDirOf env projectName in
  let appDir := Path.join [targetDir; str "app"] in
  let dataDir := Path.join [targetDir; str "data"] in
  logStep (str "Cloning the repository...");;
  cloneRepo env appDir;;
  provisionData env dataDir;;
  generateConfig env appDir dataDir;;
  installDependencies env appDir.

(** Lines 45-196: the script. *)
Definition main (env : Env) : M unit :=
  projectName ← collectInput env;
  provision env projectName;;
  checkTomcat env;;
  done projectName.

(** * The vocabulary of the properties *)

(** [pat] occurs in [s] at index [i]. *)
Definition occursAt (pat s : jsstring) (i : nat) : Prop :=
  JS.startsWith pat (drop i s) = true.

(** Every occurrence of [a] in [s] lies before or after every occurrence
    of [b]: the two never share a character. *)
Definition disjointOcc (a b s : jsstring) : Prop :=
  forall i j, occursAt a s i -> occursAt b s j ->
    i + length a <= j \/ j + length b <= i.

(** [p] is fresh for [pat]: the first character of [p] is not in [pat]
    and the first character of [pat] is not in [p]. No occurrence of
    [pat] can then share a character with an occurrence of [p]. *)
Definition fresh (p pat : jsstring) : Prop :=
  exists a p' b pat',
    p = a :: p' /\ pat = b :: pat' /\ (a ∉ pat) /\ (b ∉ p).

(** The four substitutions of lines 120-136, in the order of the
    script. *)
Definition substitutions (dataDir : jsstring) : list (jsstring * jsstring) :=
  [(userToken, normalizePath (Path.join [dataDir; str "users.json"]));
   (bookingToken, normalizePath (Path.join [dataDir; str "bookings.json"]));
   (transactionToken,
    normalizePath (Path.join [dataDir; str "transactions.json"]));
   (slotsToken,
    normalizePath (Path.join [dataDir; str "parkingSlots.json"]))].

(** Substitutions applied one after the other, in the order of the list. *)
Definition renderWith (subs : list (jsstring * jsstring))
    (template : jsstring) : jsstring :=
  fold_left (fun acc tp => JS.replace acc tp.1 tp.2) subs template.

Definition tokens : list jsstring :=
  [userToken; bookingToken; transactionToken; slotsToken].

(** The data-file paths written into the config. *)
Definition dataFilePaths (dataDir : jsstring) : list jsstring :=
  map snd (substitutions dataDir).

(** A path that [replace] inserts as it is and that cannot be taken for a
    part of a token: absolute, with neither "$" nor "%". *)
Definition literalPath (p : jsstring) : bool :=
  Path.isAbsolute p && negb (bool_decide ("%" ∈ p))
  && negb (bool_decide ("$" ∈ p)).

(** The indices at which [pat] occurs in [s], counted from [i]. *)
Fixpoint occurrencesFrom (i : nat) (pat s : jsstring) : list nat :=
  (if JS.startsWith pat s then [i] else [])
  ++ match s with
     | [] => []
     | _ :: s' => occurrencesFrom (S i) pat s'
     end.

Definition occurrences (pat s : jsstring) : list nat :=
  occurrencesFrom 0 pat s.

(** No occurrence of [a] in [s] shares a character with an occurrence
    of [b]. *)
Definition disjointb (a b s : jsstring) : bool :=
  forallb (fun i =>
    forallb (fun j => (i + length a <=? j) || (j + length b <=? i))
            (occurrences b s))
    (occurrences a s).

(** Occurrences of two different tokens never overlap in [template]. *)
Definition tokensApart (template : jsstring) : bool :=
  forallb (fun a =>
    forallb (fun b => bool_decide (a = b) || disjointb a b template) tokens)
    tokens.

(** Every token occurs exactly once in [template]. *)
Definition tokensOnce (template : jsstring) : bool :=
  forallb (fun a => length (occurrences a template) =? 1) tokens.


(** Every text is fresh for every pattern and free of "$", and no
    pattern appears twice. *)
Definition literalSubs (subs : list (jsstring * jsstring)) : Prop :=
  NoDup (map fst subs) /\
  (forall tp tp', tp ∈ subs -> tp' ∈ subs -> fresh tp.2 tp'.1) /\
  (forall tp, tp ∈ subs -> "$" ∉ tp.2).

(** Occurrences of different patterns of [subs] are disjoint in [s]. *)
Definition apart (subs : list (jsstring * jsstring)) (s : jsstring)
  : Prop :=
  forall tp tp', tp ∈ subs -> tp' ∈ subs -> tp.1 <> tp'.1 ->
    disjointOcc tp.1 tp'.1 s.

(** [T] occurs exactly once in [s]. *)
Definition once (T s : jsstring) : Prop :=
  exists i, occursAt T s i /\ forall j, occursAt T s j -> j = i.

(** The four data-file paths are literal paths. *)
Definition literalPaths (dataDir : jsstring) : bool :=
  forallb literalPath (dataFilePaths dataDir).

(** A path segment that [normalizeString] keeps as it is. *)
Definition plain (g : jsstring) : bool :=
  negb (bool_decide (g = [])) && negb (bool_decide ("/" ∈ g))
  && negb (bool_decide (g = str ".")) && negb (bool_decide (g = str "..")).

(** The segments, each behind a separator: "/a/b/c". *)
Definition slashed (segs : list jsstring) : jsstring :=
  flat_map (fun g => "/" :: g) segs.

(** The segments with a separator between them: "a/b/c". *)
Definition joinS (segs : list jsstring) : jsstring := tail (slashed segs).

(** The absolute path of the segments: "/a/b/c", and "/" for none. *)
Definition absPath (segs : list jsstring) : jsstring := "/" :: joinS segs.

(** A normalized absolute path. *)
Definition normalAbs (p : jsstring) : Prop :=
  exists segs, forallb plain segs = true /\ p = absPath segs.

(** The value of [dots] after the characters [g] of a segment. *)
Definition dotsOf (g : jsstring) : Z :=
  if forallb (Ascii.eqb ".") g then Z.of_nat (length g) else (-1)%Z.

(** The invariant of the loop when [allowAboveRoot] is false: [res] is a
    sequence of plain segments. *)
Definition ninv (st : Path.nstate) : Prop :=
  (exists segs, forallb plain segs = true /\ Path.res st = joinS segs) /\
  ("/" ∉ Path.seg st) /\ Path.dots st = dotsOf (Path.seg st).

(** Every directory on the way to an existing path exists. *)
Definition fs_closed (m : gmap jsstring node) : bool :=
  forallb (fun kv =>
    forallb (fun d => bool_decide (is_Some (m !! d))) (dirChain [] kv.1))
    (map_to_list m).

(** An environment to try the script on: a working directory [/home/u],
    the tool installed in [/opt/parkme], nothing typed at the prompts, a
    clone and an install that succeed, and no Tomcat. *)
Definition sampleEnv : Env :=
  {| cwd := str "/home/u";
     dirname := str "/opt/parkme/bin";
     platform := str "linux";
     projectNameInput := [];
     overwriteInput := None;
     gitClone := mkProcessResult true [] [(str "pom.xml", File (str "<project/>"))];
     npmInstall := mkProcessResult true [] [(str "node_modules", Dir)];
     catalina := fun _ => false |}.

(** A computation that only adds to the log of operations. *)
Definition appendsOps {A} (m : M A) : Prop :=
  forall w w' r, m w = (w', r) -> exists l, ops w' = ops w ++ l.

(** What the prompts print. *)
Definition greeting : list Output :=
  [ConsoleLog [LF :: str "Welcome to Park.me Project Setup!" ++ [LF]];
   ConsoleLog [[LF]]].

(** The version command of step 5. *)
Definition tomcatCommand (env : Env) : jsstring :=
  if bool_decide (platform env = str "win32") then str "catalina.bat version"
  else str "catalina version".

(** The advisory of step 5: the failed spinner and the line with the
    link. *)
Definition tomcatAdvisory : list Output :=
  [SpinnerFail (str "Tomcat is not installed.");
   ConsoleLog [str "Please install Tomcat to run the application." ++ [LF]
               ++ tomcatLink]].

(** What step 5 shows. *)
Definition tomcatReport (env : Env) : list Output :=
  [ConsoleLog [[LF]];
   ConsoleLog [str "› "; str "Checking for Tomcat..."];
   SpinnerStart (str "Checking for Tomcat...")]
  ++ (if catalina env (tomcatCommand env)
      then [SpinnerSucceed (str "Tomcat is installed.")]
      else tomcatAdvisory).

(** The closing lines. *)
Definition doneReport (projectName : jsstring) : list Output :=
  [ConsoleLog [LF :: str "Setup completed successfully!"];
   ConsoleLog
     [LF :: str "Next Steps:" ++ [LF]
      ++ str "1. Navigate to the project directory:" ++ [LF]
      ++ str "   cd " ++ projectName ++ [LF]
      ++ str "2. Open the project in your IDE." ++ [LF]
      ++ str "3. Configure Tomcat to deploy from /app." ++ [LF]
      ++ str "4. Start coding! 🤗 " ++ [LF]]].

(** Filesystems to try the script on: the tool with its templates in
    [/opt/parkme], and the same with a project [/home/u/park-me-app] left
    by an earlier run. *)
Definition toolNodes : list (jsstring * node) :=
  [(str "/opt", Dir); (str "/opt/parkme", Dir);
   (str "/opt/parkme/bin", Dir);
   (str "/opt/parkme/templates", Dir); (str "/opt/parkme/assets", Dir);
   (str "/opt/parkme/templates/users.json", File (str "[]"));
   (str "/opt/parkme/templates/bookings.json", File (str "[1]"));
   (str "/opt/parkme/templates/transactions.json", File (str "[2]"));
   (str "/opt/parkme/templates/parkingSlots.json", File (str "[3]"));
   (str "/opt/parkme/assets/config.properties.template",
    File (str "user.file=%%user.file.path%%"));
   (str "/home", Dir); (str "/home/u", Dir)].

Definition freshWorld : World :=
  {| fs := list_to_map toolNodes; console := []; ops := [] |}.

Definition sampleFs : gmap jsstring node :=
  list_to_map
    (toolNodes ++
     [(str "/home/u/park-me-app", Dir);
      (str "/home/u/park-me-app/data", Dir);
      (str "/home/u/park-me-app/data/old.json", File (str "{}"))]).

Definition sampleWorld : World :=
  {| fs := sampleFs; console := []; ops := [] |}.

(** Where the script reads the template of a data file. *)
Definition templatePath (env : Env) (file : jsstring) : jsstring :=
  Path.join [dirname env; str "../templates"; file].

(** The templates of the tool lie outside the target directory. *)
Definition templatesOutside (env : Env) : bool :=
  forallb (fun f =>
    negb (within (targetDirOf env (projectNameOf env)) (templatePath env f)))
    dataFiles.

(** At [p], [m'] is [m], but for a directory that was missing in [m]. *)
Definition grows (m m' : gmap jsstring node) (p : jsstring) : Prop :=
  m' !! p = m !! p \/ (m !! p = None /\ m' !! p = Some Dir).

(** Lines 73-74. *)
Definition appDirOf (env : Env) : jsstring :=
  Path.join [targetDirOf env (projectNameOf env); str "app"].

Definition dataDirOf (env : Env) : jsstring :=
  Path.join [targetDirOf env (projectNameOf env); str "data"].

(** An environment in which the clone fails. *)
Definition offlineEnv : Env :=
  {| cwd := cwd sampleEnv; dirname := dirname sampleEnv;
     platform := platform sampleEnv;
     projectNameInput := str "shop";
     overwriteInput := None;
     gitClone :=
       mkProcessResult false (str "fatal: unable to access the repository")
                       [];
     npmInstall := npmInstall sampleEnv;
     catalina := catalina sampleEnv |}.

(** ** The vocabulary of the further properties *)

(** The backslash, which [normalizePath] turns into a slash. *)
Definition backslash : ascii := "092".

(** Where the script reads the template of the config. *)
Definition configTemplatePath (env : Env) : jsstring :=
  Path.join [dirname env; str "../assets/config.properties.template"].

(** The line that reports success. *)
Definition successLine : Output :=
  ConsoleLog [LF :: str "Setup completed successfully!"].

(** A computation that returns or throws, and never ends the process. *)
Definition neverExits {A} (m : M A) : Prop :=
  forall w w' c, m w <> (w', Exit c).


(** A step that returns, or shows the failed spinner with the text [s]
    and the error, and exits with code 1. *)
Definition failsWith (s : jsstring) (m : M unit) : Prop :=
  forall w w' r, m w = (w', r) ->
    r = Ret tt \/
    (r = Exit 1 /\
     exists shown e, console w' = shown ++ [SpinnerFail s; ConsoleError e]).


(** A computation that only adds to the console, and only outputs that
    satisfy [P]. *)
Definition showsOnly {A} (P : Output -> Prop) (m : M A) : Prop :=
  forall w w' r, m w = (w', r) ->
    exists l, console w' = console w ++ l /\ Forall P l.

(** A computation that, where [Q] is false, at most creates missing
    directories. *)
Definition confinedTo {A} (Q : jsstring -> bool) (m : M A) : Prop :=
  forall w w' r p, m w = (w', r) -> Q p = false -> grows (fs w) (fs w') p.

(** The operations of a run that completes, behind the removal of an old
    target directory: steps 1 to 5 in order. *)
Definition pipelineOps (env : Env) (template : jsstring) : list FsOp :=
  [OpEnsureDir (appDirOf env); OpClone repo (appDirOf env) branch;
   OpEnsureDir (dataDirOf env)]
  ++ map (fun f => OpCopyFile (templatePath env f)
                              (Path.join [dataDirOf env; f])) dataFiles
  ++ [OpOutputFile (configPath (appDirOf env))
                   (result (dataDirOf env) template);
      OpExec (str "npm install"); OpExec (tomcatCommand env)].

(** A computation that leaves a directory at [p] a directory. *)
Definition keepsDir {A} (p : jsstring) (m : M A) : Prop :=
  forall w w' r, m w = (w', r) ->
    fs w !! p = Some Dir -> fs w' !! p = Some Dir.

(** * Properties *)

(** ** [path.posix] on some paths *)

Example normalize_ex1 :
  Path.normalize (str "/a/b/../c/./d//e/") = str "/a/c/d/e/".
Proof. reflexivity. Qed.
Example normalize_ex2 :
  Path.normalize (str "../a/../../b/...") = str "../../b/...".
Proof. reflexivity. Qed.
Example normalize_ex3 : Path.normalize (str "/../ab/..") = str "/".
Proof. reflexivity. Qed.
Example join_ex1 :
  Path.join [str "/w/p"; str "../templates"; str "users.json"]
  = str "/w/templates/users.json".
Proof. reflexivity. Qed.
Example resolve_ex1 :
  Path.resolve (str "/home/u") [str "/home/u"; str "park-me-app"]
  = str "/home/u/park-me-app".
Proof. reflexivity. Qed.
Example resolve_ex2 :
  Path.resolve (str "/home/u") [str "/home/u"; str ".."] = str "/home".
Proof. reflexivity. Qed.
Example resolve_ex3 :
  Path.resolve (str "/home/u") [str "a"; str "/x/y"; str "z/"] = str "/x/y/z".
Proof. reflexivity. Qed.

(** ** Occurrences of a pattern in a string *)

Section Occurrences.

Implicit Types pat s x y p : jsstring.

Lemma startsWith_spec pat s :
  JS.startsWith pat s = true <-> exists post, s = pat ++ post.
Proof.
  revert s. induction pat as [|c pat IH]; intros s; simpl.
  - split; eauto.
  - destruct s as [|d s].
    + split; [discriminate | intros [post H]; discriminate].
    + destruct (Ascii.eqb_spec c d) as [->|Hne].
      * rewrite IH. split; intros [post H]; exists post; congruence.
      * split; [discriminate | intros [post H]; congruence].
Qed.

Lemma startsWith_app pat post : JS.startsWith pat (pat ++ post) = true.
Proof. apply startsWith_spec. eauto. Qed.

Lemma startsWith_length pat s :
  JS.startsWith pat s = true -> length pat <= length s.
Proof.
  intros [post ->]%startsWith_spec. rewrite length_app. lia.
Qed.

Lemma startsWith_app_long pat a v :
  length pat <= length a ->
  JS.startsWith pat (a ++ v) = JS.startsWith pat a.
Proof.
  revert a. induction pat as [|c pat IH]; intros [|d a] Hlen; simpl in *;
    try reflexivity; try lia.
  destruct (Ascii.eqb c d); [apply IH; lia | reflexivity].
Qed.

Lemma startsWith_cancel x a b :
  JS.startsWith (x ++ a) (x ++ b) = JS.startsWith a b.
Proof.
  induction x as [|c x IH]; simpl; [reflexivity|].
  now rewrite Ascii.eqb_refl.
Qed.

Lemma startsWith_trans a q b :
  JS.startsWith a q = true -> JS.startsWith q b = true ->
  JS.startsWith a b = true.
Proof.
  intros [k ->]%startsWith_spec [k' ->]%startsWith_spec.
  rewrite <- app_assoc. apply startsWith_app.
Qed.

Lemma occursAt_length pat s i :
  pat <> [] -> occursAt pat s i -> i + length pat <= length s.
Proof.
  intros Hne H. unfold occursAt in H.
  pose proof (startsWith_length _ _ H) as Hl. rewrite length_drop in Hl.
  destruct pat; [congruence|]. simpl in *. lia.
Qed.

(** An occurrence that ends inside the prefix [u] is an occurrence
    in [u]. *)
Lemma occursAt_app_l pat u v i :
  i + length pat <= length u ->
  occursAt pat (u ++ v) i <-> occursAt pat u i.
Proof.
  intros Hl. unfold occursAt.
  rewrite drop_app_le by lia.
  rewrite startsWith_app_long; [reflexivity|]. rewrite length_drop. lia.
Qed.

(** An occurrence that starts after the prefix [u] is an occurrence in the
    rest. *)
Lemma occursAt_app_r pat u v k :
  occursAt pat (u ++ v) (length u + k) <-> occursAt pat v k.
Proof.
  unfold occursAt. rewrite drop_app_ge by lia.
  replace (length u + k - length u) with k by lia. reflexivity.
Qed.

Lemma occursAt_here pat x y : occursAt pat (x ++ pat ++ y) (length x).
Proof.
  rewrite <- (Nat.add_0_r (length x)). apply occursAt_app_r.
  apply startsWith_app.
Qed.

Lemma occursAt_lookup pat s i k c :
  occursAt pat s i -> pat !! k = Some c -> s !! (i + k) = Some c.
Proof.
  intros [post H]%startsWith_spec Hk.
  rewrite <- lookup_drop, H. now apply lookup_app_l_Some.
Qed.

(** *** [indexOf] finds the first occurrence *)

Lemma indexOf_Some pat s i :
  JS.indexOf pat s = Some i ->
  occursAt pat s i /\ forall j, j < i -> ~ occursAt pat s j.
Proof.
  revert i. induction s as [|c s IH]; intros i; simpl.
  - destruct (JS.startsWith pat []) eqn:E; [|discriminate].
    intros [= <-]. split; [exact E | lia].
  - destruct (JS.startsWith pat (c :: s)) eqn:E.
    + intros [= <-]. split; [exact E | lia].
    + destruct (JS.indexOf pat s) as [k|]; [|discriminate].
      intros [= <-]. destruct (IH k eq_refl) as [Hk Hfirst]. split.
      * exact Hk.
      * intros [|j] Hj; unfold occursAt; simpl.
        -- congruence.
        -- apply Hfirst. lia.
Qed.

Lemma indexOf_None pat s :
  JS.indexOf pat s = None -> forall i, ~ occursAt pat s i.
Proof.
  induction s as [|c s IH]; simpl.
  - destruct (JS.startsWith pat []) eqn:E; [discriminate|].
    intros _ i. unfold occursAt. rewrite drop_nil. congruence.
  - destruct (JS.startsWith pat (c :: s)) eqn:E; [discriminate|].
    destruct (JS.indexOf pat s) as [k|]; [discriminate|].
    intros _ [|i]; unfold occursAt; simpl; [congruence | now apply IH].
Qed.

Lemma indexOf_first pat s i :
  occursAt pat s i -> (forall j, j < i -> ~ occursAt pat s j) ->
  JS.indexOf pat s = Some i.
Proof.
  intros Hi Hfirst. destruct (JS.indexOf pat s) as [k|] eqn:E.
  - destruct (indexOf_Some _ _ _ E) as [Hk Hk'].
    destruct (Nat.lt_trichotomy i k) as [H|[H|H]].
    + now destruct (Hk' i).
    + congruence.
    + now destruct (Hfirst k).
  - now destruct (indexOf_None _ _ E i).
Qed.

Lemma occursAt_split pat s i :
  pat <> [] -> occursAt pat s i ->
  s = take i s ++ pat ++ drop (i + length pat) s.
Proof.
  intros Hne H. pose proof (occursAt_length _ _ _ Hne H) as Hl.
  destruct (proj1 (startsWith_spec _ _) H) as [post Hpost].
  rewrite <- drop_drop, Hpost, drop_app_length.
  rewrite <- Hpost. symmetry. apply take_drop.
Qed.

(** *** The replacement text *)

Lemma getSubstitution_literal matched preceding following r :
  "$" ∉ r -> JS.getSubstitution matched preceding following r = r.
Proof.
  induction r as [|c r IH]; intros Hno; [reflexivity|].
  assert (c <> "$") by (intros ->; apply Hno; left).
  assert ("$" ∉ r) by (intros ?; apply Hno; now right).
  simpl. rewrite IH by assumption.
  destruct c as [[] [] [] [] [] [] [] []]; try reflexivity; congruence.
Qed.

(** [replace] where the pattern does not occur. *)
Lemma replace_absent s pat r :
  JS.indexOf pat s = None -> JS.replace s pat r = s.
Proof. unfold JS.replace. now intros ->. Qed.

(** [replace] with a replacement text free of "$": the first occurrence
    is cut out and the text put in its place. *)
Lemma replace_first s pat r i :
  pat <> [] -> "$" ∉ r -> JS.indexOf pat s = Some i ->
  s = take i s ++ pat ++ drop (i + length pat) s /\
  JS.replace s pat r = take i s ++ r ++ drop (i + length pat) s.
Proof.
  intros Hne Hr Hi. split.
  - apply occursAt_split; [assumption | now apply indexOf_Some].
  - unfold JS.replace. rewrite Hi. now rewrite getSubstitution_literal.
Qed.

(** *** Putting a fresh text in the place of an occurrence *)

Lemma fresh_no_overlap p pat x y i :
  fresh p pat -> occursAt pat (x ++ p ++ y) i ->
  i + length pat <= length x \/ length x + length p <= i.
Proof.
  intros (a & p' & b & pat' & -> & -> & Ha & Hb) H.
  destruct (Nat.le_gt_cases (i + length (b :: pat')) (length x)) as [|H1];
    [now left|].
  destruct (Nat.le_gt_cases (length x + length (a :: p')) i) as [|H2];
    [now right|].
  exfalso. destruct (Nat.le_gt_cases i (length x)) as [Hle|Hgt].
  - (* the occurrence covers the first character of [p] *)
    destruct (lookup_lt_is_Some_2 (b :: pat') (length x - i)) as [c Hc];
      [lia|].
    pose proof (occursAt_lookup _ _ _ _ _ H Hc) as Hs.
    replace (i + (length x - i)) with (length x + 0) in Hs by lia.
    rewrite lookup_app_r, Nat.add_comm, Nat.add_sub in Hs by lia.
    simpl in Hs. injection Hs as <-.
    apply Ha. eapply list_elem_of_lookup_2, Hc.
  - (* the occurrence starts inside [p] *)
    pose proof (occursAt_lookup _ _ _ 0 b H eq_refl) as Hs.
    rewrite Nat.add_0_r, lookup_app_r, lookup_app_l in Hs
      by (simpl in *; lia).
    apply Hb. eapply list_elem_of_lookup_2, Hs.
Qed.

(** Occurrences on either side of a replaced section move with it. *)
Lemma occursAt_left pat x m m' y i :
  i + length pat <= length x ->
  occursAt pat (x ++ m ++ y) i -> occursAt pat (x ++ m' ++ y) i.
Proof. intros H. rewrite !occursAt_app_l by assumption. auto. Qed.

Lemma occursAt_right pat x m m' y k :
  occursAt pat (x ++ m ++ y) (length x + length m + k) ->
  occursAt pat (x ++ m' ++ y) (length x + length m' + k).
Proof.
  rewrite !app_assoc, <- !length_app, !occursAt_app_r. auto.
Qed.

Lemma fresh_nonempty p pat : fresh p pat -> pat <> [] /\ p <> [].
Proof. intros (a & p' & b & pat' & -> & -> & _). split; discriminate. Qed.

(** The two outcomes of replacing [X] by a text [p] free of "$". *)
Lemma replace_cases s X p :
  X <> [] -> "$" ∉ p ->
  (JS.indexOf X s = None /\ JS.replace s X p = s) \/
  (exists a b, s = a ++ X ++ b /\ JS.replace s X p = a ++ p ++ b /\
               JS.indexOf X s = Some (length a)).
Proof.
  intros HX Hp. destruct (JS.indexOf X s) as [i|] eqn:E.
  - right. destruct (replace_first s X p i HX Hp E) as [Hs Hr].
    exists (take i s), (drop (i + length X) s). split; [exact Hs|].
    split; [exact Hr|]. f_equal. rewrite length_take.
    pose proof (occursAt_length X s i HX (proj1 (indexOf_Some _ _ _ E))).
    lia.
  - left. split; [reflexivity | now apply replace_absent].
Qed.

(** An occurrence of [T] after the replacement comes from an occurrence
    before it, on the same side of the replaced section. *)
Lemma occursAt_replaced_inv T X p a b i :
  fresh p T -> occursAt T (a ++ p ++ b) i ->
  (i + length T <= length a /\ occursAt T (a ++ X ++ b) i) \/
  (exists k, i = length a + length p + k /\
             occursAt T (a ++ X ++ b) (length a + length X + k)).
Proof.
  intros Hf H. destruct (fresh_no_overlap _ _ _ _ _ Hf H) as [Hl|Hr].
  - left. split; [exact Hl|]. now apply (occursAt_left T a p X b).
  - right. exists (i - (length a + length p)). split; [lia|].
    apply (occursAt_right T a p X b).
    now replace (length a + length p + (i - (length a + length p)))
      with i by lia.
Qed.

(** Replacing an occurrence of [X] by a fresh text creates no occurrence
    of [T]. *)
Lemma absent_replace T s X p :
  fresh p T -> X <> [] -> "$" ∉ p ->
  (forall i, ~ occursAt T s i) ->
  forall i, ~ occursAt T (JS.replace s X p) i.
Proof.
  intros Hf HX Hp Hno i.
  destruct (replace_cases s X p HX Hp) as [[_ ->]|(a & b & -> & -> & _)];
    [apply Hno|].
  intros [[_ H]|(k & _ & H)]%(occursAt_replaced_inv T X); try assumption;
    exact (Hno _ H).
Qed.

(** Occurrences that were disjoint stay disjoint. *)
Lemma disjoint_replace T T' s X p :
  fresh p T -> fresh p T' -> X <> [] -> "$" ∉ p ->
  disjointOcc T T' s -> disjointOcc T T' (JS.replace s X p).
Proof.
  intros Hf Hf' HX Hp Hd.
  destruct (replace_cases s X p HX Hp) as [[_ ->]|(a & b & -> & -> & _)];
    [exact Hd|].
  intros i j Hi Hj.
  destruct (occursAt_replaced_inv T X p a b i Hf Hi)
    as [[Hil Hi']|(k & -> & Hi')];
  destruct (occursAt_replaced_inv T' X p a b j Hf' Hj)
    as [[Hjl Hj']|(k' & -> & Hj')];
  destruct (Hd _ _ Hi' Hj'); lia.
Qed.

Lemma replace_at a X b p :
  X <> [] -> "$" ∉ p ->
  JS.indexOf X (a ++ X ++ b) = Some (length a) ->
  JS.replace (a ++ X ++ b) X p = a ++ p ++ b.
Proof.
  intros HX Hp Hi.
  destruct (replace_first _ X p _ HX Hp Hi) as [_ ->].
  rewrite take_app_length, drop_app_ge, Nat.add_comm, Nat.add_sub by lia.
  now rewrite drop_app_length.
Qed.

(** The first occurrence of [X] in [s], as a decomposition of [s]. *)
Lemma indexOf_decompose X s i :
  X <> [] -> JS.indexOf X s = Some i ->
  exists a b, s = a ++ X ++ b /\ length a = i.
Proof.
  intros HX E. destruct (indexOf_Some _ _ _ E) as [Ho _].
  pose proof (occursAt_length _ _ _ HX Ho).
  exists (take i s), (drop (i + length X) s). split.
  - now apply occursAt_split.
  - rewrite length_take. lia.
Qed.

Lemma replace_twice_ordered X p Y q a m b :
  fresh p Y -> fresh q X -> "$" ∉ p -> "$" ∉ q ->
  JS.indexOf X (a ++ X ++ m ++ Y ++ b) = Some (length a) ->
  JS.indexOf Y (a ++ X ++ m ++ Y ++ b) = Some (length (a ++ X ++ m)) ->
  JS.replace (JS.replace (a ++ X ++ m ++ Y ++ b) X p) Y q
    = a ++ p ++ m ++ q ++ b /\
  JS.replace (JS.replace (a ++ X ++ m ++ Y ++ b) Y q) X p
    = a ++ p ++ m ++ q ++ b.
Proof.
  intros HpY HqX Hp Hq HiX HiY.
  destruct (fresh_nonempty _ _ HpY) as [HY _].
  destruct (fresh_nonempty _ _ HqX) as [HX _].
  destruct (indexOf_Some _ _ _ HiX) as [_ HfX].
  destruct (indexOf_Some _ _ _ HiY) as [_ HfY].
  assert (0 < length X) as HlX by (destruct X; [congruence | simpl; lia]).
  assert (0 < length Y) as HlY by (destruct Y; [congruence | simpl; lia]).
  assert (forall u v w z : jsstring, u ++ v ++ w ++ z = (u ++ v ++ w) ++ z)
    as Hassoc by (intros; now rewrite <- !app_assoc).
  split.
  - (* X first *)
    rewrite (replace_at a X _ p HX Hp HiX).
    rewrite (Hassoc a p m), replace_at, <- !app_assoc; auto.
    apply indexOf_first; [apply occursAt_here|].
    rewrite <- Hassoc. intros j Hj Hocc.
    destruct (occursAt_replaced_inv Y X p a (m ++ Y ++ b) j HpY Hocc)
      as [[Hl H]|(k & -> & H)].
    + apply (HfY j); [rewrite !length_app; lia | exact H].
    + apply (HfY _) in H; [exact H|]. rewrite !length_app in *. lia.
  - (* Y first *)
    rewrite (Hassoc a X m) in HiY |- *.
    rewrite (replace_at _ Y b q HY Hq HiY), <- !app_assoc.
    rewrite replace_at; auto.
    apply indexOf_first; [apply occursAt_here|].
    intros j Hj Hocc. rewrite (Hassoc a X m) in Hocc.
    destruct (occursAt_replaced_inv X Y q _ b j HqX Hocc)
      as [[Hl H]|(k & -> & H)].
    + apply (HfX j Hj). now rewrite <- !app_assoc in H.
    + rewrite !length_app in Hj. lia.
Qed.

(** Two occurrences, the first ending before the second starts, as a
    decomposition of the string. *)
Lemma two_occurrences X Y s i j :
  X <> [] -> Y <> [] -> occursAt X s i -> occursAt Y s j ->
  i + length X <= j ->
  exists a m b, s = a ++ X ++ m ++ Y ++ b /\ length a = i /\
                length (a ++ X ++ m) = j.
Proof.
  intros HX HY Hi Hj Hij.
  pose proof (occursAt_length _ _ _ HY Hj) as Hl.
  exists (take i s), (take (j - (i + length X)) (drop (i + length X) s)),
    (drop (j + length Y) s).
  assert (length (take i s) = i) as Hli by (rewrite length_take; lia).
  split; [|split; [exact Hli|]].
  - rewrite (occursAt_split X s i HX Hi) at 1. do 2 f_equal.
    rewrite <- (take_drop (j - (i + length X)) (drop (i + length X) s)) at 1.
    f_equal. rewrite drop_drop.
    replace (i + length X + (j - (i + length X))) with j by lia.
    rewrite (occursAt_split Y (drop j s) 0 HY) at 1.
    2:{ unfold occursAt. now rewrite drop_0. }
    simpl. now rewrite drop_drop.
  - rewrite !length_app, Hli, length_take, length_drop. lia.
Qed.

Lemma replace_comm s X p Y q :
  fresh p X -> fresh p Y -> fresh q X -> fresh q Y ->
  "$" ∉ p -> "$" ∉ q -> disjointOcc X Y s ->
  JS.replace (JS.replace s X p) Y q = JS.replace (JS.replace s Y q) X p.
Proof.
  intros HpX HpY HqX HqY Hp Hq Hd.
  destruct (fresh_nonempty _ _ HpX) as [HX _].
  destruct (fresh_nonempty _ _ HpY) as [HY _].
  destruct (JS.indexOf X s) as [i|] eqn:EX;
    destruct (JS.indexOf Y s) as [j|] eqn:EY.
  - destruct (indexOf_Some _ _ _ EX) as [HoX _].
    destruct (indexOf_Some _ _ _ EY) as [HoY _].
    destruct (Hd _ _ HoX HoY) as [Hij|Hji].
    + destruct (two_occurrences X Y s i j HX HY HoX HoY Hij)
        as (a & m & b & -> & <- & <-).
      now destruct (replace_twice_ordered X p Y q a m b) as [-> ->].
    + destruct (two_occurrences Y X s j i HY HX HoY HoX Hji)
        as (a & m & b & -> & <- & <-).
      now destruct (replace_twice_ordered Y q X p a m b) as [-> ->].
  - rewrite (replace_absent s Y q EY).
    apply replace_absent.
    destruct (JS.indexOf Y (JS.replace s X p)) as [k|] eqn:E;
      [|reflexivity].
    exfalso. apply indexOf_Some in E as [E _]. revert E.
    apply absent_replace; try assumption. now apply indexOf_None.
  - rewrite (replace_absent s X p EX). symmetry.
    apply replace_absent.
    destruct (JS.indexOf X (JS.replace s Y q)) as [k|] eqn:E;
      [|reflexivity].
    exfalso. apply indexOf_Some in E as [E _]. revert E.
    apply absent_replace; try assumption. now apply indexOf_None.
  - now rewrite (replace_absent s X p EX), (replace_absent s Y q EY),
      (replace_absent s X p EX).
Qed.

End Occurrences.

(** ** Sequences of substitutions *)

Lemma result_renderWith dataDir template :
  result dataDir template = renderWith (substitutions dataDir) template.
Proof. reflexivity. Qed.

Lemma elem_of_occurrencesFrom pat s i j :
  j ∈ occurrencesFrom i pat s <->
  exists k, j = i + k /\ k <= length s /\ occursAt pat s k.
Proof.
  revert i. induction s as [|c s IH]; intros i; simpl.
  - rewrite app_nil_r. split.
    + destruct (JS.startsWith pat []) eqn:E.
      * intros ->%list_elem_of_singleton. exists 0. now rewrite Nat.add_0_r.
      * intros []%elem_of_nil.
    + intros (k & -> & Hk & Ho). assert (k = 0) as -> by lia.
      unfold occursAt in Ho; simpl in Ho. rewrite Ho, Nat.add_0_r.
      now left.
  - rewrite elem_of_app, IH. split.
    + intros [H|(k & -> & Hk & Ho)].
      * destruct (JS.startsWith pat (c :: s)) eqn:E.
        -- apply list_elem_of_singleton in H as ->. exists 0.
           rewrite Nat.add_0_r. repeat split; [lia | exact E].
        -- now apply elem_of_nil in H.
      * exists (S k). repeat split; [lia | lia | exact Ho].
    + intros ([|k] & -> & Hk & Ho).
      * left. unfold occursAt in Ho; simpl in Ho. rewrite Ho, Nat.add_0_r.
        now left.
      * right. exists k. repeat split; [lia | lia | exact Ho].
Qed.

Lemma elem_of_occurrences pat s i :
  pat <> [] -> i ∈ occurrences pat s <-> occursAt pat s i.
Proof.
  intros Hne. unfold occurrences. rewrite elem_of_occurrencesFrom. split.
  - now intros (k & -> & _ & Ho).
  - intros Ho. pose proof (occursAt_length _ _ _ Hne Ho).
    exists i. repeat split; [lia | exact Ho].
Qed.

Lemma disjointb_spec a b s :
  a <> [] -> b <> [] -> disjointb a b s = true -> disjointOcc a b s.
Proof.
  intros Ha Hb H i j Hi Hj. unfold disjointb in H.
  rewrite forallb_forall in H.
  apply elem_of_occurrences, list_elem_of_In in Hi; [|assumption].
  specialize (H i Hi). rewrite forallb_forall in H.
  apply elem_of_occurrences, list_elem_of_In in Hj; [|assumption].
  specialize (H j Hj). apply orb_true_iff in H as [H|H];
    apply Nat.leb_le in H; lia.
Qed.

Lemma includes_true pat s :
  JS.includes pat s = true <-> exists i, occursAt pat s i.
Proof.
  unfold JS.includes. destruct (JS.indexOf pat s) as [i|] eqn:E.
  - split; [intros _|reflexivity]. exists i. now apply indexOf_Some.
  - split; [discriminate|]. intros [i Hi].
    now destruct (indexOf_None _ _ E i).
Qed.

Lemma includes_false pat s :
  JS.includes pat s = false <-> forall i, ~ occursAt pat s i.
Proof.
  rewrite <- not_true_iff_false, includes_true. split.
  - intros H i Hi. apply H. eauto.
  - intros H [i Hi]. exact (H i Hi).
Qed.

Section Substitutions.

Implicit Types subs : list (jsstring * jsstring).

Lemma literalSubs_cons tp subs :
  literalSubs (tp :: subs) -> literalSubs subs.
Proof.
  intros (Hnd & Hf & Hl). repeat split.
  - now inversion Hnd.
  - intros a b Ha Hb. apply Hf; now right.
  - intros a Ha. apply Hl. now right.
Qed.

Lemma literalSubs_perm subs subs' :
  Permutation subs subs' -> literalSubs subs -> literalSubs subs'.
Proof.
  intros HP (Hnd & Hf & Hl). repeat split.
  - now rewrite <- (Permutation_map fst HP).
  - intros a b Ha Hb. apply Hf; now rewrite HP.
  - intros a Ha. apply Hl. now rewrite HP.
Qed.

Lemma apart_perm subs subs' s :
  Permutation subs subs' -> apart subs s -> apart subs' s.
Proof. intros HP H a b Ha Hb. apply H; now rewrite HP. Qed.

Lemma apart_replace tp subs s :
  literalSubs (tp :: subs) -> apart (tp :: subs) s ->
  apart subs (JS.replace s tp.1 tp.2).
Proof.
  intros (Hnd & Hf & Hl) H a b Ha Hb Hne.
  apply disjoint_replace.
  - apply Hf; [left | now right].
  - apply Hf; [left | now right].
  - apply (fresh_nonempty tp.2). apply Hf; left.
  - apply Hl. left.
  - apply H; [now right | now right | exact Hne].
Qed.

(** Where different patterns never overlap, the order of the
    substitutions does not matter. *)
Lemma renderWith_perm subs subs' :
  Permutation subs subs' -> literalSubs subs ->
  forall s, apart subs s -> renderWith subs s = renderWith subs' s.
Proof.
  induction 1 as [|tp l l' HP IH|x y l|l l' l'' HP IH HP' IH'];
    intros Hlit s Hs.
  - reflexivity.
  - simpl. apply IH.
    + eapply literalSubs_cons, Hlit.
    + now apply apart_replace.
  - simpl. f_equal. destruct Hlit as (Hnd & Hf & Hl).
    assert (x ∈ y :: x :: l) as Hx by (right; left).
    assert (y ∈ y :: x :: l) as Hy by left.
    apply replace_comm; auto.
    apply Hs; auto. inversion Hnd as [|? ? Hni _]. intros E.
    apply Hni. rewrite E. left.
  - rewrite IH by assumption. apply IH'.
    + eapply literalSubs_perm; eassumption.
    + eapply apart_perm; eassumption.
Qed.


(** A pattern that does not occur is not brought in by substitutions
    whose texts are fresh for it. *)
Lemma absent_renderWith T subs s :
  (forall tp, tp ∈ subs -> fresh tp.2 T /\ tp.1 <> [] /\ "$" ∉ tp.2) ->
  (forall i, ~ occursAt T s i) ->
  forall i, ~ occursAt T (renderWith subs s) i.
Proof.
  revert s. induction subs as [|tp subs IH]; intros s Hs Hno; [exact Hno|].
  simpl. apply IH.
  - intros tp' Htp'. apply Hs. now right.
  - destruct (Hs tp) as (Hf & Hne & Hl); [left|].
    now apply absent_replace.
Qed.

(** A text fresh for all the patterns, once in the string, stays. *)
Lemma present_replace q s X p :
  fresh q X -> "$" ∉ p ->
  (exists i, occursAt q s i) -> exists i, occursAt q (JS.replace s X p) i.
Proof.
  intros Hf Hp [i Hi].
  destruct (fresh_nonempty _ _ Hf) as [HX Hq].
  destruct (replace_cases s X p HX Hp) as [[_ ->]|(a & b & Hs & -> & HiX)];
    [eauto|].
  pose proof (proj1 (indexOf_Some _ _ _ HiX)) as HoX.
  rewrite (occursAt_split q s i Hq Hi) in HoX.
  apply fresh_no_overlap in HoX; [|exact Hf].
  pose proof (occursAt_length _ _ _ Hq Hi) as Hlen.
  rewrite length_take, Nat.min_l in HoX by lia.
  rewrite Hs in Hi. destruct HoX as [HoX|HoX].
  - exists (length a + length p + (i - (length a + length X))).
    apply (occursAt_right q a X p b).
    now replace (length a + length X + (i - (length a + length X)))
      with i by lia.
  - exists i. now apply (occursAt_left q a X p b).
Qed.

Lemma present_renderWith q subs s :
  (forall tp, tp ∈ subs -> fresh q tp.1 /\ "$" ∉ tp.2) ->
  (exists i, occursAt q s i) -> exists i, occursAt q (renderWith subs s) i.
Proof.
  revert s. induction subs as [|tp subs IH]; intros s Hs Hq; [exact Hq|].
  simpl. apply IH.
  - intros tp' Htp'. apply Hs. now right.
  - destruct (Hs tp) as [Hf Hl]; [left|]. now apply present_replace.
Qed.

(** Replacing the single occurrence of [X] leaves the single occurrence
    of another pattern [T] single. *)
Lemma once_replace T s X p :
  fresh p T -> X <> [] -> "$" ∉ p ->
  disjointOcc X T s -> once T s -> once T (JS.replace s X p).
Proof.
  intros Hf HX Hp Hd (i & Hi & Hu).
  destruct (fresh_nonempty _ _ Hf) as [HT _].
  assert (0 < length T) as HlT by (destruct T; [congruence | simpl; lia]).
  assert (0 < length X) as HlX by (destruct X; [congruence | simpl; lia]).
  destruct (replace_cases s X p HX Hp) as [[_ ->]|(a & b & -> & -> & HiX)];
    [now exists i|].
  pose proof (proj1 (indexOf_Some _ _ _ HiX)) as HoX.
  destruct (Hd _ _ HoX Hi) as [Hright|Hleft].
  - exists (length a + length p + (i - (length a + length X))). split.
    + apply (occursAt_right T a X p b).
      now replace (length a + length X + (i - (length a + length X)))
        with i by lia.
    + intros j Hj.
      destruct (occursAt_replaced_inv T X p a b j Hf Hj)
        as [[Hl H]|(k & -> & H)]; apply Hu in H; lia.
  - exists i. split.
    + now apply (occursAt_left T a X p b).
    + intros j Hj.
      destruct (occursAt_replaced_inv T X p a b j Hf Hj)
        as [[Hl H]|(k & -> & H)]; apply Hu in H; lia.
Qed.

(** Replacing the single occurrence of [X] by a fresh text leaves none. *)
Lemma once_replaced X s p :
  fresh p X -> "$" ∉ p -> once X s ->
  (forall i, ~ occursAt X (JS.replace s X p) i) /\
  exists i, occursAt p (JS.replace s X p) i.
Proof.
  intros Hf Hp (i & Hi & Hu).
  destruct (fresh_nonempty _ _ Hf) as [HX _].
  assert (0 < length X) as HlX by (destruct X; [congruence | simpl; lia]).
  destruct (replace_cases s X p HX Hp) as [[E _]|(a & b & -> & -> & HiX)].
  - now destruct (indexOf_None _ _ E i).
  - pose proof (proj1 (indexOf_Some _ _ _ HiX)) as HoX.
    apply Hu in HoX. split.
    + intros j Hj.
      destruct (occursAt_replaced_inv X X p a b j Hf Hj)
        as [[Hl H]|(k & -> & H)]; apply Hu in H; lia.
    + exists (length a). apply occursAt_here.
Qed.

(** Where every pattern occurs once and different patterns are apart,
    the substitutions leave no pattern and bring in every text. *)
Lemma renderWith_once subs s :
  literalSubs subs -> apart subs s ->
  (forall tp, tp ∈ subs -> once tp.1 s) ->
  forall tp, tp ∈ subs ->
    (forall i, ~ occursAt tp.1 (renderWith subs s) i) /\
    exists i, occursAt tp.2 (renderWith subs s) i.
Proof.
  revert s. induction subs as [|x subs IH]; intros s Hlit Hs Honce tp Htp.
  - now apply elem_of_nil in Htp.
  - pose proof Hlit as (Hnd & Hf & Hl). simpl.
    assert (x ∈ x :: subs) as Hx by left.
    assert (forall tp', tp' ∈ subs -> tp'.1 <> x.1) as Hne.
    { intros tp' Htp' E. inversion Hnd as [|? ? Hni _]. apply Hni.
      rewrite <- E. now apply list_elem_of_In, in_map, list_elem_of_In. }
    apply elem_of_cons in Htp as [->|Htp].
    + destruct (once_replaced x.1 s x.2) as [Hgone Hthere]; auto.
      split.
      * apply absent_renderWith; [|exact Hgone].
        intros tp' Htp'. repeat split.
        -- apply Hf; [now right | left].
        -- apply (fresh_nonempty tp'.2), Hf; now right.
        -- apply Hl. now right.
      * apply present_renderWith; [|exact Hthere].
        intros tp' Htp'. split; [apply Hf; [left | now right]|].
        apply Hl. now right.
    + apply IH; auto.
      * eapply literalSubs_cons, Hlit.
      * now apply apart_replace.
      * intros tp' Htp'. apply once_replace.
        -- apply Hf; [left | now right].
        -- apply (fresh_nonempty x.2), Hf; left.
        -- apply Hl; left.
        -- apply Hs; [left | now right |]. intros E. now apply (Hne tp').
        -- apply Honce. now right.
Qed.


End Substitutions.

(** ** The rendered config *)

Lemma literalPath_dollar p : literalPath p = true -> "$" ∉ p.
Proof.
  unfold literalPath. rewrite !andb_true_iff, !negb_true_iff.
  intros [_ H]. now apply bool_decide_eq_false in H.
Qed.

Lemma literalPath_fresh p T : literalPath p = true -> T ∈ tokens -> fresh p T.
Proof.
  unfold literalPath. rewrite !andb_true_iff, !negb_true_iff.
  intros [[Habs Hpc] _] HT.
  apply bool_decide_eq_false in Hpc.
  destruct p as [|c p']; [discriminate|]. simpl in Habs.
  apply Ascii.eqb_eq in Habs as ->.
  assert (exists T', T = "%" :: T' /\ "/" ∉ T) as (T' & -> & Hno).
  { unfold tokens in HT.
    repeat (apply elem_of_cons in HT as [->|HT]);
      [eexists; split; [reflexivity|];
       apply (bool_decide_eq_false_1 _); vm_compute; reflexivity ..|].
    now apply elem_of_nil in HT. }
  now exists "/", p', "%", T'.
Qed.

Lemma substitutions_fst dataDir : map fst (substitutions dataDir) = tokens.
Proof. reflexivity. Qed.

Lemma elem_of_substitutions dataDir tp :
  tp ∈ substitutions dataDir ->
  tp.1 ∈ tokens /\ tp.2 ∈ dataFilePaths dataDir.
Proof.
  intros H%list_elem_of_In. split; apply list_elem_of_In.
  - rewrite <- (substitutions_fst dataDir). now apply in_map.
  - unfold dataFilePaths. now apply in_map.
Qed.

Lemma literalPaths_elem dataDir p :
  literalPaths dataDir = true -> p ∈ dataFilePaths dataDir ->
  literalPath p = true.
Proof.
  unfold literalPaths. rewrite forallb_forall. intros H Hp.
  now apply H, list_elem_of_In.
Qed.

Lemma substitutions_literal dataDir :
  literalPaths dataDir = true -> literalSubs (substitutions dataDir).
Proof.
  intros H. repeat split.
  - rewrite substitutions_fst. apply (bool_decide_unpack _).
    vm_compute. exact I.
  - intros tp tp' [_ Hp]%elem_of_substitutions [HT _]%elem_of_substitutions.
    apply literalPath_fresh; [|exact HT]. eapply literalPaths_elem; eauto.
  - intros tp [_ Hp]%elem_of_substitutions.
    apply literalPath_dollar. eapply literalPaths_elem; eauto.
Qed.

Lemma token_nonempty T : T ∈ tokens -> T <> [].
Proof.
  unfold tokens. intros HT.
  repeat (apply elem_of_cons in HT as [->|HT]); try discriminate.
  now apply elem_of_nil in HT.
Qed.

Lemma tokensApart_spec dataDir template :
  tokensApart template = true -> apart (substitutions dataDir) template.
Proof.
  unfold tokensApart. rewrite forallb_forall.
  intros H tp tp' [HT _]%elem_of_substitutions [HT' _]%elem_of_substitutions
    Hne.
  specialize (H _ (proj1 (list_elem_of_In _ _) HT)).
  rewrite forallb_forall in H.
  specialize (H _ (proj1 (list_elem_of_In _ _) HT')).
  apply orb_true_iff in H as [H|H].
  - now apply bool_decide_eq_true in H.
  - apply disjointb_spec; auto using token_nonempty.
Qed.

Lemma tokensOnce_spec template T :
  tokensOnce template = true -> T ∈ tokens -> once T template.
Proof.
  unfold tokensOnce. rewrite forallb_forall. intros H HT.
  specialize (H _ (proj1 (list_elem_of_In _ _) HT)).
  apply Nat.eqb_eq in H.
  destruct (occurrences T template) as [|i [|? ?]] eqn:E; try discriminate.
  pose proof (token_nonempty T HT) as Hne.
  exists i. split.
  - apply elem_of_occurrences; [exact Hne|]. rewrite E. left.
  - intros j Hj. apply elem_of_occurrences in Hj; [|exact Hne].
    rewrite E in Hj. now apply list_elem_of_singleton in Hj.
Qed.


(** C2, as amended. For a template in which occurrences of different
    placeholder tokens do not overlap, and data-file paths that are
    absolute and hold neither "%" nor "$", the four substitutions applied
    in any order give the text the script computes. *)
Theorem render_order_independent dataDir template order :
  literalPaths dataDir = true ->
  tokensApart template = true ->
  Permutation order (substitutions dataDir) ->
  renderWith order template = result dataDir template.
Proof.
  intros Hp Ht HP. rewrite result_renderWith. symmetry.
  apply renderWith_perm.
  - now symmetry.
  - now apply substitutions_literal.
  - now apply tokensApart_spec.
Qed.

Lemma render_order_independent_witness :
  let dataDir := str "/home/u/park-me-app/data" in
  let template :=
    str "users=%%user.file.path%% slots=%%slots.file.path%% x=%%user.file.path%%" in
  let order := rev (substitutions dataDir) in
  renderWith order template = result dataDir template.
Proof.
  intros dataDir template order.
  apply (render_order_independent dataDir template order).
  - vm_compute. reflexivity.
  - vm_compute. reflexivity.
  - unfold order. symmetry. apply Permutation_rev.
Defined.

(** C2 as stated fails: where two tokens share their "%%", the token
    substituted first wins. *)
Lemma render_order_matters :
  let dataDir := str "/w/p/data" in
  let template := str "%%user.file.path%%booking.file.path%%" in
  let order :=
    [(bookingToken, normalizePath (Path.join [dataDir; str "bookings.json"]));
     (userToken, normalizePath (Path.join [dataDir; str "users.json"]));
     (transactionToken,
      normalizePath (Path.join [dataDir; str "transactions.json"]));
     (slotsToken,
      normalizePath (Path.join [dataDir; str "parkingSlots.json"]))] in
  Permutation order (substitutions dataDir) /\
  result dataDir template = str "/w/p/data/users.jsonbooking.file.path%%" /\
  renderWith order template = str "%%user.file.path/w/p/data/bookings.json" /\
  renderWith order template <> result dataDir template.
Proof.
  intros dataDir template order. split; [apply perm_swap|].
  split; [reflexivity|]. split; [reflexivity|]. discriminate.
Qed.

(** C1, as amended. For a template in which every placeholder token
    occurs exactly once and no two of them overlap, and data-file paths
    that are absolute and hold neither "%" nor "$", the rendered config
    has no occurrence of any of the four tokens and contains the four
    forward-slash-normalized data-file paths. *)
Theorem rendered_config_complete dataDir template :
  literalPaths dataDir = true ->
  tokensOnce template = true ->
  tokensApart template = true ->
  Forall (fun T => JS.includes T (result dataDir template) = false) tokens /\
  Forall (fun p => JS.includes p (result dataDir template) = true)
         (dataFilePaths dataDir).
Proof.
  intros Hp Honce Hapart. rewrite result_renderWith.
  pose proof (renderWith_once (substitutions dataDir) template
                (substitutions_literal _ Hp)
                (tokensApart_spec dataDir _ Hapart)) as H.
  assert (forall tp, tp ∈ substitutions dataDir -> once tp.1 template) as Ho.
  { intros tp [HT _]%elem_of_substitutions. now apply tokensOnce_spec. }
  specialize (H Ho).
  split.
  - rewrite <- (substitutions_fst dataDir). apply Forall_forall.
    intros T (tp & <- & Htp)%list_elem_of_In%in_map_iff.
    apply includes_false, H. now apply list_elem_of_In.
  - unfold dataFilePaths. apply Forall_forall.
    intros T (tp & <- & Htp)%list_elem_of_In%in_map_iff.
    apply includes_true, H. now apply list_elem_of_In.
Qed.

Lemma rendered_config_complete_witness :
  let dataDir := str "/home/u/park-me-app/data" in
  let template :=
    str "user=%%user.file.path%%;booking=%%booking.file.path%%;transaction=%%transaction.file.path%%;slots=%%slots.file.path%%;other=%%other%%" in
  Forall (fun T => JS.includes T (result dataDir template) = false) tokens /\
  Forall (fun p => JS.includes p (result dataDir template) = true)
         (dataFilePaths dataDir).
Proof.
  intros dataDir template.
  apply (rendered_config_complete dataDir template);
    vm_compute; reflexivity.
Defined.

(** C1 as stated fails: of a token that occurs twice, the second
    occurrence stays in the rendered config. *)
Lemma rendered_config_keeps_second_occurrence :
  let dataDir := str "/w/p/data" in
  let template := str "a=%%user.file.path%%;b=%%user.file.path%%" in
  result dataDir template = str "a=/w/p/data/users.json;b=%%user.file.path%%"
  /\ JS.includes userToken (result dataDir template) = true.
Proof. split; reflexivity. Qed.




(** C10. There is a project name holding the replacement pattern "$&"
    for which the rendered config does not contain the computed
    forward-slash-normalized data-file path: [replace] expands the
    pattern to the matched token. *)
Theorem dollar_pattern_not_literal :
  exists cwd projectName template,
    let targetDir := Path.resolve cwd [cwd; projectName] in
    let dataDir := Path.join [targetDir; str "data"] in
    let usersPath := normalizePath (Path.join [dataDir; str "users.json"]) in
    JS.includes (str "$&") projectName = true /\
    JS.includes (str "$&") usersPath = true /\
    JS.includes userToken template = true /\
    result dataDir template
      = str "users=/w/%%user.file.path%%/data/users.json" /\
    JS.includes usersPath (result dataDir template) = false.
Proof.
  exists (str "/w"), (str "$&"), (str "users=%%user.file.path%%").
  repeat split; reflexivity.
Qed.

(** ** Normalized paths *)

Section Normalize.

Implicit Types (st : Path.nstate) (g s : jsstring) (segs : list jsstring).

Lemma plain_spec g :
  plain g = true <->
  g <> [] /\ ("/" ∉ g) /\ g <> str "." /\ g <> str "..".
Proof.
  unfold plain. rewrite !andb_true_iff, !negb_true_iff.
  rewrite !bool_decide_eq_false. tauto.
Qed.

Lemma slashed_snoc segs g : slashed (segs ++ [g]) = slashed segs ++ "/" :: g.
Proof. unfold slashed. rewrite flat_map_app. simpl. now rewrite app_nil_r. Qed.

Lemma slashed_app segs gs : slashed (segs ++ gs) = slashed segs ++ slashed gs.
Proof. apply flat_map_app. Qed.

Lemma joinS_snoc segs g :
  joinS (segs ++ [g]) =
  if 0 <? length (joinS segs) then joinS segs ++ "/" :: g else
  match segs with [] => g | _ => joinS segs ++ "/" :: g end.
Proof.
  unfold joinS. rewrite slashed_snoc.
  destruct segs as [|g0 segs]; [reflexivity|]. simpl.
  now destruct (0 <? _).
Qed.

Lemma joinS_empty segs :
  forallb plain segs = true -> joinS segs = [] -> segs = [].
Proof.
  destruct segs as [|g segs]; [reflexivity|]. simpl.
  intros [Hg _]%andb_true_iff. apply plain_spec in Hg as (Hne & _).
  unfold joinS. simpl. destruct g; [congruence | discriminate].
Qed.

(** Pushing a segment at the end of [res]. *)
Lemma joinS_push segs g :
  forallb plain segs = true ->
  (if 0 <? length (joinS segs) then joinS segs ++ "/" :: g else g)
  = joinS (segs ++ [g]).
Proof.
  intros Hp. rewrite joinS_snoc.
  destruct (0 <? length (joinS segs)) eqn:E; [reflexivity|].
  apply Nat.ltb_ge in E.
  rewrite (joinS_empty segs Hp); [reflexivity|].
  destruct (joinS segs); [reflexivity | simpl in E; lia].
Qed.

Lemma lastIndexOf_notin c s : c ∉ s -> JS.lastIndexOf c s = None.
Proof.
  induction s as [|d s IH]; [reflexivity|].
  intros [Hne Hs]%not_elem_of_cons. simpl. rewrite IH by assumption.
  destruct (Ascii.eqb_spec d c); congruence.
Qed.

Lemma lastIndexOf_app c a g :
  c ∉ g -> JS.lastIndexOf c (a ++ c :: g) = Some (length a).
Proof.
  intros Hg. induction a as [|d a IH]; simpl.
  - now rewrite lastIndexOf_notin, Ascii.eqb_refl.
  - now rewrite IH.
Qed.

(** *** The loop of [normalizeString] *)

Lemma at_separator_seg b st : Path.seg (Path.at_separator b st) = [].
Proof. unfold Path.at_separator. repeat case_match; reflexivity. Qed.

Lemma at_separator_dots b st : Path.dots (Path.at_separator b st) = 0%Z.
Proof. unfold Path.at_separator. repeat case_match; reflexivity. Qed.

Lemma at_separator_noop b st :
  Path.seg st = [] -> Path.res (Path.at_separator b st) = Path.res st.
Proof. unfold Path.at_separator. now intros ->. Qed.

(** The loop always ends as if on a separator. *)
Lemma normalizeString_finish s b :
  Path.normalizeString s b
  = Path.res (Path.at_separator b (fold_left (Path.nstep b) s Path.nstate_init)).
Proof.
  unfold Path.normalizeString.
  destruct (Path.isPosixPathSeparator _) eqn:E; [|reflexivity].
  symmetry. apply at_separator_noop. revert E.
  destruct s as [|c s _] using rev_ind; [discriminate|].
  rewrite fold_left_app. simpl. unfold Path.nstep.
  destruct (Path.isPosixPathSeparator c) eqn:Ec.
  - intros _. apply at_separator_seg.
  - destruct (_ && _); simpl; congruence.
Qed.

Lemma normalizeString_trailing s b :
  Path.normalizeString (s ++ ["/"]) b = Path.normalizeString s b.
Proof.
  rewrite !normalizeString_finish, fold_left_app. simpl.
  unfold Path.nstep at 1. simpl.
  apply at_separator_noop, at_separator_seg.
Qed.

Lemma dotsOf_snoc_dot g :
  dotsOf g <> (-1)%Z -> dotsOf (g ++ ["."]) = (dotsOf g + 1)%Z.
Proof.
  unfold dotsOf. rewrite forallb_app, length_app. simpl.
  destruct (forallb _ g); simpl; [lia | congruence].
Qed.

Lemma dotsOf_snoc_minus g : dotsOf g = (-1)%Z -> dotsOf (g ++ ["."]) = (-1)%Z.
Proof.
  unfold dotsOf. rewrite forallb_app.
  destruct (forallb _ g); simpl; [lia | reflexivity].
Qed.

Lemma dotsOf_snoc_other g c : c <> "." -> dotsOf (g ++ [c]) = (-1)%Z.
Proof.
  intros Hc. unfold dotsOf. rewrite forallb_app. cbn [forallb].
  destruct (Ascii.eqb_spec "." c); [congruence|].
  now rewrite andb_false_r.
Qed.

(** A character that is not a separator only extends the segment. *)
Lemma nstep_char b st c :
  c <> "/" -> Path.dots st = dotsOf (Path.seg st) ->
  let st' := Path.nstep b st c in
  Path.res st' = Path.res st /\ Path.seg st' = Path.seg st ++ [c] /\
  Path.dots st' = dotsOf (Path.seg st ++ [c]).
Proof.
  intros Hc Hd. unfold Path.nstep, Path.isPosixPathSeparator.
  destruct (Ascii.eqb_spec c "/"); [congruence|].
  destruct (Ascii.eqb_spec c ".") as [->|Hdot]; simpl.
  - destruct (Z.eqb_spec (Path.dots st) (-1)); simpl.
    + repeat split. symmetry. apply dotsOf_snoc_minus. congruence.
    + repeat split. rewrite dotsOf_snoc_dot; congruence.
  - repeat split. symmetry. now apply dotsOf_snoc_other.
Qed.

Lemma fold_segment b g st :
  "/" ∉ g -> Path.dots st = dotsOf (Path.seg st) ->
  let st' := fold_left (Path.nstep b) g st in
  Path.res st' = Path.res st /\ Path.seg st' = Path.seg st ++ g /\
  Path.dots st' = dotsOf (Path.seg st ++ g).
Proof.
  revert st. induction g as [|c g IH]; intros st Hg Hd; simpl.
  - now rewrite app_nil_r.
  - apply not_elem_of_cons in Hg as [Hc Hg].
    destruct (nstep_char b st c) as (Hr & Hs & Hd'); [congruence|exact Hd|].
    destruct (IH (Path.nstep b st c) Hg) as (Hr' & Hs' & Hd'').
    { now rewrite Hd', Hs. }
    rewrite Hr', Hs', Hd'', Hr, Hs, <- app_assoc. auto.
Qed.

Lemma dotsOf_plain g :
  g <> [] -> g <> str "." -> g <> str ".." ->
  dotsOf g <> 1%Z /\ dotsOf g <> 2%Z.
Proof.
  intros H0 H1 H2. unfold dotsOf.
  destruct (forallb _ g) eqn:E; [|lia].
  destruct g as [|c [|d [|e g]]]; simpl in *; try lia; try congruence.
  - rewrite andb_true_r in E. apply Ascii.eqb_eq in E as <-.
    now destruct H1.
  - apply andb_true_iff in E as [E1 E]. rewrite andb_true_r in E.
    apply Ascii.eqb_eq in E as <-. apply Ascii.eqb_eq in E1 as <-.
    now destruct H2.
Qed.

(** At a separator a plain segment is appended to [res]. *)
Lemma at_separator_push st segs :
  forallb plain segs = true -> Path.res st = joinS segs ->
  plain (Path.seg st) = true -> Path.dots st = dotsOf (Path.seg st) ->
  Path.res (Path.at_separator false st) = joinS (segs ++ [Path.seg st]).
Proof.
  intros Hsegs Hres Hg Hd. apply plain_spec in Hg as (H0 & _ & H1 & H2).
  destruct (dotsOf_plain _ H0 H1 H2) as [Hd1 Hd2].
  unfold Path.at_separator. rewrite Hd.
  destruct (Path.seg st) as [|c g] eqn:Eg; [congruence|].
  destruct (Z.eqb_spec (dotsOf (c :: g)) 1); [congruence|].
  destruct (Z.eqb_spec (dotsOf (c :: g)) 2); [congruence|].
  simpl. rewrite Hres. now apply joinS_push.
Qed.

Lemma dotsOf_not_plain g :
  g <> [] -> "/" ∉ g -> dotsOf g <> 1%Z -> dotsOf g <> 2%Z ->
  plain g = true.
Proof.
  intros H0 Hs H1 H2. apply plain_spec. repeat split; auto.
  - intros ->. now apply H1.
  - intros ->. now apply H2.
Qed.

Lemma at_separator_ninv st : ninv st -> ninv (Path.at_separator false st).
Proof.
  intros ((segs & Hp & Hres) & Hs & Hd). split.
  2:{ rewrite at_separator_seg, at_separator_dots. split; [|reflexivity].
      apply not_elem_of_nil. }
  destruct (Path.seg st) as [|c g] eqn:Eg.
  { rewrite at_separator_noop by assumption. eauto. }
  destruct (Z.eq_dec (Path.dots st) 1%Z) as [E1|E1].
  { unfold Path.at_separator. rewrite Eg, E1. simpl. eauto. }
  destruct (Z.eq_dec (Path.dots st) 2%Z) as [E2|E2].
  - (* ".." : the last segment of [res] goes *)
    unfold Path.at_separator. rewrite Eg, E2. simpl.
    destruct (_ || _ || _ || _); simpl; [|eauto].
    destruct (2 <? length (Path.res st)) eqn:El; simpl.
    + rewrite Hres in *.
      destruct segs as [|g0 segs0 _] using rev_ind; [discriminate|].
      rewrite forallb_app in Hp. apply andb_true_iff in Hp as [Hp0 Hg0].
      simpl in Hg0. rewrite andb_true_r in Hg0.
      apply plain_spec in Hg0 as (_ & Hg0 & _).
      rewrite joinS_snoc.
      destruct segs0 as [|g1 segs1].
      * simpl. rewrite lastIndexOf_notin by assumption.
        exists []. auto.
      * assert (joinS (g1 :: segs1) ++ "/" :: g0
                = joinS ((g1 :: segs1) ++ [g0])) as E.
        { rewrite joinS_snoc. now destruct (0 <? _). }
        destruct (0 <? length (joinS (g1 :: segs1)));
          rewrite lastIndexOf_app by assumption; simpl;
          rewrite take_app_length; eauto.
    + destruct (negb _); simpl; [exists []; auto | eauto].
  - (* a plain segment is appended *)
    assert (plain (Path.seg st) = true) as Hplain.
    { apply dotsOf_not_plain; rewrite <- ?Hd, ?Eg; congruence. }
    rewrite <- Eg in Hd.
    exists (segs ++ [Path.seg st]). split.
    + rewrite forallb_app, Hp. simpl. now rewrite Hplain.
    + now apply at_separator_push.
Qed.

Lemma nstep_ninv st c : ninv st -> ninv (Path.nstep false st c).
Proof.
  intros Hinv. destruct (Ascii.eqb_spec c "/") as [->|Hc].
  - now apply at_separator_ninv.
  - destruct Hinv as (Hres & Hs & Hd).
    destruct (nstep_char false st c Hc Hd) as (Hr' & Hs' & Hd').
    unfold ninv. rewrite Hr', Hs', Hd'.
    split; [exact Hres|]. split; [|reflexivity].
    rewrite elem_of_app, list_elem_of_singleton. intros [?|?]; congruence.
Qed.

Lemma fold_ninv s st :
  ninv st -> ninv (fold_left (Path.nstep false) s st).
Proof.
  revert st. induction s as [|c s IH]; intros st H; [exact H|].
  simpl. now apply IH, nstep_ninv.
Qed.

Lemma ninv_init : ninv Path.nstate_init.
Proof.
  split; [exists []; auto|]. split; [apply not_elem_of_nil | reflexivity].
Qed.

(** Below the root, [normalizeString] returns plain segments. *)
Lemma normalizeString_plain s :
  exists segs, forallb plain segs = true /\
               Path.normalizeString s false = joinS segs.
Proof.
  rewrite normalizeString_finish.
  now destruct (at_separator_ninv _ (fold_ninv s _ ninv_init)) as [H _].
Qed.

(** The loop on plain segments, each behind its separator. *)
Lemma fold_slashed gs st total :
  forallb plain gs = true -> forallb plain total = true ->
  Path.res (Path.at_separator false st) = joinS total ->
  let st' := fold_left (Path.nstep false) (slashed gs) st in
  Path.res (Path.at_separator false st') = joinS (total ++ gs).
Proof.
  revert st total. induction gs as [|g gs IH]; intros st total Hgs Ht Hres.
  - simpl. now rewrite app_nil_r.
  - simpl in Hgs. apply andb_true_iff in Hgs as [Hg Hgs].
    simpl. rewrite fold_left_app.
    replace (total ++ g :: gs) with ((total ++ [g]) ++ gs)
      by now rewrite <- app_assoc.
    apply IH; [exact Hgs | |].
    + rewrite forallb_app, Ht. simpl. now rewrite Hg.
    + unfold Path.nstep at 2. simpl.
      pose proof Hg as (_ & Hns & _)%plain_spec.
      destruct (fold_segment false g (Path.at_separator false st) Hns)
        as (Hr & Hs & Hd).
      { now rewrite at_separator_seg, at_separator_dots. }
      rewrite at_separator_seg in Hs, Hd. simpl in Hs, Hd.
      pose proof (at_separator_push _ total Ht (eq_trans Hr Hres)) as Hpush.
      rewrite Hs in Hpush. now apply Hpush.
Qed.

Lemma normalizeString_absPath segs gs :
  forallb plain segs = true -> forallb plain gs = true ->
  Path.normalizeString (absPath segs ++ slashed gs) false
  = joinS (segs ++ gs).
Proof.
  intros Hs Hg. rewrite normalizeString_finish.
  destruct segs as [|g segs].
  - unfold absPath, joinS. simpl.
    apply (fold_slashed gs _ []); auto.
  - replace (absPath (g :: segs) ++ slashed gs)
      with (slashed ((g :: segs) ++ gs))
      by (rewrite slashed_app; reflexivity).
    apply (fold_slashed _ _ []); auto.
    now rewrite forallb_app, Hs, Hg.
Qed.

(** *** [join] and [resolve] on normalized paths *)

Lemma joinArgs_plain j gs :
  forallb plain gs = true ->
  Path.joinArgs (Some j) gs = Some (j ++ slashed gs).
Proof.
  revert j. induction gs as [|g gs IH]; intros j Hgs; simpl.
  - now rewrite app_nil_r.
  - apply andb_true_iff in Hgs as [Hg Hgs].
    apply plain_spec in Hg as (Hne & _).
    destruct g as [|c g]; [congruence|]. simpl.
    rewrite IH by assumption. now rewrite <- app_assoc.
Qed.

Lemma endsWithSeparator_snoc_plain x gs g :
  plain g = true -> Path.endsWithSeparator (x ++ slashed (gs ++ [g])) = false.
Proof.
  intros (Hne & Hns & _)%plain_spec. unfold Path.endsWithSeparator.
  rewrite slashed_snoc.
  destruct g as [|c g _] using rev_ind; [congruence|].
  replace (x ++ slashed gs ++ "/" :: g ++ [c])
    with ((x ++ slashed gs ++ "/" :: g) ++ [c])
    by now rewrite <- !app_assoc.
  rewrite last_snoc.
  destruct (Ascii.eqb_spec c "/") as [->|]; [|reflexivity].
  destruct Hns. rewrite elem_of_app, list_elem_of_singleton. auto.
Qed.

Lemma joinS_nonempty segs g :
  forallb plain (segs ++ [g]) = true -> joinS (segs ++ [g]) <> [].
Proof.
  intros Hp E. apply joinS_empty in E; [|exact Hp].
  now destruct segs.
Qed.

Lemma isAbsolute_absPath segs x : Path.isAbsolute (absPath segs ++ x) = true.
Proof. reflexivity. Qed.

(** [join] of a normalized absolute path and plain segments. *)
Lemma join_absPath segs gs :
  forallb plain segs = true -> forallb plain gs = true -> gs <> [] ->
  Path.join (absPath segs :: gs) = absPath (segs ++ gs).
Proof.
  intros Hs Hg Hne. unfold Path.join. simpl.
  rewrite joinArgs_plain by assumption.
  destruct gs as [|g gs _] using rev_ind; [congruence|].
  unfold Path.normalize.
  rewrite endsWithSeparator_snoc_plain.
  2:{ rewrite forallb_app in Hg. apply andb_true_iff in Hg as [_ Hg].
      simpl in Hg. now rewrite andb_true_r in Hg. }
  rewrite !isAbsolute_absPath. cbn [negb].
  rewrite normalizeString_absPath by assumption.
  change (absPath segs ++ slashed (gs ++ [g]))
    with ("/" :: joinS segs ++ slashed (gs ++ [g])). cbv iota.
  destruct (joinS (segs ++ gs ++ [g])) eqn:E;
    [|unfold absPath; now rewrite E].
  exfalso. rewrite app_assoc in E.
  apply joinS_nonempty in E; [exact E|].
  now rewrite <- app_assoc, forallb_app, Hs, Hg.
Qed.

Lemma isAbsolute_cons p :
  Path.isAbsolute p = true -> exists p', p = "/" :: p'.
Proof.
  destruct p as [|c p']; [discriminate|]. simpl.
  intros ->%Ascii.eqb_eq. eauto.
Qed.

(** [resolve] from an absolute working directory is a normalized absolute
    path. *)
Lemma resolve_normalAbs cwd name :
  Path.isAbsolute cwd = true -> normalAbs (Path.resolve cwd [cwd; name]).
Proof.
  intros Habs. destruct (isAbsolute_cons _ Habs) as [cwd' ->].
  unfold Path.resolve. simpl.
  destruct (0 <? length name); [destruct (Path.isAbsolute name)|]; simpl;
    match goal with
    | |- normalAbs ("/" :: Path.normalizeString ?s false) =>
        destruct (normalizeString_plain s) as (segs & Hp & ->)
    end; now exists segs.
Qed.


End Normalize.

(** ** The filesystem *)

#[local] Arguments str : simpl never.

Section Filesystem.

Implicit Types (m : gmap jsstring node) (p q d : jsstring).

Lemma startsWith_refl p : JS.startsWith p p = true.
Proof. apply startsWith_spec. exists []. now rewrite app_nil_r. Qed.

Lemma fs_closed_spec m p d :
  fs_closed m = true -> is_Some (m !! p) -> d ∈ dirChain [] p ->
  is_Some (m !! d).
Proof.
  unfold fs_closed. rewrite forallb_forall. intros H [n Hn] Hd.
  specialize (H (p, n)). rewrite forallb_forall in H.
  eapply bool_decide_eq_true_1, H.
  - now apply list_elem_of_In, elem_of_map_to_list.
  - now apply list_elem_of_In.
Qed.

Lemma dirChain_prefix pre rest q :
  q ∈ dirChain pre rest -> JS.startsWith q (pre ++ rest) = true.
Proof.
  revert pre. induction rest as [|c rest IH]; intros pre; simpl.
  - destruct (Path.endsWithSeparator pre); [intros []%elem_of_nil|].
    destruct pre; [intros []%elem_of_nil|].
    intros ->%list_elem_of_singleton. rewrite app_nil_r.
    apply startsWith_refl.
  - rewrite elem_of_app. intros [H|H].
    + destruct (Ascii.eqb c "/"); [|now apply elem_of_nil in H].
      destruct (Path.endsWithSeparator pre); [now apply elem_of_nil in H|].
      destruct pre; [now apply elem_of_nil in H|].
      apply list_elem_of_singleton in H as ->. apply startsWith_app.
    + apply IH in H. now rewrite <- app_assoc in H.
Qed.

Lemma dirChain_elem pre a r :
  pre ++ a <> [] -> Path.endsWithSeparator (pre ++ a) = false ->
  pre ++ a ∈ dirChain pre (a ++ "/" :: r).
Proof.
  revert pre. induction a as [|c a IH]; intros pre Hne Hend.
  - rewrite app_nil_r in *. simpl. rewrite Hend.
    destruct pre; [congruence|]. apply elem_of_app. left. left.
  - simpl. apply elem_of_app. right.
    replace (pre ++ c :: a) with ((pre ++ [c]) ++ a) in *
      by now rewrite <- app_assoc.
    now apply IH.
Qed.

Lemma mkdirChain_lookup chain m m' r p :
  mkdirChain chain m = (m', r) ->
  m' !! p = m !! p \/ (m !! p = None /\ m' !! p = Some Dir /\ p ∈ chain).
Proof.
  revert m. induction chain as [|d chain IH]; intros m; simpl.
  - intros [= <- _]. now left.
  - destruct (m !! d) as [[c|]|] eqn:E.
    + intros [= <- _]. now left.
    + intros [H|(H1 & H2 & H3)]%IH; [now left|].
      right. repeat split; auto. now right.
    + intros [H|(H1 & H2 & H3)]%IH.
      * destruct (decide (d = p)) as [->|Hne].
        -- right. rewrite H, lookup_insert_eq. repeat split; auto. left.
        -- left. now rewrite H, lookup_insert_ne.
      * destruct (decide (d = p)) as [->|Hne].
        -- now rewrite lookup_insert_eq in H1.
        -- rewrite lookup_insert_ne in H1 by assumption.
           right. repeat split; auto. now right.
Qed.

Lemma writeUnder_lookup dir nodes m p :
  writeUnder dir nodes m !! p = m !! p \/
  JS.startsWith (dir ++ ["/"]) p = true.
Proof.
  induction nodes as [|[rel n] nodes IH]; simpl; [now left|].
  destruct (decide (dir ++ "/" :: rel = p)) as [<-|Hne].
  - right. change (dir ++ "/" :: rel) with (dir ++ ["/"] ++ rel).
    rewrite app_assoc. apply startsWith_app.
  - now rewrite lookup_insert_ne.
Qed.

Lemma startsWith_dirPrefix d : JS.startsWith d (dirPrefix d) = true.
Proof.
  unfold dirPrefix. destruct (Path.endsWithSeparator d).
  - apply startsWith_refl.
  - apply startsWith_app.
Qed.

Lemma within_startsWith d p : within d p = true -> JS.startsWith d p = true.
Proof.
  unfold within. intros [->%bool_decide_eq_true|H]%orb_true_iff.
  - apply startsWith_refl.
  - eapply startsWith_trans; [apply startsWith_dirPrefix | exact H].
Qed.



(** [fs.remove]: what lies within [d] is gone, the rest is as it was. *)
Lemma remove_lookup d m p :
  filter (fun kv => within d kv.1 = false) m !! p
  = if within d p then None else m !! p.
Proof.
  destruct (within d p) eqn:E.
  - apply map_lookup_filter_None. right. intros n _. simpl. congruence.
  - destruct (m !! p) as [n|] eqn:En.
    + now apply map_lookup_filter_Some.
    + apply map_lookup_filter_None. now left.
Qed.

End Filesystem.

(** ** The layout of the project *)

Section Layout.

Implicit Types (T p f : jsstring) (segs gs : list jsstring).

Lemma slashed_joinS gs : gs <> [] -> slashed gs = "/" :: joinS gs.
Proof. destruct gs; [congruence | reflexivity]. Qed.

Lemma endsWithSeparator_absPath segs g :
  forallb plain (segs ++ [g]) = true ->
  Path.endsWithSeparator (absPath (segs ++ [g])) = false.
Proof.
  intros Hp. rewrite forallb_app in Hp. apply andb_true_iff in Hp as [_ Hg].
  simpl in Hg. rewrite andb_true_r in Hg.
  unfold absPath. rewrite <- slashed_joinS by now destruct segs.
  apply (endsWithSeparator_snoc_plain [] segs g Hg).
Qed.

Lemma dirPrefix_absPath segs :
  forallb plain segs = true -> dirPrefix (absPath segs) = slashed segs ++ ["/"].
Proof.
  intros Hp. destruct segs as [|g segs _] using rev_ind; [reflexivity|].
  unfold dirPrefix. rewrite endsWithSeparator_absPath by assumption.
  unfold absPath. rewrite <- slashed_joinS; [reflexivity|].
  now destruct segs.
Qed.

(** Joining plain segments to a normalized absolute path puts them behind
    the path and a separator. *)
Lemma join_under T gs :
  normalAbs T -> forallb plain gs = true -> gs <> [] ->
  Path.join (T :: gs) = dirPrefix T ++ joinS gs /\
  normalAbs (Path.join (T :: gs)) /\
  dirPrefix (Path.join (T :: gs)) = dirPrefix T ++ joinS gs ++ ["/"].
Proof.
  intros (segs & Hs & ->) Hg Hne.
  rewrite join_absPath by assumption.
  assert (forallb plain (segs ++ gs) = true) as Hsg
    by now rewrite forallb_app, Hs, Hg.
  assert (absPath (segs ++ gs) = dirPrefix (absPath segs) ++ joinS gs) as E.
  { rewrite dirPrefix_absPath by assumption. unfold absPath.
    rewrite <- slashed_joinS by (destruct segs, gs; simpl; congruence).
    rewrite slashed_app, (slashed_joinS gs Hne), <- app_assoc.
    reflexivity. }
  split; [exact E|]. split; [now exists (segs ++ gs)|].
  rewrite dirPrefix_absPath by assumption.
  rewrite dirPrefix_absPath by assumption.
  rewrite slashed_app, (slashed_joinS gs Hne), <- !app_assoc. reflexivity.
Qed.

Lemma normalAbs_cases T :
  normalAbs T ->
  T = root \/ (T <> [] /\ Path.endsWithSeparator T = false /\
               dirPrefix T = T ++ ["/"]).
Proof.
  intros (segs & Hp & ->).
  destruct segs as [|g segs _] using rev_ind; [now left|]. right.
  pose proof (endsWithSeparator_absPath _ _ Hp) as He.
  split; [discriminate|]. split; [exact He|].
  unfold dirPrefix. now rewrite He.
Qed.

Lemma within_dirPrefix T x : within T (dirPrefix T ++ x) = true.
Proof. unfold within. rewrite startsWith_app. apply orb_true_r. Qed.

End Layout.

(** The paths of a run whose working directory is absolute, all behind
    the prefix of the target directory. *)
Lemma layout env name :
  Path.isAbsolute (cwd env) = true ->
  let T := targetDirOf env name in
  let appDir := Path.join [T; str "app"] in
  let dataDir := Path.join [T; str "data"] in
  normalAbs T /\
  appDir = dirPrefix T ++ str "app" /\
  dataDir = dirPrefix T ++ str "data" /\
  dirPrefix dataDir = dirPrefix T ++ str "data/" /\
  (forall f, plain f = true ->
     Path.join [dataDir; f] = dirPrefix T ++ str "data/" ++ f) /\
  configPath appDir
    = dirPrefix T ++ str "app/src/main/resources/config.properties".
Proof.
  intros Habs T appDir dataDir.
  assert (normalAbs T) as HT by now apply resolve_normalAbs.
  destruct (join_under T [str "app"] HT eq_refl) as (Ea & Na & Pa);
    [discriminate|].
  destruct (join_under T [str "data"] HT eq_refl) as (Ed & Nd & Pd);
    [discriminate|].
  fold appDir in Ea, Na, Pa. fold dataDir in Ed, Nd, Pd.
  repeat split; try assumption.
  - intros f Hf.
    destruct (join_under dataDir [f] Nd) as (E & _); [|discriminate|].
    { simpl. now rewrite Hf. }
    rewrite E, Pd. unfold joinS. simpl.
    now rewrite <- !app_assoc, app_nil_r.
  - unfold configPath.
    destruct (join_under appDir
                [str "src"; str "main"; str "resources";
                 str "config.properties"] Na eq_refl) as (E & _);
      [discriminate|].
    rewrite E, Pa. now rewrite <- !app_assoc.
Qed.

(** ** C9 *)



(** ** Running the script *)

Ltac mrun :=
  cbv [mbind M_bind mret M_ret emit record get_fs put_fs throw process_exit
       try_catch console_log console_error spinner_start spinner_succeed
       spinner_fail logStep];
  cbn [fs console ops fst snd].

Section Monad.

Context {A B : Type}.

Lemma bind_run (m : M A) (k : A -> M B) w :
  (m ≫= k) w = match m w with
               | (w', Ret a) => k a w'
               | (w', Throw e) => (w', Throw e)
               | (w', Exit c) => (w', Exit c)
               end.
Proof. reflexivity. Qed.

Lemma bind_ret (m : M A) (k : A -> M B) w w' b :
  (m ≫= k) w = (w', Ret b) ->
  exists a w1, m w = (w1, Ret a) /\ k a w1 = (w', Ret b).
Proof.
  rewrite bind_run. destruct (m w) as [w1 [a|e|c]]; try discriminate. eauto.
Qed.

End Monad.

Section AppendsOps.

Lemma appends_bind {A B} (m : M A) (k : A -> M B) :
  appendsOps m -> (forall a, appendsOps (k a)) -> appendsOps (m ≫= k).
Proof.
  intros Hm Hk w w' r. rewrite bind_run.
  destruct (m w) as [w1 [a|e|c]] eqn:E;
    destruct (Hm _ _ _ E) as [l Hl].
  - intros [l' Hl']%Hk. exists (l ++ l'). now rewrite Hl', Hl, app_assoc.
  - intros [= <- _]; eauto.
  - intros [= <- _]; eauto.
Qed.

Lemma appends_try {A} (m : M A) (h : Error -> M A) :
  appendsOps m -> (forall e, appendsOps (h e)) -> appendsOps (try_catch m h).
Proof.
  intros Hm Hh w w' r. unfold try_catch.
  destruct (m w) as [w1 [a|e|c]] eqn:E;
    destruct (Hm _ _ _ E) as [l Hl].
  - intros [= <- _]; eauto.
  - intros [l' Hl']%Hh. exists (l ++ l'). now rewrite Hl', Hl, app_assoc.
  - intros [= <- _]; eauto.
Qed.

Lemma appends_ret {A} (a : A) : appendsOps (mret a).
Proof. intros w w' r [= <- _]. exists []. now rewrite app_nil_r. Qed.

Lemma appends_throw {A} e : appendsOps (@throw A e).
Proof. intros w w' r [= <- _]. exists []. now rewrite app_nil_r. Qed.

Lemma appends_exit {A} c : appendsOps (@process_exit A c).
Proof. intros w w' r [= <- _]. exists []. now rewrite app_nil_r. Qed.

Lemma appends_emit o : appendsOps (emit o).
Proof. intros w w' r [= <- _]. exists []. simpl. now rewrite app_nil_r. Qed.

Lemma appends_record o : appendsOps (record o).
Proof. intros w w' r [= <- _]. now exists [o]. Qed.

Lemma appends_get_fs : appendsOps get_fs.
Proof. intros w w' r [= <- _]. exists []. now rewrite app_nil_r. Qed.

Lemma appends_put_fs m : appendsOps (put_fs m).
Proof. intros w w' r [= <- _]. exists []. simpl. now rewrite app_nil_r. Qed.

End AppendsOps.

Create HintDb appends.
#[local] Hint Resolve appends_ret appends_throw appends_exit appends_emit
  appends_record appends_get_fs appends_put_fs : appends.

Ltac appends :=
  repeat first
    [ progress (intros)
    | apply appends_bind
    | apply appends_try
    | solve [auto with appends]
    | apply appends_emit
    | match goal with
      | |- appendsOps (match ?x with _ => _ end) => destruct x
      | |- appendsOps (let (_, _) := ?x in _) => destruct x
      end ].

Section ScriptAppends.

Lemma appends_mkdirs p : appendsOps (mkdirs p).
Proof. unfold mkdirs. appends. Qed.

Lemma appends_remove p : appendsOps (remove p).
Proof. unfold remove. appends. Qed.

Lemma appends_ensureDir p : appendsOps (ensureDir p).
Proof. unfold ensureDir. appends; apply appends_mkdirs. Qed.

Lemma appends_writeFile p data : appendsOps (writeFile p data).
Proof. unfold writeFile. appends. Qed.

Lemma appends_copyFile src dst : appendsOps (copyFile src dst).
Proof. unfold copyFile. appends; apply appends_writeFile. Qed.

Lemma appends_readFile p : appendsOps (readFile p).
Proof. unfold readFile. appends. Qed.

Lemma appends_outputFile p data : appendsOps (outputFile p data).
Proof.
  unfold outputFile. appends;
    auto using appends_mkdirs, appends_writeFile with appends.
Qed.

Lemma appends_runProcess c d r : appendsOps (runProcess c d r).
Proof. unfold runProcess. appends. Qed.

Lemma appends_execSync c d r : appendsOps (execSync c d r).
Proof. unfold execSync. appends; apply appends_runProcess. Qed.

Lemma appends_console_log args : appendsOps (console_log args).
Proof. apply appends_emit. Qed.

Lemma appends_logStep s : appendsOps (logStep s).
Proof. apply appends_emit. Qed.

Lemma appends_cloneRepo env a : appendsOps (cloneRepo env a).
Proof.
  unfold cloneRepo, spinner_start, spinner_succeed, spinner_fail,
    console_error.
  appends; auto using appends_ensureDir, appends_runProcess.
Qed.

Lemma appends_copyDataFiles env d files :
  appendsOps (copyDataFiles env d files).
Proof.
  induction files as [|f files IH]; simpl; appends;
    apply appends_copyFile.
Qed.

Lemma appends_provisionData env d : appendsOps (provisionData env d).
Proof.
  unfold provisionData, logStep, console_log, spinner_start,
    spinner_succeed, spinner_fail, console_error.
  appends; auto using appends_ensureDir, appends_copyDataFiles.
Qed.

Lemma appends_generateConfig env a d : appendsOps (generateConfig env a d).
Proof.
  unfold generateConfig, logStep, console_log, spinner_start,
    spinner_succeed, spinner_fail, console_error.
  appends; auto using appends_readFile, appends_outputFile.
Qed.

Lemma appends_installDependencies env a :
  appendsOps (installDependencies env a).
Proof.
  unfold installDependencies, logStep, console_log, spinner_start,
    spinner_succeed, spinner_fail, console_error.
  appends; auto using appends_execSync.
Qed.

Lemma appends_checkTomcat env : appendsOps (checkTomcat env).
Proof.
  unfold checkTomcat, logStep, console_log, spinner_start,
    spinner_succeed, spinner_fail, console_error.
  appends.
Qed.

Lemma appends_done name : appendsOps (done name).
Proof. unfold done, console_log. appends. Qed.

Lemma appends_provision env name : appendsOps (provision env name).
Proof.
  unfold provision. appends;
    auto using appends_logStep, appends_cloneRepo, appends_provisionData,
      appends_generateConfig, appends_installDependencies.
Qed.

(** What is left of the script after the prompts only adds to the log. *)
Lemma appends_rest env name :
  appendsOps (provision env name;; checkTomcat env;; done name).
Proof.
  appends; auto using appends_provision, appends_checkTomcat, appends_done.
Qed.

End ScriptAppends.

(** ** The steps of the script *)

(** A run that returns, as the pair of its last world and its value. *)
Lemma run_ret {A} (x : World * Result A) a : x.2 = Ret a -> x = (x.1, Ret a).
Proof. destruct x as [w r]. simpl. now intros ->. Qed.

Section Steps.

Implicit Types (env : Env) (w : World).

(** The three ways the prompts end. *)
Lemma collectInput_run env w :
  let T := targetDirOf env (projectNameOf env) in
  collectInput env w =
  if pathExists (fs w) T then
    if promptConfirm false (overwriteInput env) then
      ({| fs := filter (fun kv => within T kv.1 = false) (fs w);
          console := console w ++ greeting;
          ops := ops w ++ [OpRemove T] |}, Ret (projectNameOf env))
    else
      ({| fs := fs w; console := console w ++ greeting; ops := ops w |},
       Exit 0)
  else
    ({| fs := fs w; console := console w ++ greeting; ops := ops w |},
     Ret (projectNameOf env)).
Proof.
  unfold collectInput, existsSync, remove, greeting. mrun.
  destruct (pathExists _ _); [destruct (promptConfirm _ _)|]; mrun;
    now rewrite <- app_assoc.
Qed.

(** Step 5 never fails. *)
Lemma checkTomcat_run env w :
  checkTomcat env w =
  ({| fs := fs w; console := console w ++ tomcatReport env;
      ops := ops w ++ [OpExec (tomcatCommand env)] |}, Ret tt).
Proof.
  unfold checkTomcat, tomcatReport, tomcatCommand, tomcatAdvisory, execSync,
    runProcess, versionCheck.
  mrun.
  destruct (bool_decide _); destruct (catalina env _);
    cbn [succeeded failure written writeUnder fold_right]; mrun;
    now rewrite <- !app_assoc.
Qed.

Lemma done_run name w :
  done name w =
  ({| fs := fs w; console := console w ++ doneReport name; ops := ops w |},
   Ret tt).
Proof. unfold done, doneReport. mrun. now rewrite <- !app_assoc. Qed.

End Steps.

(** ** C4 *)

(** C4. If the target directory exists and the overwrite is declined,
    the process exits with code 0; the filesystem at the end is the
    filesystem at the start, and the script has issued no operation on
    it. *)
Theorem decline_leaves_filesystem_unchanged env w :
  pathExists (fs w) (targetDirOf env (projectNameOf env)) = true ->
  promptConfirm false (overwriteInput env) = false ->
  exists w', main env w = (w', Exit 0) /\
             exitCode (main env w).2 = 0%Z /\
             fs w' = fs w /\ ops w' = ops w.
Proof.
  intros Hex Hno. unfold main. rewrite bind_run.
  pose proof (collectInput_run env w) as E. simpl in E.
  rewrite Hex, Hno in E. rewrite E. eexists. repeat split.
Qed.

Lemma decline_leaves_filesystem_unchanged_witness :
  exists w', main sampleEnv sampleWorld = (w', Exit 0) /\
             exitCode (main sampleEnv sampleWorld).2 = 0%Z /\
             fs w' = fs sampleWorld /\ ops w' = ops sampleWorld.
Proof.
  apply (decline_leaves_filesystem_unchanged sampleEnv sampleWorld).
  - vm_compute. reflexivity.
  - reflexivity.
Defined.

(** ** C5 *)

(** C5. If the target directory exists and the overwrite is accepted,
    the removal of the target directory is the first operation of the run
    on the filesystem: the rest of the script starts from a filesystem
    with nothing at or below the target directory and everything else as
    it was, and whatever the run logs afterwards comes after the
    removal. *)
Theorem overwrite_removes_target_first env w :
  let T := targetDirOf env (projectNameOf env) in
  pathExists (fs w) T = true ->
  promptConfirm false (overwriteInput env) = true ->
  exists w1,
    collectInput env w = (w1, Ret (projectNameOf env)) /\
    main env w
      = (provision env (projectNameOf env);; checkTomcat env;;
         done (projectNameOf env)) w1 /\
    ops w1 = ops w ++ [OpRemove T] /\
    (forall p, within T p = true -> fs w1 !! p = None) /\
    (forall p, within T p = false -> fs w1 !! p = fs w !! p) /\
    exists rest, ops (main env w).1 = ops w ++ OpRemove T :: rest.
Proof.
  intros T Hex Hyes.
  pose proof (collectInput_run env w) as E. simpl in E.
  fold T in E. rewrite Hex, Hyes in E.
  eexists. split; [exact E|]. split.
  { unfold main. rewrite bind_run, E. reflexivity. }
  split; [reflexivity|]. split; [|split].
  - intros p Hp. simpl. now rewrite remove_lookup, Hp.
  - intros p Hp. simpl. now rewrite remove_lookup, Hp.
  - unfold main. rewrite bind_run, E.
    destruct ((provision env (projectNameOf env);; checkTomcat env;;
               done (projectNameOf env)) _) as [w' r] eqn:Er.
    destruct (appends_rest _ _ _ _ _ Er) as [l Hl].
    exists l. simpl in *. now rewrite Hl, <- app_assoc.
Qed.

Lemma overwrite_removes_target_first_witness :
  let env :=
    {| cwd := cwd sampleEnv; dirname := dirname sampleEnv;
       platform := platform sampleEnv;
       projectNameInput := str "park-me-app";
       overwriteInput := Some true;
       gitClone := gitClone sampleEnv; npmInstall := npmInstall sampleEnv;
       catalina := catalina sampleEnv |} in
  let T := targetDirOf env (projectNameOf env) in
  exists w1,
    collectInput env sampleWorld = (w1, Ret (projectNameOf env)) /\
    main env sampleWorld
      = (provision env (projectNameOf env);; checkTomcat env;;
         done (projectNameOf env)) w1 /\
    ops w1 = ops sampleWorld ++ [OpRemove T] /\
    (forall p, within T p = true -> fs w1 !! p = None) /\
    (forall p, within T p = false -> fs w1 !! p = fs sampleWorld !! p) /\
    exists rest,
      ops (main env sampleWorld).1 = ops sampleWorld ++ OpRemove T :: rest.
Proof.
  intros env T.
  apply (overwrite_removes_target_first env sampleWorld).
  - vm_compute. reflexivity.
  - reflexivity.
Defined.

(** ** C8 *)

(** C8. Once steps 1 to 4 have succeeded, the run ends normally, with
    exit code 0, whatever the version command does: step 5 changes
    nothing on the filesystem, and the closing lines that report success
    come last. When the version command fails, what step 5 shows ends
    with the failed spinner and the line that holds the link to the
    Tomcat downloads. *)
Theorem tomcat_check_never_aborts env w w1 w4 name :
  collectInput env w = (w1, Ret name) ->
  provision env name w1 = (w4, Ret tt) ->
  exists w',
    main env w = (w', Ret tt) /\
    exitCode (main env w).2 = 0%Z /\
    fs w' = fs w4 /\ ops w' = ops w4 ++ [OpExec (tomcatCommand env)] /\
    console w' = console w4 ++ tomcatReport env ++ doneReport name /\
    (catalina env (tomcatCommand env) = false ->
     exists shown, tomcatReport env = shown ++ tomcatAdvisory).
Proof.
  intros H1 H4. unfold main.
  rewrite bind_run, H1, bind_run, H4, bind_run, checkTomcat_run, done_run.
  eexists. repeat split; simpl.
  - now rewrite <- app_assoc.
  - intros Hno. unfold tomcatReport. rewrite Hno. eauto.
Qed.

Lemma tomcat_check_never_aborts_witness :
  let name := projectNameOf sampleEnv in
  let w1 := (collectInput sampleEnv freshWorld).1 in
  let w4 := (provision sampleEnv name w1).1 in
  exists w',
    main sampleEnv freshWorld = (w', Ret tt) /\
    exitCode (main sampleEnv freshWorld).2 = 0%Z /\
    fs w' = fs w4 /\ ops w' = ops w4 ++ [OpExec (tomcatCommand sampleEnv)] /\
    console w' = console w4 ++ tomcatReport sampleEnv ++ doneReport name /\
    (catalina sampleEnv (tomcatCommand sampleEnv) = false ->
     exists shown, tomcatReport sampleEnv = shown ++ tomcatAdvisory).
Proof.
  intros name w1 w4.
  apply (tomcat_check_never_aborts sampleEnv freshWorld w1 w4 name).
  - apply (run_ret (collectInput sampleEnv freshWorld)).
    vm_compute. reflexivity.
  - apply (run_ret (provision sampleEnv name w1) tt).
    vm_compute. reflexivity.
Defined.

(** ** Steps 1 to 4 on the filesystem *)

Section FsSteps.

Implicit Types (m : gmap jsstring node) (p q d : jsstring) (w : World).

Lemma mkdirChain_keep chain m m' r p n :
  mkdirChain chain m = (m', r) -> m !! p = Some n -> m' !! p = Some n.
Proof.
  intros H Hp. destruct (mkdirChain_lookup _ _ _ _ p H) as [E|(E & _)];
    congruence.
Qed.

Lemma mkdirChain_file chain m m' r p c :
  mkdirChain chain m = (m', r) -> m' !! p = Some (File c) ->
  m !! p = Some (File c).
Proof.
  intros H Hp. destruct (mkdirChain_lookup _ _ _ _ p H) as [E|(_ & E & _)];
    congruence.
Qed.

Lemma mkdirChain_other chain m m' r p :
  mkdirChain chain m = (m', r) -> p ∉ chain -> m' !! p = m !! p.
Proof.
  intros H Hp. now destruct (mkdirChain_lookup _ _ _ _ p H) as [E|(_ & _ & E)].
Qed.

Lemma mkdirChain_made chain m m' d :
  mkdirChain chain m = (m', None) -> d ∈ chain -> m' !! d = Some Dir.
Proof.
  revert m. induction chain as [|d0 chain IH]; intros m H Hd.
  - now apply elem_of_nil in Hd.
  - simpl in H. destruct (m !! d0) as [[c|]|] eqn:E; [discriminate|..].
    + apply elem_of_cons in Hd as [->|Hd]; [|now apply (IH m)].
      eapply mkdirChain_keep; eassumption.
    + apply elem_of_cons in Hd as [->|Hd]; [|now apply (IH _ H)].
      eapply mkdirChain_keep; [eassumption|]. apply lookup_insert_eq.
Qed.

Lemma dirChain_self pre rest :
  pre ++ rest <> [] -> Path.endsWithSeparator (pre ++ rest) = false ->
  pre ++ rest ∈ dirChain pre rest.
Proof.
  revert pre. induction rest as [|c rest IH]; intros pre Hne Hend.
  - rewrite app_nil_r in *. simpl. rewrite Hend.
    destruct pre; [congruence | left].
  - simpl. apply elem_of_app. right.
    replace (pre ++ c :: rest) with ((pre ++ [c]) ++ rest) in *
      by now rewrite <- app_assoc.
    now apply IH.
Qed.

Lemma writeUnder_other dir nodes m p :
  JS.startsWith (dir ++ ["/"]) p = false ->
  writeUnder dir nodes m !! p = m !! p.
Proof.
  intros H. destruct (writeUnder_lookup dir nodes m p); congruence.
Qed.

(** Two prefixes of a string: the shorter is a prefix of the longer. *)
Lemma startsWith_both x y p :
  JS.startsWith x p = true -> JS.startsWith y p = true ->
  length x <= length y -> JS.startsWith x y = true.
Proof.
  intros [k ->]%startsWith_spec [k' H]%startsWith_spec Hl.
  apply startsWith_spec. exists (take (length y - length x) k).
  apply (f_equal (take (length y))) in H.
  rewrite take_app_length, take_app_ge in H by assumption. now symmetry.
Qed.

Lemma lookupNode_file m p c :
  lookupNode m p = Some (File c) <-> p <> root /\ m !! p = Some (File c).
Proof.
  unfold lookupNode. destruct (bool_decide_reflect (p = root)).
  - split; [discriminate | tauto].
  - tauto.
Qed.

Lemma writeFile_ret p data w w' :
  writeFile p data w = (w', Ret tt) ->
  fs w' = <[p := File data]> (fs w) /\ ops w' = ops w.
Proof.
  unfold writeFile. mrun.
  destruct (lookupNode (fs w) p) as [[c|]|]; mrun; try discriminate;
    destruct (lookupNode (fs w) (parentDir p)) as [[c'|]|]; mrun;
    try discriminate; intros [= <-]; auto.
Qed.

Lemma copyFile_ret src dst w w' :
  copyFile src dst w = (w', Ret tt) ->
  exists c, lookupNode (fs w) src = Some (File c) /\
            fs w' = <[dst := File c]> (fs w).
Proof.
  unfold copyFile. rewrite bind_run. mrun.
  destruct (lookupNode (fs w) src) as [[c|]|] eqn:E; mrun; try discriminate.
  intros [H _]%writeFile_ret. eauto.
Qed.

(** The loop that copies the data files: each file is a copy of its
    template, and nothing else changes. *)
Lemma copyDataFiles_ret env dataDir files w w' :
  let src f := Path.join [dirname env; str "../templates"; f] in
  let dst f := Path.join [dataDir; f] in
  (forall f f', f ∈ files -> f' ∈ files -> src f <> dst f') ->
  (forall f f', f ∈ files -> f' ∈ files -> dst f = dst f' -> f = f') ->
  copyDataFiles env dataDir files w = (w', Ret tt) ->
  (forall p, (forall f, f ∈ files -> p <> dst f) -> fs w' !! p = fs w !! p) /\
  (forall f, f ∈ files ->
     exists c, lookupNode (fs w) (src f) = Some (File c) /\
               fs w' !! dst f = Some (File c)).
Proof.
  intros src dst. revert w.
  induction files as [|f0 files IH]; intros w Hsd Hinj.
  - intros [= <-]. split; [reflexivity|]. intros f []%elem_of_nil.
  - simpl. intros ([] & w1 & H0 & Hrest)%bind_ret.
    apply copyFile_ret in H0 as (c0 & Hc0 & Hw1).
    destruct (IH w1) as [Hframe Hcopy]; auto.
    { intros f f' Hf Hf'. apply Hsd; now right. }
    { intros f f' Hf Hf'. apply Hinj; now right. }
    split.
    + intros p Hp. rewrite Hframe by (intros f Hf; apply Hp; now right).
      rewrite Hw1. apply lookup_insert_ne. intros E.
      now apply (Hp f0); [left|].
    + assert (forall f, f ∈ f0 :: files ->
                lookupNode (fs w1) (src f) = lookupNode (fs w) (src f)) as Hsame.
      { intros f Hf. unfold lookupNode.
        destruct (bool_decide (src f = root)); [reflexivity|].
        rewrite Hw1. apply lookup_insert_ne. intros E.
        apply (Hsd f f0); [assumption | left | now symmetry]. }
      intros f Hf. destruct (decide (f ∈ files)) as [Hin|Hnotin].
      * destruct (Hcopy f Hin) as (c & Hc & Hfinal).
        exists c. split; [|exact Hfinal]. now rewrite <- Hsame.
      * apply elem_of_cons in Hf as [->|Hf]; [|contradiction].
        exists c0. split; [exact Hc0|].
        rewrite Hframe, Hw1; [apply lookup_insert_eq|].
        intros f Hf E. apply Hnotin.
        rewrite (Hinj f0 f); auto; [left | now right].
Qed.

(** Step 1, in full. *)
Lemma cloneRepo_run env a w :
  cloneRepo env a w =
  match mkdirChain (dirChain [] a) (fs w) with
  | (m', Some e) =>
      ({| fs := m';
          console := console w ++
            [SpinnerStart (str "Cloning repository...");
             SpinnerFail (str "Failed to clone repository.");
             ConsoleError e];
          ops := ops w ++ [OpEnsureDir a] |}, Exit 1)
  | (m', None) =>
      if succeeded (gitClone env) then
        ({| fs := writeUnder a (written (gitClone env)) m';
            console := console w ++
              [SpinnerStart (str "Cloning repository...");
               SpinnerSucceed (str "Cloning completed.")];
            ops := ops w ++ [OpEnsureDir a; OpClone repo a branch] |}, Ret tt)
      else
        ({| fs := writeUnder a (written (gitClone env)) m';
            console := console w ++
              [SpinnerStart (str "Cloning repository...");
               SpinnerFail (str "Failed to clone repository.");
               ConsoleError
                 (ProcessFailed (str "git clone") (failure (gitClone env)))];
            ops := ops w ++ [OpEnsureDir a; OpClone repo a branch] |}, Exit 1)
  end.
Proof.
  unfold cloneRepo, ensureDir, mkdirs, runProcess. mrun.
  destruct (mkdirChain _ _) as [m' [e|]]; mrun.
  - now rewrite <- !app_assoc.
  - destruct (succeeded _); mrun; now rewrite <- !app_assoc.
Qed.

Lemma provisionData_ret env dataDir w w' :
  provisionData env dataDir w = (w', Ret tt) ->
  exists m1 w1 w2,
    mkdirChain (dirChain [] dataDir) (fs w) = (m1, None) /\
    fs w1 = m1 /\
    copyDataFiles env dataDir dataFiles w1 = (w2, Ret tt) /\
    fs w' = fs w2.
Proof.
  unfold provisionData, ensureDir, mkdirs. mrun.
  destruct (mkdirChain _ _) as [m1 [e|]]; mrun; [discriminate|].
  match goal with
  | |- context [copyDataFiles env dataDir dataFiles ?x] =>
      set (w1 := x); destruct (copyDataFiles env dataDir dataFiles w1)
        as [w2 [[]|e|c]] eqn:E
  end; try discriminate.
  intros [= <-]. exists m1, w1, w2. repeat split; auto.
Qed.

Lemma mkdirs_ret p w w' :
  mkdirs p w = (w', Ret tt) ->
  mkdirChain (dirChain [] p) (fs w) = (fs w', None) /\ ops w' = ops w.
Proof.
  unfold mkdirs. mrun.
  destruct (mkdirChain _ _) as [m1 [e|]]; mrun; [discriminate|].
  now intros [= <-].
Qed.

Lemma generateConfig_ret env appDir dataDir w w' :
  generateConfig env appDir dataDir w = (w', Ret tt) ->
  exists template mc,
    (mc = fs w \/
     mkdirChain (dirChain [] (parentDir (configPath appDir))) (fs w)
     = (mc, None)) /\
    fs w' = <[configPath appDir := File (result dataDir template)]> mc.
Proof.
  unfold generateConfig, readFile, outputFile. mrun.
  destruct (lookupNode (fs w) _) as [[template|]|]; mrun; try discriminate.
  destruct (pathExists (fs w) _); mrun.
  - match goal with
    | |- context [writeFile ?p ?d ?x] =>
        destruct (writeFile p d x) as [w2 [[]|e|c]] eqn:E
    end; try discriminate.
    apply writeFile_ret in E as [E _]. intros [= <-].
    exists template, (fs w). split; [now left | exact E].
  - match goal with
    | |- context [mkdirs ?p ?x] =>
        destruct (mkdirs p x) as [w1 [[]|e|c]] eqn:E1
    end; try discriminate.
    apply mkdirs_ret in E1 as [E1 _]. simpl in E1.
    match goal with
    | |- context [writeFile ?p ?d ?x] =>
        destruct (writeFile p d x) as [w2 [[]|e|c]] eqn:E
    end; try discriminate.
    apply writeFile_ret in E as [E _]. intros [= <-].
    exists template, (fs w1). split; [now right | exact E].
Qed.

Lemma installDependencies_ret env appDir w w' :
  installDependencies env appDir w = (w', Ret tt) ->
  fs w' = writeUnder appDir (written (npmInstall env)) (fs w).
Proof.
  unfold installDependencies, execSync, runProcess. mrun.
  destruct (succeeded _); mrun; [|discriminate]. now intros [= <-].
Qed.

End FsSteps.

(** ** The run on the project tree *)

Section Run.

Context (env : Env) (Habs : Path.isAbsolute (cwd env) = true).

Let T := targetDirOf env (projectNameOf env).
Let P := dirPrefix T.
Let A := Path.join [T; str "app"].
Let D := Path.join [T; str "data"].

Implicit Types (m : gmap jsstring node) (p : jsstring) (w : World).

Lemma run_A : A = P ++ str "app".
Proof. apply (layout env (projectNameOf env) Habs). Qed.

Lemma run_D : D = P ++ str "data".
Proof. apply (layout env (projectNameOf env) Habs). Qed.

Lemma run_file f : plain f = true -> Path.join [D; f] = P ++ str "data/" ++ f.
Proof. apply (layout env (projectNameOf env) Habs). Qed.

Lemma run_config :
  configPath A = P ++ str "app/src/main/resources/config.properties".
Proof. apply (layout env (projectNameOf env) Habs). Qed.

Lemma run_T : normalAbs T.
Proof. apply (layout env (projectNameOf env) Habs). Qed.

Lemma within_T_P x : within T (P ++ x) = true.
Proof. apply within_dirPrefix. Qed.

Lemma startsWith_P_within p : JS.startsWith P p = true -> within T p = true.
Proof. unfold P, within. intros ->. apply orb_true_r. Qed.

Lemma dataSide_within p : JS.startsWith D p = true -> within T p = true.
Proof.
  intros H. apply startsWith_P_within.
  eapply startsWith_trans; [|exact H]. rewrite run_D. apply startsWith_app.
Qed.

Lemma grows_refl m p : grows m m p.
Proof. now left. Qed.

Lemma grows_trans m m' m'' p :
  grows m m' p -> grows m' m'' p -> grows m m'' p.
Proof.
  unfold grows. intros [E|[E1 E2]] [E'|[E1' E2']].
  - left. congruence.
  - right. split; congruence.
  - right. split; congruence.
  - congruence.
Qed.

Lemma grows_file m m' p c :
  grows m m' p -> m' !! p = Some (File c) -> m !! p = Some (File c).
Proof. intros [E|[_ E]]; congruence. Qed.


Lemma mkdirChain_grows chain m m' r p :
  mkdirChain chain m = (m', r) -> grows m m' p.
Proof.
  intros H. destruct (mkdirChain_lookup _ _ _ _ p H) as [E|(E1 & E2 & _)];
    [now left | now right].
Qed.

(** What a process run in the app directory writes lies neither in the
    data directory nor outside the target directory. *)
Lemma writeUnder_A_data nodes m p :
  JS.startsWith D p = true -> writeUnder A nodes m !! p = m !! p.
Proof.
  intros H. apply writeUnder_other.
  destruct (JS.startsWith (A ++ ["/"]) p) eqn:E; [|reflexivity].
  assert (length D <= length (A ++ ["/"])) as Hl
    by (rewrite run_D, run_A, !length_app; simpl; lia).
  pose proof (startsWith_both D (A ++ ["/"]) p H E Hl) as H'.
  rewrite run_D, run_A, <- app_assoc, startsWith_cancel in H'.
  discriminate H'.
Qed.

Lemma writeUnder_A_outside nodes m p :
  within T p = false -> writeUnder A nodes m !! p = m !! p.
Proof.
  intros H. apply writeUnder_other.
  destruct (JS.startsWith (A ++ ["/"]) p) eqn:E; [|reflexivity].
  rewrite <- H. symmetry. apply startsWith_P_within.
  eapply startsWith_trans; [|exact E].
  rewrite run_A, <- app_assoc. apply startsWith_app.
Qed.

(** The directories on the way to a path in the app directory are not in
    the data directory. *)
Lemma dirChain_A_data x p :
  JS.startsWith (str "data") (str "app" ++ x) = false ->
  JS.startsWith D p = true -> p ∉ dirChain [] (P ++ str "app" ++ x).
Proof.
  intros Hx H Hin. apply dirChain_prefix in Hin. rewrite app_nil_l in Hin.
  pose proof (startsWith_trans _ _ _ H Hin) as H'.
  rewrite run_D, startsWith_cancel in H'. congruence.
Qed.

(** Step 1, whatever its outcome, leaves the data directory and what is
    outside the target directory alone. *)
Lemma cloneRepo_data w w2 r p :
  cloneRepo env A w = (w2, r) -> JS.startsWith D p = true ->
  fs w2 !! p = fs w !! p.
Proof.
  rewrite cloneRepo_run. intros H Hp.
  destruct (mkdirChain _ _) as [m' o] eqn:E.
  assert (m' !! p = fs w !! p) as Hm.
  { eapply mkdirChain_other; [exact E|].
    rewrite run_A, <- (app_nil_r (str "app")).
    now apply dirChain_A_data. }
  destruct o as [e|]; [|destruct (succeeded _)]; injection H as <- _;
    simpl; now rewrite ?writeUnder_A_data.
Qed.

Lemma cloneRepo_outside w w2 r p :
  cloneRepo env A w = (w2, r) -> within T p = false ->
  grows (fs w) (fs w2) p.
Proof.
  rewrite cloneRepo_run. intros H Hp.
  destruct (mkdirChain _ _) as [m' o] eqn:E.
  pose proof (mkdirChain_grows _ _ _ _ p E) as Hg.
  destruct o as [e|]; [|destruct (succeeded _)]; injection H as <- _;
    simpl; unfold grows; now rewrite ?writeUnder_A_outside.
Qed.

(** After the prompts nothing is at or below the target directory, and
    the rest is as it was. *)
Lemma collectInput_clears w w1 name :
  fs_closed (fs w) = true ->
  collectInput env w = (w1, Ret name) ->
  name = projectNameOf env /\
  (forall p, within T p = true -> fs w1 !! p = None) /\
  (forall p, within T p = false -> fs w1 !! p = fs w !! p) /\
  (ops w1 = ops w \/ ops w1 = ops w ++ [OpRemove T]).
Proof.
  intros Hc. pose proof (collectInput_run env w) as E. simpl in E.
  fold T in E. rewrite E. clear E.
  destruct (pathExists (fs w) T) eqn:Hex;
    [destruct (promptConfirm _ _); [|discriminate]|]; intros [= <- <-];
    simpl.
  - split; [reflexivity|]. split; [|split; [|now right]];
      intros p Hp; now rewrite remove_lookup, Hp.
  - split; [reflexivity|]. split; [|split; [auto | now left]].
    intros p Hp. unfold pathExists in Hex.
    apply bool_decide_eq_false in Hex. unfold lookupNode in Hex.
    destruct (normalAbs_cases T run_T) as [HT|(HT0 & HTe & HTp)].
    { rewrite bool_decide_eq_true_2 in Hex by assumption.
      destruct Hex. eauto. }
    destruct (bool_decide (T = root)); [destruct Hex; eauto|].
    destruct (fs w !! p) as [n|] eqn:En; [|reflexivity].
    destruct Hex. unfold within in Hp.
    apply orb_true_iff in Hp as [->%bool_decide_eq_true|Hp]; [eauto|].
    rewrite HTp in Hp. apply startsWith_spec in Hp as [x ->].
    rewrite <- app_assoc in En. simpl in En.
    eapply fs_closed_spec; [exact Hc | eauto |].
    apply (dirChain_elem [] T x); assumption.
Qed.

Lemma startsWith_antisym a b :
  JS.startsWith a b = true -> JS.startsWith b a = true -> a = b.
Proof.
  intros [k ->]%startsWith_spec [k' H]%startsWith_spec.
  rewrite <- app_assoc in H. rewrite <- (app_nil_r a) in H at 1.
  apply app_inv_head in H. symmetry in H.
  apply app_eq_nil in H as [-> _]. now rewrite app_nil_r.
Qed.

Lemma dataFiles_plain f : f ∈ dataFiles -> plain f = true.
Proof.
  intros Hf%list_elem_of_In. revert f Hf. apply forallb_forall. reflexivity.
Qed.

Lemma run_D_chain : D ∈ dirChain [] D.
Proof.
  apply (dirChain_self [] D); rewrite app_nil_l, run_D.
  - intros E. apply (f_equal (@length _)) in E.
    rewrite length_app in E. simpl in E. lia.
  - unfold Path.endsWithSeparator. now rewrite last_app.
Qed.

Lemma run_file_within f : f ∈ dataFiles -> within T (Path.join [D; f]) = true.
Proof.
  intros Hf. rewrite run_file by now apply dataFiles_plain.
  apply within_T_P.
Qed.

Lemma run_file_not_D f : f ∈ dataFiles -> Path.join [D; f] <> D.
Proof.
  intros Hf. rewrite run_file by now apply dataFiles_plain.
  rewrite run_D. intros E. apply (f_equal (@length _)) in E.
  rewrite !length_app in E. simpl in E. lia.
Qed.

Hypothesis Hout :
  forall f, f ∈ dataFiles -> within T (templatePath env f) = false.

(** Step 2, when it succeeds: the data directory is there, each data
    file is a copy of its template, and nothing else changes in the data
    directory or outside the target directory. *)
Lemma provisionData_effect w w3 :
  provisionData env D w = (w3, Ret tt) ->
  fs w3 !! D = Some Dir /\
  (forall f, f ∈ dataFiles ->
     exists c, fs w !! templatePath env f = Some (File c) /\
               fs w3 !! Path.join [D; f] = Some (File c)) /\
  (forall p, JS.startsWith D p = true -> p <> D ->
     (forall f, f ∈ dataFiles -> p <> Path.join [D; f]) ->
     fs w3 !! p = fs w !! p) /\
  (forall p, within T p = false -> grows (fs w) (fs w3) p).
Proof.
  intros (m1 & w1 & w2 & Hmk & Hw1 & Hcopy & ->)%provisionData_ret.
  apply copyDataFiles_ret in Hcopy as [Hframe Hfiles].
  2:{ intros f f' Hf Hf' E. pose proof (run_file_within f' Hf') as Hin.
      rewrite <- E in Hin. pose proof (Hout f Hf) as Ho.
      unfold templatePath in Ho. congruence. }
  2:{ intros f f' Hf Hf'.
      rewrite !run_file by now apply dataFiles_plain.
      now intros E%app_inv_head%app_inv_head. }
  rewrite Hw1 in *. repeat split.
  - rewrite Hframe.
    + eapply mkdirChain_made; [exact Hmk | apply run_D_chain].
    + intros f Hf E. now apply (run_file_not_D f).
  - intros f Hf. destruct (Hfiles f Hf) as (c & Hc & Hfinal).
    exists c. split; [|exact Hfinal].
    apply lookupNode_file in Hc as [_ Hc].
    eapply mkdirChain_file; eassumption.
  - intros p Hp HpD Hpf. rewrite Hframe by assumption.
    eapply mkdirChain_other; [exact Hmk|]. intros Hin.
    apply dirChain_prefix in Hin. rewrite app_nil_l in Hin.
    apply HpD. now apply startsWith_antisym.
  - intros p Hp. unfold grows. rewrite Hframe.
    + eapply mkdirChain_grows, Hmk.
    + intros f Hf ->. rewrite run_file_within in Hp; [discriminate | done].
Qed.





End Run.

(** ** C6 and C3 *)

Lemma logStep_run s w :
  logStep s w =
  ({| fs := fs w; console := console w ++ [ConsoleLog [str "› "; s]];
      ops := ops w |}, Ret tt).
Proof. reflexivity. Qed.

Lemma bind_assoc_run {A B C} (m : M A) (k : A -> M B) (h : B -> M C) w :
  (m ≫= fun a => k a ≫= h) w = ((m ≫= k) ≫= h) w.
Proof.
  rewrite !bind_run. destruct (m w) as [w' [a|e|c]]; try reflexivity.
Qed.



(** C3. In a process whose working directory is absolute, started on a
    filesystem in which every existing path has its parent directories:
    if step 1 (creating the app directory and cloning into it) does not
    succeed, the run ends with exit code 1, the last things shown are the
    failed spinner and the error, nothing is at or below the data
    directory, and the only operations of the run on the filesystem are
    the removal of the old target directory, the creation of the app
    directory and the clone: no data file is copied and no config is
    written. *)
Theorem clone_failure_is_fatal env w w1 w2 r :
  Path.isAbsolute (cwd env) = true ->
  fs_closed (fs w) = true ->
  collectInput env w = (w1, Ret (projectNameOf env)) ->
  (logStep (str "Cloning the repository...");;
   cloneRepo env (appDirOf env)) w1 = (w2, r) ->
  r <> Ret tt ->
  main env w = (w2, Exit 1) /\
  exitCode (main env w).2 = 1%Z /\
  (exists shown e,
     console w2 = shown ++ [SpinnerFail (str "Failed to clone repository.");
                            ConsoleError e]) /\
  (forall p, within (dataDirOf env) p = true -> fs w2 !! p = None) /\
  (exists l, ops w2 = ops w ++ l /\
     Forall (fun o => o = OpRemove (targetDirOf env (projectNameOf env))
                      \/ o = OpEnsureDir (appDirOf env)
                      \/ o = OpClone repo (appDirOf env) branch) l).
Proof.
  intros Habs Hclosed Hin Hclone Hr.
  destruct (collectInput_clears env Habs w w1 _ Hclosed Hin)
    as (_ & Hclear & _ & Hops).
  rewrite bind_run, logStep_run in Hclone.
  pose proof (fun p => cloneRepo_data env Habs _ _ _ p Hclone) as Hdata.
  simpl in Hdata.
  assert (r = Exit 1 /\
          (exists e,
             console w2 = console w1 ++
               [ConsoleLog [str "› "; str "Cloning the repository..."];
                SpinnerStart (str "Cloning repository...");
                SpinnerFail (str "Failed to clone repository.");
                ConsoleError e]) /\
          (ops w2 = ops w1 ++ [OpEnsureDir (appDirOf env)] \/
           ops w2 = ops w1 ++ [OpEnsureDir (appDirOf env);
                               OpClone repo (appDirOf env) branch]))
    as (-> & [e Hshown] & Hops2).
  { rewrite cloneRepo_run in Hclone.
    destruct (mkdirChain _ _) as [m' [e|]];
      [|destruct (succeeded _)]; injection Hclone as Hw Hr'; subst w2 r.
    - split; [reflexivity|]. split; [|now left].
      exists e. simpl. now rewrite <- !app_assoc.
    - congruence.
    - split; [reflexivity|]. split; [|now right].
      eexists. simpl. now rewrite <- !app_assoc. }
  assert (main env w = (w2, Exit 1)) as Hmain.
  { unfold main. rewrite bind_run, Hin, bind_run. unfold provision.
    rewrite bind_assoc_run, bind_run.
    change (Path.join [targetDirOf env (projectNameOf env); str "app"])
      with (appDirOf env).
    rewrite bind_run, logStep_run. simpl. now rewrite Hclone. }
  split; [exact Hmain|]. split; [now rewrite Hmain|].
  split.
  { eexists _, e. rewrite Hshown.
    change [?a; ?b; ?c; ?d] with ([a; b] ++ [c; d]).
    now rewrite app_assoc. }
  split.
  - intros p Hp. apply within_startsWith in Hp.
    rewrite Hdata by exact Hp. apply Hclear.
    now apply (dataSide_within env Habs).
  - destruct Hops as [E|E], Hops2 as [E2|E2]; rewrite E2, E;
      rewrite <- ?app_assoc; eexists; (split; [reflexivity|]);
      repeat (apply List.Forall_cons;
              [first [now left | now (right; left) | now (right; right)]|]);
      apply List.Forall_nil.
Qed.

Lemma clone_failure_is_fatal_witness :
  let env := offlineEnv in
  let w := freshWorld in
  let w1 := (collectInput env w).1 in
  let run := (logStep (str "Cloning the repository...");;
              cloneRepo env (appDirOf env)) w1 in
  let w2 := run.1 in
  main env w = (w2, Exit 1) /\
  exitCode (main env w).2 = 1%Z /\
  (exists shown e,
     console w2 = shown ++ [SpinnerFail (str "Failed to clone repository.");
                            ConsoleError e]) /\
  (forall p, within (dataDirOf env) p = true -> fs w2 !! p = None) /\
  (exists l, ops w2 = ops w ++ l /\
     Forall (fun o => o = OpRemove (targetDirOf env (projectNameOf env))
                      \/ o = OpEnsureDir (appDirOf env)
                      \/ o = OpClone repo (appDirOf env) branch) l).
Proof.
  intros env w w1 run w2.
  apply (clone_failure_is_fatal env w w1 w2 run.2).
  - reflexivity.
  - vm_compute. reflexivity.
  - apply (run_ret (collectInput env w)). vm_compute. reflexivity.
  - exact (surjective_pairing run).
  - vm_compute. discriminate.
Defined.

(** * Further properties *)

(** ** [normalizePath] *)

Lemma normalizePath_app a b :
  normalizePath (a ++ b) = normalizePath a ++ normalizePath b.
Proof. apply map_app. Qed.

Lemma elem_of_normalizePath c p :
  c ∈ normalizePath p -> c ∈ p \/ c = "/".
Proof.
  unfold normalizePath, JS.replaceBackslashes.
  intros (d & -> & Hd)%list_elem_of_fmap.
  destruct (Ascii.eqb d _); auto.
Qed.

Lemma normalizePath_id p : (backslash ∉ p) -> normalizePath p = p.
Proof.
  unfold normalizePath, JS.replaceBackslashes, backslash.
  induction p as [|c p IH]; [reflexivity|].
  intros [Hc Hp]%not_elem_of_cons. simpl. rewrite IH by assumption.
  destruct (Ascii.eqb_spec c "092"); congruence.
Qed.

Lemma normalizePath_clean p : backslash ∉ normalizePath p.
Proof.
  unfold normalizePath, JS.replaceBackslashes, backslash.
  intros (d & E & _)%list_elem_of_fmap.
  destruct (Ascii.eqb_spec d "092"); [discriminate | congruence].
Qed.

(** X1. [normalizePath] keeps the length of a path, leaves no backslash
    in it, applied twice gives what it gives applied once, and works
    piece by piece on a path made of two pieces. *)
Theorem normalizePath_slashes p :
  length (normalizePath p) = length p /\
  (backslash ∉ normalizePath p) /\
  normalizePath (normalizePath p) = normalizePath p /\
  (forall q, normalizePath (p ++ q) = normalizePath p ++ normalizePath q).
Proof.
  split; [apply length_map|]. split; [apply normalizePath_clean|].
  split; [apply normalizePath_id, normalizePath_clean|].
  intros q. apply normalizePath_app.
Qed.

(** X2. [normalizePath] returns its argument unchanged exactly when the
    argument holds no backslash. *)
Theorem normalizePath_unchanged_iff p :
  normalizePath p = p <-> backslash ∉ p.
Proof.
  split.
  - intros <-. apply normalizePath_clean.
  - apply normalizePath_id.
Qed.

(** ** The target directory *)

Lemma normalizeString_normalAbs segs :
  forallb plain segs = true ->
  Path.normalizeString (absPath segs) false = joinS segs.
Proof.
  intros Hp.
  pose proof (normalizeString_absPath segs [] Hp eq_refl) as H.
  simpl in H. now rewrite !app_nil_r in H.
Qed.

(** A segment "." at the end of a path is dropped. *)
Lemma normalizeString_dot s b :
  Path.normalizeString (s ++ str "/.") b = Path.normalizeString s b.
Proof.
  rewrite !normalizeString_finish, fold_left_app.
  set (st := fold_left (Path.nstep b) s Path.nstate_init).
  change (fold_left (Path.nstep b) (str "/.") st)
    with (Path.nstep b (Path.at_separator b st) ".").
  unfold Path.nstep.
  change (Path.isPosixPathSeparator ".") with false. cbv iota.
  rewrite at_separator_dots. simpl.
  unfold Path.at_separator at 1. simpl.
  rewrite at_separator_seg. simpl. reflexivity.
Qed.

Lemma resolve_absolute cwd name :
  Path.isAbsolute name = true ->
  Path.resolve cwd [cwd; name] = "/" :: Path.normalizeString name false.
Proof.
  intros Habs. unfold Path.resolve. simpl.
  destruct name as [|c name]; [discriminate|].
  change (0 <? length (c :: name)) with true. cbv iota. rewrite Habs.
  simpl negb. cbv iota.
  change (c :: name ++ ["/"]) with ((c :: name) ++ ["/"]).
  now rewrite normalizeString_trailing.
Qed.

Lemma resolve_stable cwd segs :
  forallb plain segs = true ->
  Path.resolve cwd [cwd; absPath segs] = absPath segs.
Proof.
  intros Hp. rewrite resolve_absolute by reflexivity.
  now rewrite normalizeString_normalAbs.
Qed.

Lemma normalize_normalAbs segs :
  forallb plain segs = true -> Path.normalize (absPath segs) = absPath segs.
Proof.
  intros Hp. unfold Path.normalize.
  change (absPath segs) with ("/" :: joinS segs) at 1. cbv iota.
  change (Path.isAbsolute (absPath segs)) with true. simpl negb.
  rewrite normalizeString_normalAbs by assumption. cbv iota.
  destruct (joinS segs) as [|c j] eqn:E.
  - apply joinS_empty in E; [|assumption]. now subst segs.
  - rewrite <- E.
    destruct segs as [|g segs _] using rev_ind; [discriminate|].
    now rewrite endsWithSeparator_absPath.
Qed.

(** X3. In a process whose working directory is absolute, whatever the
    project name is, the target directory is a normalized absolute path:
    resolving it or normalizing it again gives the same path. *)
Theorem target_dir_normalized env name :
  Path.isAbsolute (cwd env) = true ->
  normalAbs (targetDirOf env name) /\
  Path.isAbsolute (targetDirOf env name) = true /\
  targetDirOf env (targetDirOf env name) = targetDirOf env name /\
  Path.normalize (targetDirOf env name) = targetDirOf env name.
Proof.
  intros Habs.
  pose proof (resolve_normalAbs (cwd env) name Habs) as HT.
  split; [exact HT|]. unfold targetDirOf in *.
  destruct HT as (segs & Hp & ->).
  split; [reflexivity|]. split.
  - now apply resolve_stable.
  - now apply normalize_normalAbs.
Qed.

Lemma target_dir_normalized_witness :
  normalAbs (targetDirOf sampleEnv (str "a//b/../c/")) /\
  Path.isAbsolute (targetDirOf sampleEnv (str "a//b/../c/")) = true /\
  targetDirOf sampleEnv (targetDirOf sampleEnv (str "a//b/../c/"))
    = targetDirOf sampleEnv (str "a//b/../c/") /\
  Path.normalize (targetDirOf sampleEnv (str "a//b/../c/"))
    = targetDirOf sampleEnv (str "a//b/../c/").
Proof.
  apply (target_dir_normalized sampleEnv (str "a//b/../c/")). reflexivity.
Defined.

(** X4. A project name that is an absolute path sets the target
    directory by itself: the working directory plays no part, and a name
    that is already a normalized absolute path is the target directory. *)
Theorem absolute_name_ignores_cwd env env' name :
  Path.isAbsolute name = true ->
  targetDirOf env name = targetDirOf env' name /\
  normalAbs (targetDirOf env name) /\
  (normalAbs name -> targetDirOf env name = name).
Proof.
  intros Habs. unfold targetDirOf. rewrite !resolve_absolute by assumption.
  split; [reflexivity|]. split.
  - destruct (normalizeString_plain name) as (segs & Hp & ->).
    now exists segs.
  - intros (segs & Hp & ->). now rewrite normalizeString_normalAbs.
Qed.

Lemma absolute_name_ignores_cwd_witness :
  targetDirOf sampleEnv (str "/srv/x/../park")
    = targetDirOf offlineEnv (str "/srv/x/../park") /\
  normalAbs (targetDirOf sampleEnv (str "/srv/x/../park")) /\
  (normalAbs (str "/srv/x/../park") ->
   targetDirOf sampleEnv (str "/srv/x/../park") = str "/srv/x/../park").
Proof.
  apply (absolute_name_ignores_cwd sampleEnv offlineEnv (str "/srv/x/../park")).
  reflexivity.
Defined.

Lemma resolve_dot cwd :
  normalAbs cwd -> Path.resolve cwd [cwd; str "."] = cwd.
Proof.
  intros (segs & Hp & ->). unfold Path.resolve. simpl rev.
  cbn [Path.resolveArgs].
  change (0 <? length (str ".")) with true. cbv iota.
  change (Path.isAbsolute (str ".")) with false. cbv iota.
  change (0 <? length (absPath segs)) with true. cbv iota.
  change (Path.isAbsolute (absPath segs)) with true. simpl negb. cbv iota.
  change (absPath segs ++ "/" :: str "." ++ ["/"])
    with (absPath segs ++ str "/." ++ ["/"]).
  rewrite app_assoc, normalizeString_trailing, normalizeString_dot.
  now rewrite normalizeString_normalAbs.
Qed.

(** X5. With "." typed as the project name in a normalized absolute
    working directory, the target directory is the working directory
    itself: when the overwrite is confirmed, the prompts end with the
    working directory and everything below it removed. *)
Theorem dot_name_erases_cwd env w :
  normalAbs (cwd env) ->
  projectNameInput env = str "." ->
  pathExists (fs w) (cwd env) = true ->
  promptConfirm false (overwriteInput env) = true ->
  targetDirOf env (projectNameOf env) = cwd env /\
  exists w1,
    collectInput env w = (w1, Ret (str ".")) /\
    ops w1 = ops w ++ [OpRemove (cwd env)] /\
    forall p, within (cwd env) p = true -> fs w1 !! p = None.
Proof.
  intros Hcwd Hname Hex Hyes.
  assert (projectNameOf env = str ".") as En
    by (unfold projectNameOf; now rewrite Hname).
  assert (targetDirOf env (projectNameOf env) = cwd env) as ET
    by (rewrite En; now apply resolve_dot).
  split; [exact ET|].
  pose proof (collectInput_run env w) as E. simpl in E.
  rewrite ET, Hex, Hyes, En in E. rewrite E.
  eexists. split; [reflexivity|]. split; [reflexivity|].
  intros p Hp. simpl. now rewrite remove_lookup, Hp.
Qed.

Lemma dot_name_erases_cwd_witness :
  let env :=
    {| cwd := cwd sampleEnv; dirname := dirname sampleEnv;
       platform := platform sampleEnv;
       projectNameInput := str ".";
       overwriteInput := Some true;
       gitClone := gitClone sampleEnv; npmInstall := npmInstall sampleEnv;
       catalina := catalina sampleEnv |} in
  targetDirOf env (projectNameOf env) = cwd env /\
  exists w1,
    collectInput env sampleWorld = (w1, Ret (str ".")) /\
    ops w1 = ops sampleWorld ++ [OpRemove (cwd env)] /\
    forall p, within (cwd env) p = true -> fs w1 !! p = None.
Proof.
  intros env.
  apply (dot_name_erases_cwd env sampleWorld).
  - exists [str "home"; str "u"]. split; reflexivity.
  - reflexivity.
  - vm_compute. reflexivity.
  - reflexivity.
Defined.

(** X6. In a process whose working directory is absolute, the paths of a
    run all lie in the target directory: the app directory is [app] and
    the data directory is [data] in it, each data file has its name in
    the data directory, and the config is
    [app/src/main/resources/config.properties]. *)
Theorem project_layout env name :
  Path.isAbsolute (cwd env) = true ->
  let T := targetDirOf env name in
  let appDir := Path.join [T; str "app"] in
  let dataDir := Path.join [T; str "data"] in
  appDir = dirPrefix T ++ str "app" /\
  dataDir = dirPrefix T ++ str "data" /\
  Forall (fun f => Path.join [dataDir; f] = dirPrefix T ++ str "data/" ++ f)
         dataFiles /\
  configPath appDir
    = dirPrefix T ++ str "app/src/main/resources/config.properties" /\
  dirPrefix T = (if bool_decide (T = root) then root else T ++ str "/").
Proof.
  intros Habs T appDir dataDir.
  destruct (layout env name Habs) as (HT & Ha & Hd & _ & Hf & Hc).
  split; [exact Ha|]. split; [exact Hd|]. split; [|split; [exact Hc|]].
  - apply Forall_forall. intros f Hf'. apply Hf.
    apply list_elem_of_In in Hf'. revert f Hf'. apply forallb_forall.
    reflexivity.
  - destruct (bool_decide_reflect (T = root)) as [E|E];
      [now rewrite E|].
    now destruct (normalAbs_cases _ HT) as [?|(_ & _ & ?)].
Qed.

Lemma project_layout_witness :
  let T := targetDirOf sampleEnv (str "shop") in
  let appDir := Path.join [T; str "app"] in
  let dataDir := Path.join [T; str "data"] in
  appDir = dirPrefix T ++ str "app" /\
  dataDir = dirPrefix T ++ str "data" /\
  Forall (fun f => Path.join [dataDir; f] = dirPrefix T ++ str "data/" ++ f)
         dataFiles /\
  configPath appDir
    = dirPrefix T ++ str "app/src/main/resources/config.properties" /\
  dirPrefix T = (if bool_decide (T = root) then root else T ++ str "/").
Proof.
  apply (project_layout sampleEnv (str "shop")). reflexivity.
Defined.

(** ** Rendering a template *)

(** The first occurrence of a pattern behind a text that does not hold the
    first character of the pattern. *)
Lemma indexOf_behind a c X b :
  (c ∉ a) -> JS.indexOf (c :: X) (a ++ (c :: X) ++ b) = Some (length a).
Proof.
  intros Ha. apply indexOf_first; [apply occursAt_here|].
  intros j Hj Ho. apply Ha.
  pose proof (occursAt_lookup _ _ _ 0 c Ho eq_refl) as Hl.
  rewrite Nat.add_0_r, lookup_app_l in Hl by assumption.
  eapply list_elem_of_lookup_2, Hl.
Qed.

Lemma replace_behind a c T b p :
  head T = Some c -> (c ∉ a) -> ("$" ∉ p) ->
  JS.replace (a ++ T ++ b) T p = a ++ p ++ b.
Proof.
  destruct T as [|c' X]; [discriminate|]. intros [= ->] Ha Hp.
  apply replace_at; [discriminate | assumption |].
  now apply indexOf_behind.
Qed.

Lemma literalPath_percent p : literalPath p = true -> "%" ∉ p.
Proof.
  unfold literalPath. rewrite !andb_true_iff, !negb_true_iff.
  intros [[_ H] _]. now apply bool_decide_eq_false in H.
Qed.

Lemma literalPaths_path dataDir f :
  literalPaths dataDir = true -> f ∈ dataFiles ->
  let p := normalizePath (Path.join [dataDir; f]) in
  ("%" ∉ p) /\ ("$" ∉ p).
Proof.
  intros H Hf p.
  assert (literalPath p = true) as Hp.
  { apply (literalPaths_elem dataDir); [assumption|].
    unfold dataFilePaths, substitutions, dataFiles in *. simpl.
    repeat (apply elem_of_cons in Hf as [->|Hf]);
      [now left | now (right; left) | now (right; right; left)
      | now (right; right; right; left) | now apply elem_of_nil in Hf]. }
  split; [now apply literalPath_percent | now apply literalPath_dollar].
Qed.

(** X7. For data-file paths that are absolute and hold neither "%" nor
    "$", a template that holds the four tokens in the order of the script,
    with no "%" before or between them, is rendered to the same text with
    the path of each data file in the place of its token. *)
Theorem render_wellformed_template dataDir t0 t1 t2 t3 t4 :
  literalPaths dataDir = true ->
  ("%" ∉ t0 ++ t1 ++ t2 ++ t3) ->
  result dataDir
    (t0 ++ userToken ++ t1 ++ bookingToken ++ t2 ++ transactionToken
        ++ t3 ++ slotsToken ++ t4)
  = t0 ++ normalizePath (Path.join [dataDir; str "users.json"])
       ++ t1 ++ normalizePath (Path.join [dataDir; str "bookings.json"])
       ++ t2 ++ normalizePath (Path.join [dataDir; str "transactions.json"])
       ++ t3 ++ normalizePath (Path.join [dataDir; str "parkingSlots.json"])
       ++ t4.
Proof.
  intros Hlit Hno.
  rewrite !elem_of_app in Hno.
  destruct (literalPaths_path dataDir (str "users.json") Hlit) as [Hu Hu'];
    [now left|].
  destruct (literalPaths_path dataDir (str "bookings.json") Hlit)
    as [Hb Hb']; [now (right; left)|].
  destruct (literalPaths_path dataDir (str "transactions.json") Hlit)
    as [Ht Ht']; [now (right; right; left)|].
  destruct (literalPaths_path dataDir (str "parkingSlots.json") Hlit)
    as [Hs Hs']; [now (right; right; right; left)|].
  simpl in Hu, Hu', Hb, Hb', Ht, Ht', Hs, Hs'.
  set (pu := normalizePath (Path.join [dataDir; str "users.json"])) in *.
  set (pb := normalizePath (Path.join [dataDir; str "bookings.json"])) in *.
  set (pt := normalizePath (Path.join [dataDir; str "transactions.json"]))
    in *.
  set (ps := normalizePath (Path.join [dataDir; str "parkingSlots.json"]))
    in *.
  unfold result. fold pu pb pt ps.
  rewrite (replace_behind t0 "%" userToken _ pu);
    [|reflexivity | tauto | assumption].
  replace (t0 ++ pu ++ t1 ++ bookingToken ++ t2 ++ transactionToken
              ++ t3 ++ slotsToken ++ t4)
    with ((t0 ++ pu ++ t1) ++ bookingToken ++ t2 ++ transactionToken
              ++ t3 ++ slotsToken ++ t4)
    by now rewrite <- !app_assoc.
  rewrite (replace_behind _ "%" bookingToken _ pb);
    [|reflexivity | rewrite !elem_of_app; tauto | assumption].
  replace ((t0 ++ pu ++ t1) ++ pb ++ t2 ++ transactionToken
              ++ t3 ++ slotsToken ++ t4)
    with ((t0 ++ pu ++ t1 ++ pb ++ t2) ++ transactionToken
              ++ t3 ++ slotsToken ++ t4)
    by now rewrite <- !app_assoc.
  rewrite (replace_behind _ "%" transactionToken _ pt);
    [|reflexivity | rewrite !elem_of_app; tauto | assumption].
  replace ((t0 ++ pu ++ t1 ++ pb ++ t2) ++ pt ++ t3 ++ slotsToken ++ t4)
    with ((t0 ++ pu ++ t1 ++ pb ++ t2 ++ pt ++ t3) ++ slotsToken ++ t4)
    by now rewrite <- !app_assoc.
  rewrite (replace_behind _ "%" slotsToken _ ps);
    [|reflexivity | rewrite !elem_of_app; tauto | assumption].
  now rewrite <- !app_assoc.
Qed.

Lemma render_wellformed_template_witness :
  let dataDir := str "/home/u/park-me-app/data" in
  let t0 := str "user.file=" in
  let t1 := LF :: str "booking.file=" in
  let t2 := LF :: str "transaction.file=" in
  let t3 := LF :: str "slots.file=" in
  let t4 := LF :: str "discount=10%" in
  result dataDir
    (t0 ++ userToken ++ t1 ++ bookingToken ++ t2 ++ transactionToken
        ++ t3 ++ slotsToken ++ t4)
  = t0 ++ normalizePath (Path.join [dataDir; str "users.json"])
       ++ t1 ++ normalizePath (Path.join [dataDir; str "bookings.json"])
       ++ t2 ++ normalizePath (Path.join [dataDir; str "transactions.json"])
       ++ t3 ++ normalizePath (Path.join [dataDir; str "parkingSlots.json"])
       ++ t4.
Proof.
  intros dataDir t0 t1 t2 t3 t4.
  apply (render_wellformed_template dataDir t0 t1 t2 t3 t4).
  - vm_compute. reflexivity.
  - apply (bool_decide_eq_false_1 _). vm_compute. reflexivity.
Defined.

(** X8. For a template in which every token occurs exactly once and no
    two of them overlap, and data-file paths that are absolute and hold
    neither "%" nor "$", rendering the rendered config again changes
    nothing. *)
Theorem render_idempotent dataDir template :
  literalPaths dataDir = true ->
  tokensOnce template = true ->
  tokensApart template = true ->
  result dataDir (result dataDir template) = result dataDir template.
Proof.
  intros Hp Honce Hapart.
  pose proof (renderWith_once (substitutions dataDir) template
                (substitutions_literal _ Hp)
                (tokensApart_spec dataDir _ Hapart)) as H.
  assert (forall tp, tp ∈ substitutions dataDir -> once tp.1 template) as Ho.
  { intros tp [HT _]%elem_of_substitutions. now apply tokensOnce_spec. }
  specialize (H Ho). rewrite <- result_renderWith in H.
  assert (forall T, T ∈ tokens ->
            JS.indexOf T (result dataDir template) = None) as Hnone.
  { intros T HT. rewrite <- (substitutions_fst dataDir) in HT.
    apply list_elem_of_In, in_map_iff in HT as (tp & <- & Htp).
    apply list_elem_of_In in Htp. destruct (H tp Htp) as [Hno _].
    destruct (JS.indexOf _ _) as [i|] eqn:E; [|reflexivity].
    destruct (Hno i). now apply indexOf_Some. }
  set (r := result dataDir template) in *.
  unfold result at 1.
  rewrite (replace_absent r userToken) by (apply Hnone; now left).
  rewrite (replace_absent r bookingToken) by (apply Hnone; now (right; left)).
  rewrite (replace_absent r transactionToken)
    by (apply Hnone; now (right; right; left)).
  apply replace_absent. apply Hnone. now (right; right; right; left).
Qed.

Lemma render_idempotent_witness :
  let dataDir := str "/home/u/park-me-app/data" in
  let template :=
    str "slots=%%slots.file.path%%;user=%%user.file.path%%;booking=%%booking.file.path%%;transaction=%%transaction.file.path%%;rate=5%" in
  result dataDir (result dataDir template) = result dataDir template.
Proof.
  intros dataDir template.
  apply (render_idempotent dataDir template); vm_compute; reflexivity.
Defined.

(** ** The characters of the paths *)

Section Characters.

Implicit Types (c : ascii) (s : jsstring).

(** A character of what [normalizeString] has kept was read, or is a
    separator. *)
Lemma at_separator_chars st c :
  c ∈ Path.res (Path.at_separator false st) ->
  c ∈ Path.res st \/ c ∈ Path.seg st \/ c = "/".
Proof.
  destruct st as [r l g d k]. unfold Path.at_separator.
  cbn [Path.res Path.seg Path.dots Path.lastSegmentLength].
  repeat case_match; cbn [Path.res]; intros Hc; auto;
    try (now apply elem_of_nil in Hc);
    try (apply elem_of_take in Hc as (i & Hc & _);
         left; eapply list_elem_of_lookup_2, Hc);
    apply elem_of_app in Hc as [Hc|Hc]; auto;
    apply elem_of_cons in Hc as [->|Hc]; auto.
Qed.

Lemma nstep_chars st x c :
  let st' := Path.nstep false st x in
  c ∈ Path.res st' \/ c ∈ Path.seg st' ->
  c ∈ Path.res st \/ c ∈ Path.seg st \/ c = "/" \/ c = x.
Proof.
  unfold Path.nstep.
  destruct (Path.isPosixPathSeparator x).
  - rewrite at_separator_seg. intros [H|H]; [|now apply elem_of_nil in H].
    apply at_separator_chars in H. tauto.
  - destruct (_ && _); simpl; rewrite elem_of_app, list_elem_of_singleton;
      tauto.
Qed.

Lemma fold_chars s st c :
  let st' := fold_left (Path.nstep false) s st in
  c ∈ Path.res st' \/ c ∈ Path.seg st' ->
  c ∈ Path.res st \/ c ∈ Path.seg st \/ c = "/" \/ c ∈ s.
Proof.
  revert st. induction s as [|x s IH]; intros st; simpl.
  - tauto.
  - intros H. apply IH in H.
    rewrite elem_of_cons.
    destruct H as [H|[H|[H|H]]]; auto.
    + destruct (nstep_chars st x c (or_introl H)) as [?|[?|[?|?]]]; auto.
    + destruct (nstep_chars st x c (or_intror H)) as [?|[?|[?|?]]]; auto.
Qed.

Lemma normalizeString_chars s c :
  c ∈ Path.normalizeString s false -> c ∈ s \/ c = "/".
Proof.
  rewrite normalizeString_finish. intros H.
  apply at_separator_chars in H.
  assert (c ∈ Path.res (fold_left (Path.nstep false) s Path.nstate_init) \/
          c ∈ Path.seg (fold_left (Path.nstep false) s Path.nstate_init) \/
          c = "/") as H' by tauto.
  destruct H' as [H'|[H'|H']]; auto.
  - destruct (fold_chars s _ c (or_introl H')) as [E|[E|[E|E]]]; auto;
      now apply elem_of_nil in E.
  - destruct (fold_chars s _ c (or_intror H')) as [E|[E|[E|E]]]; auto;
      now apply elem_of_nil in E.
Qed.

(** A character of the target directory comes from the working directory
    or from the project name, or is a separator. *)
Lemma resolve_chars cwd name c :
  Path.isAbsolute cwd = true ->
  c ∈ Path.resolve cwd [cwd; name] -> c ∈ cwd \/ c ∈ name \/ c = "/".
Proof.
  intros Habs. destruct (isAbsolute_cons _ Habs) as [cwd' ->].
  unfold Path.resolve. simpl.
  destruct (0 <? length name); [destruct (Path.isAbsolute name)|]; simpl;
    intros [->|H]%elem_of_cons; auto;
    apply normalizeString_chars in H as [H|H]; auto;
    repeat (first [ apply elem_of_cons in H as [->|H]
                  | apply elem_of_app in H as [H|H]
                  | apply elem_of_nil in H as [] ]); auto;
    left; now right.
Qed.

Lemma dirPrefix_chars d c : c ∈ dirPrefix d -> c ∈ d \/ c = "/".
Proof.
  unfold dirPrefix. destruct (Path.endsWithSeparator d); [auto|].
  intros [H|H]%elem_of_app; [auto|].
  apply list_elem_of_singleton in H. auto.
Qed.

End Characters.

Section PathsOfTheConfig.

Context (env : Env) (name : jsstring).
Context (Habs : Path.isAbsolute (cwd env) = true).

Let T := targetDirOf env name.
Let D := Path.join [T; str "data"].

Lemma dataFile_path f :
  f ∈ dataFiles -> Path.join [D; f] = dirPrefix T ++ str "data/" ++ f.
Proof.
  intros Hf. destruct (layout env name Habs) as (_ & _ & _ & _ & H & _).
  apply H. apply list_elem_of_In in Hf. revert f Hf. apply forallb_forall.
  reflexivity.
Qed.

Lemma dataFile_chars f c :
  f ∈ dataFiles -> c ∈ Path.join [D; f] ->
  c ∈ cwd env \/ c ∈ name \/ c ∈ str "/data/" ++ f.
Proof.
  intros Hf. rewrite (dataFile_path f Hf).
  intros [H|H]%elem_of_app.
  - apply dirPrefix_chars in H as [H| ->].
    + apply resolve_chars in H as [?|[?| ->]]; auto.
      right. right. left.
    + right. right. left.
  - right. right. now right.
Qed.

Lemma dataFiles_chars f c :
  f ∈ dataFiles -> c ∈ str "/data/" ++ f ->
  c <> "%" /\ c <> "$" /\ c <> backslash.
Proof.
  intros Hf Hc.
  assert (forallb (fun f =>
            forallb (fun c => negb (Ascii.eqb c "%") && negb (Ascii.eqb c "$")
                              && negb (Ascii.eqb c backslash))
                    (str "/data/" ++ f)) dataFiles = true) as H
    by (vm_compute; reflexivity).
  rewrite forallb_forall in H.
  specialize (H f (proj1 (list_elem_of_In _ _) Hf)).
  rewrite forallb_forall in H.
  specialize (H c (proj1 (list_elem_of_In _ _) Hc)).
  rewrite !andb_true_iff, !negb_true_iff in H.
  destruct H as [[H1 H2] H3].
  repeat split; intros ->; discriminate.
Qed.

Lemma dataFile_absolute f :
  f ∈ dataFiles ->
  Path.isAbsolute (normalizePath (Path.join [D; f])) = true.
Proof.
  intros Hf. rewrite (dataFile_path f Hf).
  destruct (layout env name Habs) as ((segs & _ & E) & _). fold T in E.
  rewrite E. unfold dirPrefix.
  destruct (Path.endsWithSeparator (absPath segs)); reflexivity.
Qed.

Lemma dataFilePaths_map :
  dataFilePaths D = map (fun f => normalizePath (Path.join [D; f])) dataFiles.
Proof. reflexivity. Qed.

Lemma backslash_in_target f :
  f ∈ dataFiles -> (backslash ∈ Path.join [D; f]) <-> (backslash ∈ T).
Proof.
  intros Hf. rewrite (dataFile_path f Hf). split.
  - intros [H|H]%elem_of_app.
    + apply dirPrefix_chars in H as [H|H]; [exact H | discriminate].
    + destruct (dataFiles_chars f backslash Hf) as (_ & _ & []);
        [now right | reflexivity].
  - intros H. apply elem_of_app. left. unfold dirPrefix.
    destruct (Path.endsWithSeparator T); [exact H|].
    apply elem_of_app. now left.
Qed.

End PathsOfTheConfig.

(** X19. In a process whose working directory is absolute, the four
    paths the script writes into the config are the paths it has copied
    the data files to exactly when the target directory holds no
    backslash; and it holds none when neither the working directory nor
    the project name does. *)
Theorem config_paths_are_file_paths_iff env name :
  Path.isAbsolute (cwd env) = true ->
  let T := targetDirOf env name in
  let dataDir := Path.join [T; str "data"] in
  (dataFilePaths dataDir = map (fun f => Path.join [dataDir; f]) dataFiles
   <-> backslash ∉ T) /\
  ((backslash ∉ cwd env ++ name) -> backslash ∉ T).
Proof.
  intros Habs. cbv zeta. split.
  - rewrite (dataFilePaths_map env name). split.
    + intros E HT.
      assert (str "users.json" ∈ dataFiles) as Hf by left.
      apply (backslash_in_target env name Habs _ Hf) in HT.
      unfold dataFiles in E. simpl in E.
      injection E as E _. rewrite <- E in HT.
      now apply normalizePath_clean in HT.
    + intros HT. apply map_ext_in. intros f Hf%list_elem_of_In.
      apply normalizePath_id.
      now rewrite (backslash_in_target env name Habs f Hf).
  - intros Hno H. apply Hno.
    apply resolve_chars in H as [H|[H|H]]; [| |discriminate | exact Habs];
      apply elem_of_app; auto.
Qed.

Lemma config_paths_are_file_paths_iff_witness :
  let T := targetDirOf sampleEnv (str "win\shop") in
  let dataDir := Path.join [T; str "data"] in
  (dataFilePaths dataDir = map (fun f => Path.join [dataDir; f]) dataFiles
   <-> backslash ∉ T) /\
  ((backslash ∉ cwd sampleEnv ++ str "win\shop") -> backslash ∉ T).
Proof.
  apply (config_paths_are_file_paths_iff sampleEnv (str "win\shop")).
  reflexivity.
Defined.

(** X20. In a process whose working directory is absolute, when neither
    the working directory nor the project name holds "%" or "$", the four
    data-file paths the script substitutes are absolute and hold neither
    "%" nor "$". *)
Theorem clean_names_give_literal_paths env name :
  Path.isAbsolute (cwd env) = true ->
  ("%" ∉ cwd env ++ name) ->
  ("$" ∉ cwd env ++ name) ->
  literalPaths (Path.join [targetDirOf env name; str "data"]) = true.
Proof.
  intros Habs Hp Hd. unfold literalPaths.
  rewrite (dataFilePaths_map env name). apply forallb_forall.
  intros p (f & <- & Hf%list_elem_of_In)%in_map_iff.
  unfold literalPath.
  rewrite (dataFile_absolute env name Habs f Hf). simpl.
  assert (forall c, c <> "/" ->
            c ∈ normalizePath
                  (Path.join [Path.join [targetDirOf env name; str "data"]; f])
            -> c ∈ cwd env ++ name \/ c ∈ str "/data/" ++ f) as Hc.
  { intros c Hne [H|H]%elem_of_normalizePath; [|contradiction].
    apply (dataFile_chars env name Habs f c Hf) in H.
    rewrite elem_of_app. tauto. }
  apply andb_true_iff. split; apply negb_true_iff, bool_decide_eq_false;
    intros [H|H]%Hc; try discriminate; auto;
    now destruct (dataFiles_chars f _ Hf H) as (? & ? & ?).
Qed.

Lemma clean_names_give_literal_paths_witness :
  literalPaths (Path.join [targetDirOf sampleEnv (str "my shop"); str "data"])
  = true.
Proof.
  apply (clean_names_give_literal_paths sampleEnv (str "my shop")).
  - reflexivity.
  - apply (bool_decide_eq_false_1 _). vm_compute. reflexivity.
  - apply (bool_decide_eq_false_1 _). vm_compute. reflexivity.
Defined.

(** ** The directory above a path *)

Section Parent.

Implicit Types (segs gs : list jsstring) (g : jsstring).

(** At a separator a plain segment is appended to [res], and its length
    is kept. *)
Lemma at_separator_push_state st segs :
  forallb plain segs = true -> Path.res st = joinS segs ->
  plain (Path.seg st) = true -> Path.dots st = dotsOf (Path.seg st) ->
  Path.at_separator false st
  = {| Path.res := joinS (segs ++ [Path.seg st]);
       Path.lastSegmentLength := length (Path.seg st);
       Path.seg := []; Path.dots := 0; Path.code := "/" |}.
Proof.
  intros Hsegs Hres Hg Hd. apply plain_spec in Hg as (H0 & _ & H1 & H2).
  destruct (dotsOf_plain _ H0 H1 H2) as [Hd1 Hd2].
  unfold Path.at_separator. rewrite Hd.
  destruct (Path.seg st) as [|c g] eqn:Eg; [congruence|].
  destruct (Z.eqb_spec (dotsOf (c :: g)) 1); [congruence|].
  destruct (Z.eqb_spec (dotsOf (c :: g)) 2); [congruence|].
  simpl. rewrite Hres. f_equal. now apply joinS_push.
Qed.

Lemma joinS_last segs g :
  forallb plain (segs ++ [g]) = true ->
  (segs = [] /\ joinS (segs ++ [g]) = g) \/
  (joinS segs <> [] /\ joinS (segs ++ [g]) = joinS segs ++ "/" :: g).
Proof.
  intros Hp. rewrite forallb_app in Hp. apply andb_true_iff in Hp as [Hs _].
  destruct segs as [|g0 segs].
  { left. split; [reflexivity|]. unfold joinS. simpl. apply app_nil_r. }
  right. split.
  - intros E. apply joinS_empty in E; [discriminate | exact Hs].
  - rewrite joinS_snoc. now destruct (0 <? _).
Qed.

(** At the separator behind "..", the last segment of [res] is dropped. *)
Lemma at_separator_dotdot segs g k :
  forallb plain (segs ++ [g]) = true ->
  Path.res (Path.at_separator false
              {| Path.res := joinS (segs ++ [g]);
                 Path.lastSegmentLength := length g;
                 Path.seg := str ".."; Path.dots := 2; Path.code := k |})
  = joinS segs.
Proof.
  intros Hp.
  assert (plain g = true) as Hg.
  { rewrite forallb_app in Hp. apply andb_true_iff in Hp as [_ Hp].
    simpl in Hp. now rewrite andb_true_r in Hp. }
  apply plain_spec in Hg as (Hg0 & Hgs & _ & Hg2).
  set (R := joinS (segs ++ [g])).
  assert (exists X, R = X ++ g /\
            (X = [] /\ segs = [] \/ X = joinS segs ++ ["/"] /\ joinS segs <> []))
    as (X & HR & HX).
  { destruct (joinS_last segs g Hp) as [[-> E]|[Hne E]].
    - exists []. split; [exact E | now left].
    - exists (joinS segs ++ ["/"]). split; [|now right].
      unfold R. now rewrite E, <- app_assoc. }
  assert ((length R <? 2)
          || negb (length g =? 2)
          || negb (Ascii.eqb (nth (length R - 1) R zero) ".")
          || negb (Ascii.eqb (nth (length R - 2) R zero) ".") = true) as Hcond.
  { destruct (Nat.eqb_spec (length g) 2) as [E2|];
      [|now rewrite orb_true_r].
    destruct g as [|a [|b [|? ?]]]; try discriminate.
    rewrite HR, length_app. simpl length.
    replace (length X + 2 - 1) with (length X + 1) by lia.
    replace (length X + 2 - 2) with (length X + 0) by lia.
    rewrite !app_nth2_plus. simpl nth.
    destruct (Ascii.eqb_spec b "."); [|now rewrite !orb_true_r].
    destruct (Ascii.eqb_spec a "."); [|now rewrite !orb_true_r].
    subst. now destruct Hg2. }
  unfold Path.at_separator.
  cbn [Path.res Path.seg Path.dots Path.lastSegmentLength].
  change (str "..") with [".";"."]. cbv iota. simpl orb.
  change ((2 =? 1)%Z) with false. change ((2 =? 2)%Z) with true. cbv iota.
  fold R. rewrite Hcond.
  destruct (2 <? length R) eqn:El.
  - destruct HX as [[-> ->]|[-> Hne]].
    + simpl in HR. rewrite HR, lastIndexOf_notin by assumption. reflexivity.
    + rewrite HR, <- app_assoc. simpl app.
      rewrite lastIndexOf_app by assumption. simpl.
      now rewrite take_app_length.
  - apply Nat.ltb_ge in El.
    assert (R <> []) as HRne.
    { rewrite HR. destruct X, g; simpl; congruence. }
    destruct R as [|c R']; [congruence|]. simpl.
    destruct HX as [[_ ->]|[-> Hne]]; [reflexivity|].
    exfalso. apply (f_equal (@length _)) in HR.
    rewrite !length_app in HR. simpl in HR, El.
    destruct (joinS segs); [congruence|]. destruct g; [congruence|].
    simpl in HR. lia.
Qed.

(** [normalizeString] on a normalized absolute path, "..", and plain
    segments: the last segment of the path is dropped. *)
Lemma normalizeString_parent segs g gs :
  forallb plain (segs ++ [g]) = true -> forallb plain gs = true ->
  Path.normalizeString (absPath (segs ++ [g]) ++ str "/.." ++ slashed gs)
                       false
  = joinS (segs ++ gs).
Proof.
  intros Hp Hgs.
  assert (forallb plain segs = true /\ plain g = true) as [Hs Hg].
  { rewrite forallb_app in Hp. apply andb_true_iff in Hp as [Hs Hp].
    simpl in Hp. now rewrite andb_true_r in Hp. }
  pose proof Hg as (_ & Hns & _)%plain_spec.
  rewrite normalizeString_finish.
  replace (absPath (segs ++ [g])) with (slashed segs ++ "/" :: g).
  2:{ unfold absPath. rewrite <- slashed_joinS by now destruct segs.
      now rewrite slashed_snoc. }
  rewrite <- !app_assoc. rewrite !fold_left_app.
  set (stA := fold_left (Path.nstep false) (slashed segs) Path.nstate_init).
  assert (Path.res (Path.at_separator false stA) = joinS segs) as HA.
  { apply (fold_slashed segs Path.nstate_init []); auto. }
  change (fold_left (Path.nstep false) ("/" :: g) stA)
    with (fold_left (Path.nstep false) g (Path.at_separator false stA)).
  destruct (fold_segment false g (Path.at_separator false stA) Hns)
    as (Hr & Hsg & Hd).
  { now rewrite at_separator_seg, at_separator_dots. }
  rewrite at_separator_seg in Hsg, Hd. simpl in Hsg, Hd.
  set (st2 := fold_left (Path.nstep false) g (Path.at_separator false stA))
    in *.
  change (fold_left (Path.nstep false) (str "/..") st2)
    with (Path.nstep false
            (Path.nstep false (Path.at_separator false st2) ".") ".").
  rewrite (at_separator_push_state st2 segs Hs (eq_trans Hr HA))
    by (rewrite Hsg; assumption).
  rewrite Hsg.
  apply (fold_slashed gs _ segs Hgs Hs).
  apply (at_separator_dotdot segs g "." Hp).
Qed.

Lemma normalize_parent segs g gs f :
  forallb plain (segs ++ [g]) = true -> forallb plain (gs ++ [f]) = true ->
  Path.normalize (absPath (segs ++ [g]) ++ str "/.." ++ slashed (gs ++ [f]))
  = absPath (segs ++ gs ++ [f]).
Proof.
  intros Hp Hgs.
  assert (plain f = true) as Hf.
  { rewrite forallb_app in Hgs. apply andb_true_iff in Hgs as [_ Hgs].
    simpl in Hgs. now rewrite andb_true_r in Hgs. }
  pose proof (normalizeString_parent segs g (gs ++ [f]) Hp Hgs) as Hn.
  pose proof (endsWithSeparator_snoc_plain
                (absPath (segs ++ [g]) ++ str "/..") gs f Hf) as He.
  rewrite <- app_assoc in He.
  assert (joinS (segs ++ gs ++ [f]) <> []) as Hne.
  { rewrite app_assoc. apply joinS_nonempty.
    rewrite forallb_app in Hp. apply andb_true_iff in Hp as [Hs _].
    rewrite <- app_assoc, forallb_app, Hs. exact Hgs. }
  set (s := absPath (segs ++ [g]) ++ str "/.." ++ slashed (gs ++ [f])) in *.
  assert (exists s', s = "/" :: s') as [s' Es] by (now eexists).
  unfold Path.normalize. rewrite He, Es. simpl negb. cbv iota.
  rewrite <- Es, Hn.
  destruct (joinS (segs ++ gs ++ [f])) as [|c j] eqn:E; [congruence|].
  rewrite Es. unfold absPath. now rewrite E.
Qed.

End Parent.

(** X22. When the script lies in a directory that is a normalized
    absolute path other than the root, it reads its bundled files beside
    that directory: the template of each data file in [templates], and
    the template of the config in [assets], of the directory above. *)
Theorem bundled_assets_location env segs g :
  forallb plain (segs ++ [g]) = true ->
  dirname env = absPath (segs ++ [g]) ->
  Forall (fun f => templatePath env f = absPath (segs ++ [str "templates"; f]))
         dataFiles /\
  configTemplatePath env
    = absPath (segs ++ [str "assets"; str "config.properties.template"]).
Proof.
  intros Hp Hd.
  assert (forall f, plain f = true ->
            templatePath env f = absPath (segs ++ [str "templates"; f])) as Ht.
  { intros f Hf. unfold templatePath, Path.join. rewrite Hd.
    cbn [Path.joinArgs].
    change (0 <? length (absPath (segs ++ [g]))) with true. cbv iota.
    change (0 <? length (str "../templates")) with true. cbv iota.
    assert (f <> []) as Hne by (now apply plain_spec in Hf).
    destruct f as [|c f]; [congruence|].
    change (0 <? length (c :: f)) with true. cbv iota.
    replace ((absPath (segs ++ [g]) ++ "/" :: str "../templates")
             ++ "/" :: c :: f)
      with (absPath (segs ++ [g]) ++ str "/.."
            ++ slashed ([str "templates"] ++ [c :: f]))
      by (rewrite <- !app_assoc; simpl; now rewrite app_nil_r).
    apply (normalize_parent segs g [str "templates"] (c :: f) Hp).
    simpl. now rewrite Hf. }
  split.
  - apply Forall_forall. intros f Hf. apply Ht.
    apply list_elem_of_In in Hf. revert f Hf. apply forallb_forall.
    reflexivity.
  - unfold configTemplatePath, Path.join. rewrite Hd. cbn [Path.joinArgs].
    change (0 <? length (absPath (segs ++ [g]))) with true. cbv iota.
    change (0 <? length (str "../assets/config.properties.template"))
      with true. cbv iota.
    change (absPath (segs ++ [g])
            ++ "/" :: str "../assets/config.properties.template")
      with (absPath (segs ++ [g]) ++ str "/.."
            ++ slashed ([str "assets"]
                        ++ [str "config.properties.template"])).
    now apply (normalize_parent segs g [str "assets"]
                 (str "config.properties.template") Hp).
Qed.

Lemma bundled_assets_location_witness :
  Forall (fun f => templatePath sampleEnv f
                   = absPath ([str "opt"; str "parkme"]
                              ++ [str "templates"; f]))
         dataFiles /\
  configTemplatePath sampleEnv
    = absPath ([str "opt"; str "parkme"]
               ++ [str "assets"; str "config.properties.template"]).
Proof.
  apply (bundled_assets_location sampleEnv [str "opt"; str "parkme"]
           (str "bin")); reflexivity.
Defined.

(** ** How the steps end *)

Section NeverExits.

Lemma neverExits_bind {A B} (m : M A) (k : A -> M B) :
  neverExits m -> (forall a, neverExits (k a)) -> neverExits (m ≫= k).
Proof.
  intros Hm Hk w w' c. rewrite bind_run.
  destruct (m w) as [w1 [a|e|c']] eqn:E.
  - apply Hk.
  - discriminate.
  - now destruct (Hm _ _ _ E).
Qed.

Lemma neverExits_ret {A} (a : A) : neverExits (mret a).
Proof. intros w w' c. discriminate. Qed.

Lemma neverExits_throw {A} e : neverExits (@throw A e).
Proof. intros w w' c. discriminate. Qed.

Lemma neverExits_emit o : neverExits (emit o).
Proof. intros w w' c. discriminate. Qed.

Lemma neverExits_record o : neverExits (record o).
Proof. intros w w' c. discriminate. Qed.

Lemma neverExits_get_fs : neverExits get_fs.
Proof. intros w w' c. discriminate. Qed.

Lemma neverExits_put_fs m : neverExits (put_fs m).
Proof. intros w w' c. discriminate. Qed.

End NeverExits.

Create HintDb nexits.
#[local] Hint Resolve neverExits_ret neverExits_throw neverExits_emit
  neverExits_record neverExits_get_fs neverExits_put_fs : nexits.

Ltac nexits :=
  repeat first
    [ progress (intros)
    | apply neverExits_bind
    | solve [auto with nexits]
    | match goal with
      | |- neverExits (match ?x with _ => _ end) => destruct x
      | |- neverExits (let (_, _) := ?x in _) => destruct x
      end ].

Section StepsNeverExit.


Lemma neverExits_ensureDir p : neverExits (ensureDir p).
Proof. unfold ensureDir. nexits. Qed.


Lemma neverExits_copyFile src dst : neverExits (copyFile src dst).
Proof. unfold copyFile. nexits. Qed.



Lemma neverExits_runProcess c d r : neverExits (runProcess c d r).
Proof. unfold runProcess. nexits. Qed.


Lemma neverExits_copyDataFiles env d files :
  neverExits (copyDataFiles env d files).
Proof.
  induction files as [|f files IH]; simpl; nexits.
Qed.

End StepsNeverExit.

Section FatalSteps.

Lemma failsWith_handler body s :
  neverExits body ->
  failsWith s (try_catch body
                 (fun error =>
                    spinner_fail s;; console_error error;; process_exit 1)).
Proof.
  intros Hb w w' r. unfold try_catch.
  destruct (body w) as [w1 [[]|e|c]] eqn:E.
  - intros [= <- <-]. now left.
  - mrun. intros [= <- <-]. right. split; [reflexivity|].
    exists (console w1), e. simpl. now rewrite <- app_assoc.
  - now destruct (Hb _ _ _ E).
Qed.

Lemma failsWith_emit s o m : failsWith s m -> failsWith s (emit o;; m).
Proof. intros Hm w w' r. rewrite bind_run. simpl. apply Hm. Qed.



Lemma failsWith_cloneRepo env a :
  failsWith (str "Failed to clone repository.") (cloneRepo env a).
Proof.
  unfold cloneRepo, spinner_start. apply failsWith_emit, failsWith_handler.
  unfold spinner_succeed. nexits;
    auto using neverExits_ensureDir, neverExits_runProcess.
Qed.

Lemma failsWith_provisionData env d :
  failsWith (str "Failed to set up data folder or copy files.")
            (provisionData env d).
Proof.
  unfold provisionData, console_log, logStep, spinner_start.
  do 3 apply failsWith_emit. apply failsWith_handler.
  unfold spinner_succeed. nexits;
    auto using neverExits_ensureDir, neverExits_copyDataFiles.
Qed.





End FatalSteps.


Lemma mkdirChain_blocked chain m d c :
  d ∈ chain -> m !! d = Some (File c) ->
  exists m' e, mkdirChain chain m = (m', Some e).
Proof.
  revert m. induction chain as [|d0 chain IH]; intros m Hd Hm.
  - now apply elem_of_nil in Hd.
  - simpl. destruct (m !! d0) as [[c0|]|] eqn:E0; [eauto|..].
    + apply elem_of_cons in Hd as [->|Hd]; [congruence|]. now apply IH.
    + apply elem_of_cons in Hd as [->|Hd]; [congruence|].
      apply IH; [assumption|]. rewrite lookup_insert_ne; [assumption|].
      congruence.
Qed.

(** X10. [cloneRepo] on a path that runs through a regular file: creating
    the app directory fails, the run ends with exit code 1 behind the
    failed spinner and the error, git is never started, and nothing that
    was on the filesystem is lost. *)
Theorem clone_not_attempted_over_a_file env a w d c :
  d ∈ dirChain [] a ->
  fs w !! d = Some (File c) ->
  exists w' e,
    cloneRepo env a w = (w', Exit 1) /\
    ops w' = ops w ++ [OpEnsureDir a] /\
    console w' = console w ++
      [SpinnerStart (str "Cloning repository...");
       SpinnerFail (str "Failed to clone repository.");
       ConsoleError e] /\
    forall p n, fs w !! p = Some n -> fs w' !! p = Some n.
Proof.
  intros Hd Hf. rewrite cloneRepo_run.
  destruct (mkdirChain_blocked _ _ _ _ Hd Hf) as (m' & e & E). rewrite E.
  eexists _, e. split; [reflexivity|]. split; [reflexivity|].
  split; [reflexivity|]. simpl. intros p n Hp.
  eapply mkdirChain_keep; eassumption.
Qed.

Lemma clone_not_attempted_over_a_file_witness :
  let w :=
    {| fs := <[str "/home/u/shop" := File (str "notes")]> (fs freshWorld);
       console := []; ops := [] |} in
  exists w' e,
    cloneRepo sampleEnv (str "/home/u/shop/app") w = (w', Exit 1) /\
    ops w' = ops w ++ [OpEnsureDir (str "/home/u/shop/app")] /\
    console w' = console w ++
      [SpinnerStart (str "Cloning repository...");
       SpinnerFail (str "Failed to clone repository.");
       ConsoleError e] /\
    forall p n, fs w !! p = Some n -> fs w' !! p = Some n.
Proof.
  intros w.
  apply (clone_not_attempted_over_a_file sampleEnv (str "/home/u/shop/app") w
           (str "/home/u/shop") (str "notes")).
  - apply (bool_decide_eq_true_1 _). vm_compute. reflexivity.
  - apply lookup_insert_eq.
Defined.

(** X11. When the template of the config is missing, or is a directory,
    step 3 ends the run with exit code 1 behind the failed spinner and the
    error, and nothing is written: the filesystem and the log of
    operations are as they were. *)
Theorem missing_config_template_is_fatal env appDir dataDir w :
  (forall c, lookupNode (fs w) (configTemplatePath env) <> Some (File c)) ->
  exists w' e,
    generateConfig env appDir dataDir w = (w', Exit 1) /\
    fs w' = fs w /\ ops w' = ops w /\
    console w' = console w ++
      [ConsoleLog [[LF]];
       ConsoleLog [str "› "; str "Generating config.properties..."];
       SpinnerStart (str "Generating config.properties...");
       SpinnerFail (str "Failed to create config.properties.");
       ConsoleError e] /\
    (e = ENOENT (configTemplatePath env) \/
     e = EISDIR (configTemplatePath env)).
Proof.
  intros Hno. unfold generateConfig, readFile. fold (configTemplatePath env).
  mrun.
  destruct (lookupNode (fs w) (configTemplatePath env)) as [[c|]|] eqn:E;
    [now destruct (Hno c)|..]; mrun; eexists _, _;
    (split; [reflexivity|]); simpl;
    rewrite <- !app_assoc; repeat split; auto.
Qed.

Lemma missing_config_template_is_fatal_witness :
  let w := {| fs := ∅; console := []; ops := [] |} in
  exists w' e,
    generateConfig sampleEnv (appDirOf sampleEnv) (dataDirOf sampleEnv) w
    = (w', Exit 1) /\
    fs w' = fs w /\ ops w' = ops w /\
    console w' = console w ++
      [ConsoleLog [[LF]];
       ConsoleLog [str "› "; str "Generating config.properties..."];
       SpinnerStart (str "Generating config.properties...");
       SpinnerFail (str "Failed to create config.properties.");
       ConsoleError e] /\
    (e = ENOENT (configTemplatePath sampleEnv) \/
     e = EISDIR (configTemplatePath sampleEnv)).
Proof.
  intros w.
  apply (missing_config_template_is_fatal sampleEnv (appDirOf sampleEnv)
           (dataDirOf sampleEnv) w).
  intros c. vm_compute. discriminate.
Defined.

(** ** What the steps write and log *)

Section StepsInFull.

Implicit Types (m : gmap jsstring node) (p : jsstring) (w : World).

Lemma writeFile_written p data w w' :
  writeFile p data w = (w', Ret tt) ->
  w' = {| fs := <[p := File data]> (fs w); console := console w;
          ops := ops w |} /\
  lookupNode (fs w') (parentDir p) = Some Dir.
Proof.
  unfold writeFile. mrun.
  destruct (lookupNode (fs w) p) as [[c|]|] eqn:Ep; mrun; try discriminate;
    destruct (lookupNode (fs w) (parentDir p)) as [[c'|]|] eqn:Ed; mrun;
    try discriminate; intros [= <-]; (split; [reflexivity|]); simpl;
    unfold lookupNode in *;
    destruct (bool_decide (parentDir p = root)); try reflexivity;
    (rewrite lookup_insert_ne; [exact Ed|]); intros E; rewrite <- E in Ed;
    destruct (bool_decide (p = root)); congruence.
Qed.

Lemma mkdirs_keeps p w w' r :
  mkdirs p w = (w', r) -> console w' = console w /\ ops w' = ops w.
Proof.
  unfold mkdirs. mrun.
  destruct (mkdirChain _ _) as [m1 [e|]]; mrun; now intros [= <- _].
Qed.

Lemma copyFile_ops src dst w w' :
  copyFile src dst w = (w', Ret tt) ->
  ops w' = ops w ++ [OpCopyFile src dst].
Proof.
  unfold copyFile. rewrite bind_run. mrun.
  destruct (lookupNode (fs w) src) as [[c|]|]; mrun; try discriminate.
  now intros [-> _]%writeFile_written.
Qed.

Lemma copyDataFiles_ops env dataDir files w w' :
  copyDataFiles env dataDir files w = (w', Ret tt) ->
  ops w' = ops w ++
    map (fun f => OpCopyFile (templatePath env f) (Path.join [dataDir; f]))
        files.
Proof.
  revert w. induction files as [|f files IH]; intros w; simpl.
  - intros [= <-]. now rewrite app_nil_r.
  - intros ([] & w1 & H0 & Hrest)%bind_ret.
    apply copyFile_ops in H0. rewrite (IH _ Hrest), H0, <- app_assoc.
    reflexivity.
Qed.

Lemma provisionData_ops env dataDir w w' :
  provisionData env dataDir w = (w', Ret tt) ->
  ops w' = ops w ++ OpEnsureDir dataDir ::
    map (fun f => OpCopyFile (templatePath env f) (Path.join [dataDir; f]))
        dataFiles.
Proof.
  unfold provisionData, ensureDir, mkdirs. mrun.
  destruct (mkdirChain _ _) as [m1 [e|]]; mrun; [discriminate|].
  match goal with
  | |- context [copyDataFiles env dataDir dataFiles ?x] =>
      set (w1 := x); destruct (copyDataFiles env dataDir dataFiles w1)
        as [w2 [[]|e|c]] eqn:E
  end; try discriminate.
  intros [= <-]. simpl. rewrite (copyDataFiles_ops _ _ _ _ _ E). simpl.
  now rewrite <- app_assoc.
Qed.

(** Step 3, when it succeeds, in full. *)
Lemma generateConfig_written env appDir dataDir w w' :
  generateConfig env appDir dataDir w = (w', Ret tt) ->
  exists template,
    lookupNode (fs w) (configTemplatePath env) = Some (File template) /\
    fs w' !! configPath appDir = Some (File (result dataDir template)) /\
    lookupNode (fs w') (parentDir (configPath appDir)) = Some Dir /\
    ops w' = ops w ++
      [OpOutputFile (configPath appDir) (result dataDir template)].
Proof.
  unfold generateConfig, readFile, outputFile.
  fold (configTemplatePath env). mrun.
  destruct (lookupNode (fs w) (configTemplatePath env)) as [[template|]|];
    mrun; try discriminate.
  destruct (pathExists (fs w) _); mrun.
  - match goal with
    | |- context [writeFile ?p ?d ?x] =>
        destruct (writeFile p d x) as [w2 [[]|e|c]] eqn:E
    end; try discriminate.
    apply writeFile_written in E as [-> Hd]. intros [= <-].
    exists template. simpl in *. split; [reflexivity|].
    split; [apply lookup_insert_eq|]. split; [exact Hd | reflexivity].
  - match goal with
    | |- context [mkdirs ?p ?x] =>
        destruct (mkdirs p x) as [w1 [[]|e|c]] eqn:E1
    end; try discriminate.
    apply mkdirs_keeps in E1 as [_ E1]. simpl in E1.
    match goal with
    | |- context [writeFile ?p ?d ?x] =>
        destruct (writeFile p d x) as [w2 [[]|e|c]] eqn:E
    end; try discriminate.
    apply writeFile_written in E as [-> Hd]. intros [= <-].
    exists template. simpl in *. split; [reflexivity|].
    split; [apply lookup_insert_eq|]. split; [exact Hd|].
    now rewrite E1.
Qed.

Lemma installDependencies_ops env appDir w w' :
  installDependencies env appDir w = (w', Ret tt) ->
  ops w' = ops w ++ [OpExec (str "npm install")].
Proof.
  unfold installDependencies, execSync, runProcess. mrun.
  destruct (succeeded _); mrun; [|discriminate]. now intros [= <-].
Qed.

End StepsInFull.

(** X12. When step 3 succeeds, the config file holds the rendering of the
    bundled template, as the template was when the step began; its
    directory is a directory; the step has logged one write, of that text
    to that path; and every other path holds what it held, unless it held
    nothing and is now a directory. *)
Theorem config_is_rendered_template env appDir dataDir w w' :
  generateConfig env appDir dataDir w = (w', Ret tt) ->
  exists template,
    lookupNode (fs w) (configTemplatePath env) = Some (File template) /\
    fs w' !! configPath appDir = Some (File (result dataDir template)) /\
    lookupNode (fs w') (parentDir (configPath appDir)) = Some Dir /\
    ops w' = ops w ++
      [OpOutputFile (configPath appDir) (result dataDir template)] /\
    (forall p, p <> configPath appDir ->
       fs w' !! p = fs w !! p \/
       (fs w !! p = None /\ fs w' !! p = Some Dir)).
Proof.
  intros H.
  destruct (generateConfig_written _ _ _ _ _ H)
    as (template & Ht & Hc & Hd & Ho).
  destruct (generateConfig_ret _ _ _ _ _ H) as (t' & mc & Hmc & Hfs).
  exists template. split; [exact Ht|]. split; [exact Hc|].
  split; [exact Hd|]. split; [exact Ho|].
  intros p Hp. rewrite Hfs, lookup_insert_ne by congruence.
  destruct Hmc as [->|Hmk]; [now left|].
  exact (mkdirChain_grows _ _ _ _ p Hmk).
Qed.

Lemma config_is_rendered_template_witness :
  let w := (provisionData sampleEnv (dataDirOf sampleEnv) freshWorld).1 in
  let w' :=
    (generateConfig sampleEnv (appDirOf sampleEnv) (dataDirOf sampleEnv) w).1
  in
  exists template,
    lookupNode (fs w) (configTemplatePath sampleEnv)
      = Some (File template) /\
    fs w' !! configPath (appDirOf sampleEnv)
      = Some (File (result (dataDirOf sampleEnv) template)) /\
    lookupNode (fs w') (parentDir (configPath (appDirOf sampleEnv)))
      = Some Dir /\
    ops w' = ops w ++
      [OpOutputFile (configPath (appDirOf sampleEnv))
                    (result (dataDirOf sampleEnv) template)] /\
    (forall p, p <> configPath (appDirOf sampleEnv) ->
       fs w' !! p = fs w !! p \/
       (fs w !! p = None /\ fs w' !! p = Some Dir)).
Proof.
  intros w w'.
  apply (config_is_rendered_template sampleEnv (appDirOf sampleEnv)
           (dataDirOf sampleEnv) w w').
  apply (run_ret (generateConfig sampleEnv (appDirOf sampleEnv)
                    (dataDirOf sampleEnv) w) tt).
  vm_compute. reflexivity.
Defined.

(** X14. A run that completes has issued, in this order and nothing
    else: the removal of the target directory when there was one, the
    creation of the app directory, the clone, the creation of the data
    directory, the copy of the four data files in the order of the list,
    the write of the config, the install, and the version command of
    Tomcat. *)
Theorem successful_run_operations env w w' :
  main env w = (w', Ret tt) ->
  exists removed template,
    (removed = [] \/
     removed = [OpRemove (targetDirOf env (projectNameOf env))]) /\
    (removed = [] <->
     pathExists (fs w) (targetDirOf env (projectNameOf env)) = false) /\
    ops w' = ops w ++ removed ++ pipelineOps env template.
Proof.
  intros Hmain. unfold main in Hmain.
  apply bind_ret in Hmain as (name & w1 & Hin & Hrest).
  pose proof (collectInput_run env w) as E. simpl in E. rewrite Hin in E.
  assert (name = projectNameOf env /\
          exists removed,
            (removed = [] \/
             removed = [OpRemove (targetDirOf env (projectNameOf env))]) /\
            (removed = [] <->
             pathExists (fs w) (targetDirOf env (projectNameOf env)) = false)
            /\ ops w1 = ops w ++ removed) as (-> & removed & Hr & Hr' & Hops1).
  { destruct (pathExists (fs w) _); [destruct (promptConfirm _ _)|];
      try discriminate; injection E as -> ->; (split; [reflexivity|]).
    - eexists. split; [now right|]. split; [|reflexivity].
      split; discriminate.
    - exists []. split; [now left|]. split; [tauto|].
      simpl. now rewrite app_nil_r. }
  apply bind_ret in Hrest as ([] & w5 & Hprov & Htail).
  rewrite bind_run, checkTomcat_run, done_run in Htail.
  injection Htail as <-. simpl.
  unfold provision in Hprov.
  apply bind_ret in Hprov as ([] & wa & Hlog & Hprov).
  rewrite logStep_run in Hlog. injection Hlog as <-.
  apply bind_ret in Hprov as ([] & w2 & Hclone & Hprov).
  apply bind_ret in Hprov as ([] & w3 & Hdata & Hprov).
  apply bind_ret in Hprov as ([] & w4 & Hconf & Hinst).
  fold (appDirOf env) in *. fold (dataDirOf env) in *.
  rewrite cloneRepo_run in Hclone.
  destruct (mkdirChain _ _) as [m' [e|]]; [discriminate|].
  destruct (succeeded _); [|discriminate].
  injection Hclone as <-.
  apply provisionData_ops in Hdata. simpl in Hdata.
  apply generateConfig_written in Hconf as (template & _ & _ & _ & Hconf).
  apply installDependencies_ops in Hinst.
  exists removed, template. split; [exact Hr|]. split; [exact Hr'|].
  rewrite Hinst, Hconf, Hdata, Hops1. unfold pipelineOps.
  rewrite <- !app_assoc. reflexivity.
Qed.

Lemma successful_run_operations_witness :
  let w' := (main sampleEnv freshWorld).1 in
  exists removed template,
    (removed = [] \/
     removed = [OpRemove (targetDirOf sampleEnv (projectNameOf sampleEnv))])
    /\
    (removed = [] <->
     pathExists (fs freshWorld)
       (targetDirOf sampleEnv (projectNameOf sampleEnv)) = false) /\
    ops w' = ops freshWorld ++ removed ++ pipelineOps sampleEnv template.
Proof.
  intros w'.
  apply (successful_run_operations sampleEnv freshWorld w').
  apply (run_ret (main sampleEnv freshWorld) tt). vm_compute. reflexivity.
Defined.


(** ** Where a run writes *)

Section Confined.

Context (Q : jsstring -> bool).

Lemma confined_bind {A B} (m : M A) (k : A -> M B) :
  confinedTo Q m -> (forall a, confinedTo Q (k a)) -> confinedTo Q (m ≫= k).
Proof.
  intros Hm Hk w w' r p. rewrite bind_run.
  destruct (m w) as [w1 [a|e|c]] eqn:E; intros H Hp.
  - eapply grows_trans; [eapply Hm | eapply Hk]; eassumption.
  - injection H as <- _. eapply Hm; eassumption.
  - injection H as <- _. eapply Hm; eassumption.
Qed.

Lemma confined_try {A} (m : M A) (h : Error -> M A) :
  confinedTo Q m -> (forall e, confinedTo Q (h e)) ->
  confinedTo Q (try_catch m h).
Proof.
  intros Hm Hh w w' r p. unfold try_catch.
  destruct (m w) as [w1 [a|e|c]] eqn:E; intros H Hp.
  - injection H as <- _. eapply Hm; eassumption.
  - eapply grows_trans; [eapply Hm | eapply Hh]; eassumption.
  - injection H as <- _. eapply Hm; eassumption.
Qed.

Lemma confined_ret {A} (a : A) : confinedTo Q (mret a).
Proof. intros w w' r p [= <- _] _. apply grows_refl. Qed.

Lemma confined_throw {A} e : confinedTo Q (@throw A e).
Proof. intros w w' r p [= <- _] _. apply grows_refl. Qed.

Lemma confined_exit {A} c : confinedTo Q (@process_exit A c).
Proof. intros w w' r p [= <- _] _. apply grows_refl. Qed.

Lemma confined_emit o : confinedTo Q (emit o).
Proof. intros w w' r p [= <- _] _. apply grows_refl. Qed.

Lemma confined_record o : confinedTo Q (record o).
Proof. intros w w' r p [= <- _] _. apply grows_refl. Qed.

Lemma confined_get_fs : confinedTo Q get_fs.
Proof. intros w w' r p [= <- _] _. apply grows_refl. Qed.

Lemma confined_mkdirs d : confinedTo Q (mkdirs d).
Proof.
  intros w w' r p. unfold mkdirs. mrun.
  destruct (mkdirChain _ _) as [m1 [e|]] eqn:E; mrun; intros [= <- _] _;
    simpl; eapply mkdirChain_grows, E.
Qed.

Lemma confined_writeFile d data :
  Q d = true -> confinedTo Q (writeFile d data).
Proof.
  intros Hd w w' r p. unfold writeFile. mrun.
  destruct (lookupNode (fs w) d) as [[c|]|]; mrun;
    try (intros [= <- _] _; apply grows_refl);
    destruct (lookupNode (fs w) (parentDir d)) as [[c'|]|]; mrun;
    intros [= <- _] Hp; try apply grows_refl;
    left; simpl; apply lookup_insert_ne; congruence.
Qed.

Lemma confined_remove d :
  (forall q, within d q = true -> Q q = true) -> confinedTo Q (remove d).
Proof.
  intros Hd w w' r p. unfold remove. mrun. intros [= <- _] Hp. left. simpl.
  rewrite remove_lookup.
  destruct (within d p) eqn:E; [|reflexivity].
  apply Hd in E. congruence.
Qed.

Lemma confined_runProcess c d r :
  (forall q, JS.startsWith (d ++ ["/"]) q = true -> Q q = true) ->
  confinedTo Q (runProcess c d r).
Proof.
  intros Hd w w' r' p. unfold runProcess. mrun.
  destruct (succeeded r); mrun; intros [= <- _] Hp; left; simpl;
    apply writeUnder_other;
    (destruct (JS.startsWith (d ++ ["/"]) p) eqn:E; [|reflexivity]);
    apply Hd in E; congruence.
Qed.

End Confined.

Create HintDb confined.
#[local] Hint Resolve confined_ret confined_throw confined_exit confined_emit
  confined_record confined_get_fs confined_mkdirs : confined.

(** [leaf] closes the goals on the operations that are not to be
    opened. *)
Ltac confined_with leaf :=
  repeat first
    [ progress (intros)
    | solve [auto with confined]
    | solve [leaf]
    | apply confined_bind
    | apply confined_try
    | match goal with
      | |- confinedTo _ (match ?x with _ => _ end) => destruct x
      | |- confinedTo _ (let (_, _) := ?x in _) => destruct x
      end ].

Ltac confined := confined_with fail.

Section ConfinedSteps.

Context (Q : jsstring -> bool).

Lemma confined_ensureDir d : confinedTo Q (ensureDir d).
Proof. unfold ensureDir. confined. Qed.

Lemma confined_copyFile src dst :
  Q dst = true -> confinedTo Q (copyFile src dst).
Proof.
  intros Hd. unfold copyFile.
  confined_with ltac:(now apply confined_writeFile).
Qed.

Lemma confined_outputFile d data :
  Q d = true -> confinedTo Q (outputFile d data).
Proof.
  intros Hd. unfold outputFile.
  confined_with ltac:(now apply confined_writeFile).
Qed.

Lemma confined_execSync c d r :
  (forall q, JS.startsWith (d ++ ["/"]) q = true -> Q q = true) ->
  confinedTo Q (execSync c d r).
Proof.
  intros Hd. unfold execSync.
  confined_with ltac:(now apply confined_runProcess).
Qed.

Lemma confined_copyDataFiles env d files :
  (forall f, f ∈ files -> Q (Path.join [d; f]) = true) ->
  confinedTo Q (copyDataFiles env d files).
Proof.
  induction files as [|f files IH]; intros Hf; simpl; [confined|].
  apply confined_bind; [|intros _].
  - apply confined_copyFile, Hf. left.
  - apply IH. intros f' Hf'. apply Hf. now right.
Qed.

End ConfinedSteps.

Section ConfinedRun.

Context (env : Env) (Habs : Path.isAbsolute (cwd env) = true).

Let T := targetDirOf env (projectNameOf env).
Let A := Path.join [T; str "app"].
Let D := Path.join [T; str "data"].

Lemma under_A_within q :
  JS.startsWith (A ++ ["/"]) q = true -> within T q = true.
Proof.
  intros H. apply startsWith_P_within.
  eapply startsWith_trans; [|exact H].
  unfold A, T. rewrite (run_A env Habs), <- app_assoc. apply startsWith_app.
Qed.

Lemma confined_collectInput : confinedTo (within T) (collectInput env).
Proof.
  unfold collectInput, console_log, existsSync.
  confined_with ltac:(apply confined_remove; auto).
Qed.

Lemma confined_cloneRepo : confinedTo (within T) (cloneRepo env A).
Proof.
  unfold cloneRepo, console_error, spinner_start, spinner_succeed,
    spinner_fail.
  confined_with
    ltac:(first [ apply confined_ensureDir
                | apply confined_runProcess, under_A_within ]).
Qed.

Lemma confined_provisionData : confinedTo (within T) (provisionData env D).
Proof.
  unfold provisionData, logStep, console_log, console_error, spinner_start,
    spinner_succeed, spinner_fail.
  confined_with
    ltac:(first [ apply confined_ensureDir
                | apply confined_copyDataFiles; intros f Hf;
                  now apply (run_file_within env Habs) ]).
Qed.

Lemma confined_generateConfig :
  confinedTo (within T) (generateConfig env A D).
Proof.
  unfold generateConfig, logStep, console_log, console_error, spinner_start,
    spinner_succeed, spinner_fail, readFile.
  confined_with
    ltac:(apply confined_outputFile; unfold A, T;
          rewrite (run_config env Habs); apply within_T_P).
Qed.

Lemma confined_installDependencies :
  confinedTo (within T) (installDependencies env A).
Proof.
  unfold installDependencies, logStep, console_log, console_error,
    spinner_start, spinner_succeed, spinner_fail.
  confined_with ltac:(apply confined_execSync, under_A_within).
Qed.

Lemma confined_provision :
  confinedTo (within T) (provision env (projectNameOf env)).
Proof.
  unfold provision, logStep, console_log. fold T. fold A. fold D. cbv zeta.
  confined_with
    ltac:(first [ apply confined_cloneRepo | apply confined_provisionData
                | apply confined_generateConfig
                | apply confined_installDependencies ]).
Qed.

End ConfinedRun.

(** X17. In a process whose working directory is absolute, however the
    run ends, a path that is neither the target directory nor below it
    holds at the end what it held at the start, unless it held nothing and
    is now a directory: outside the target directory a run removes
    nothing, writes no file and changes no file. *)
Theorem run_confined_to_target env w w' r p :
  Path.isAbsolute (cwd env) = true ->
  main env w = (w', r) ->
  within (targetDirOf env (projectNameOf env)) p = false ->
  fs w' !! p = fs w !! p \/ (fs w !! p = None /\ fs w' !! p = Some Dir).
Proof.
  intros Habs Hmain Hp. change (grows (fs w) (fs w') p).
  unfold main in Hmain. rewrite bind_run in Hmain.
  pose proof (confined_collectInput env w) as H1.
  pose proof (collectInput_run env w) as E. simpl in E.
  destruct (collectInput env w) as [w1 [name|e|c]] eqn:E1.
  - assert (name = projectNameOf env) as ->.
    { destruct (pathExists _ _); [destruct (promptConfirm _ _)|];
        congruence. }
    rewrite bind_run in Hmain.
    pose proof (confined_provision env Habs w1) as H2.
    destruct (provision env (projectNameOf env) w1) as [w4 [[]|e|c]] eqn:E4.
    + rewrite bind_run, checkTomcat_run, done_run in Hmain.
      injection Hmain as <- _. simpl.
      eapply grows_trans; [eapply H1 | eapply H2]; eauto.
    + injection Hmain as <- _.
      eapply grows_trans; [eapply H1 | eapply H2]; eauto.
    + injection Hmain as <- _.
      eapply grows_trans; [eapply H1 | eapply H2]; eauto.
  - injection Hmain as <- _. eapply H1; eauto.
  - injection Hmain as <- _. eapply H1; eauto.
Qed.

Lemma run_confined_to_target_witness :
  let env :=
    {| cwd := cwd sampleEnv; dirname := dirname sampleEnv;
       platform := platform sampleEnv;
       projectNameInput := str "park-me-app";
       overwriteInput := Some true;
       gitClone := gitClone sampleEnv; npmInstall := npmInstall sampleEnv;
       catalina := catalina sampleEnv |} in
  let run := main env sampleWorld in
  let p := str "/opt/parkme/templates/users.json" in
  fs run.1 !! p = fs sampleWorld !! p \/
  (fs sampleWorld !! p = None /\ fs run.1 !! p = Some Dir).
Proof.
  intros env run p.
  apply (run_confined_to_target env sampleWorld run.1 run.2 p).
  - reflexivity.
  - exact (surjective_pairing run).
  - vm_compute. reflexivity.
Defined.

(** ** What a run shows *)

Section Shows.

Context (P : Output -> Prop).

Lemma shows_bind {A B} (m : M A) (k : A -> M B) :
  showsOnly P m -> (forall a, showsOnly P (k a)) -> showsOnly P (m ≫= k).
Proof.
  intros Hm Hk w w' r. rewrite bind_run.
  destruct (m w) as [w1 [a|e|c]] eqn:E;
    destruct (Hm _ _ _ E) as (l & Hl & HP).
  - intros (l' & Hl' & HP')%Hk. exists (l ++ l').
    split; [now rewrite Hl', Hl, app_assoc | now apply Forall_app].
  - intros [= <- _]; eauto.
  - intros [= <- _]; eauto.
Qed.

Lemma shows_try {A} (m : M A) (h : Error -> M A) :
  showsOnly P m -> (forall e, showsOnly P (h e)) -> showsOnly P (try_catch m h).
Proof.
  intros Hm Hh w w' r. unfold try_catch.
  destruct (m w) as [w1 [a|e|c]] eqn:E;
    destruct (Hm _ _ _ E) as (l & Hl & HP).
  - intros [= <- _]; eauto.
  - intros (l' & Hl' & HP')%Hh. exists (l ++ l').
    split; [now rewrite Hl', Hl, app_assoc | now apply Forall_app].
  - intros [= <- _]; eauto.
Qed.

Lemma shows_silent {A} (m : M A) :
  (forall w w' r, m w = (w', r) -> console w' = console w) -> showsOnly P m.
Proof.
  intros H w w' r E. exists []. rewrite app_nil_r. split; [eauto|].
  apply List.Forall_nil.
Qed.

Lemma shows_ret {A} (a : A) : showsOnly P (mret a).
Proof. apply shows_silent. now intros w w' r [= <- _]. Qed.

Lemma shows_throw {A} e : showsOnly P (@throw A e).
Proof. apply shows_silent. now intros w w' r [= <- _]. Qed.

Lemma shows_exit {A} c : showsOnly P (@process_exit A c).
Proof. apply shows_silent. now intros w w' r [= <- _]. Qed.

Lemma shows_record o : showsOnly P (record o).
Proof. apply shows_silent. now intros w w' r [= <- _]. Qed.

Lemma shows_get_fs : showsOnly P get_fs.
Proof. apply shows_silent. now intros w w' r [= <- _]. Qed.

Lemma shows_put_fs m : showsOnly P (put_fs m).
Proof. apply shows_silent. now intros w w' r [= <- _]. Qed.

Lemma shows_emit o : P o -> showsOnly P (emit o).
Proof.
  intros Ho w w' r [= <- _]. exists [o]. split; [reflexivity|].
  apply List.Forall_cons; [exact Ho | apply List.Forall_nil].
Qed.

End Shows.

Create HintDb shows.
#[local] Hint Resolve shows_ret shows_throw shows_exit shows_record
  shows_get_fs shows_put_fs : shows.

Ltac shows :=
  repeat first
    [ progress (intros)
    | apply shows_bind
    | apply shows_try
    | solve [auto with shows]
    | match goal with
      | |- showsOnly _ (match ?x with _ => _ end) => destruct x
      | |- showsOnly _ (let (_, _) := ?x in _) => destruct x
      end ].

Section ShowsSteps.

Context (P : Output -> Prop).

Lemma shows_mkdirs p : showsOnly P (mkdirs p).
Proof. unfold mkdirs. shows. Qed.

Lemma shows_ensureDir p : showsOnly P (ensureDir p).
Proof. unfold ensureDir. shows. Qed.

Lemma shows_remove p : showsOnly P (remove p).
Proof. unfold remove. shows. Qed.

Lemma shows_writeFile p data : showsOnly P (writeFile p data).
Proof. unfold writeFile. shows. Qed.

Lemma shows_copyFile src dst : showsOnly P (copyFile src dst).
Proof. unfold copyFile. shows. Qed.

Lemma shows_readFile p : showsOnly P (readFile p).
Proof. unfold readFile. shows. Qed.

Lemma shows_outputFile p data : showsOnly P (outputFile p data).
Proof.
  unfold outputFile. shows;
    auto using shows_mkdirs, shows_writeFile with shows.
Qed.

Lemma shows_runProcess c d r : showsOnly P (runProcess c d r).
Proof. unfold runProcess. shows. Qed.

Lemma shows_execSync c d r : showsOnly P (execSync c d r).
Proof. unfold execSync. shows. Qed.

Lemma shows_copyDataFiles env d files :
  showsOnly P (copyDataFiles env d files).
Proof. induction files as [|f files IH]; simpl; shows. Qed.

End ShowsSteps.

Ltac not_success :=
  first [ discriminate
        | let H := fresh in intros H; vm_compute in H; discriminate H ].

Lemma shows_collectInput env :
  showsOnly (fun o => o <> successLine) (collectInput env).
Proof.
  unfold collectInput, console_log, existsSync.
  shows; try (apply shows_emit; not_success); apply shows_remove.
Qed.

Lemma shows_provision env name :
  showsOnly (fun o => o <> successLine) (provision env name).
Proof.
  unfold provision, cloneRepo, provisionData, generateConfig,
    installDependencies, logStep, console_log, console_error, spinner_start,
    spinner_succeed, spinner_fail.
  cbv zeta.
  shows; try (apply shows_emit; not_success);
    auto using shows_ensureDir, shows_runProcess, shows_copyDataFiles,
      shows_readFile, shows_outputFile, shows_execSync.
Qed.

(** X16. Whatever a run shows, it adds to the console; the line
    "Setup completed successfully!" is among what it shows when the run
    completes, and is not when the run ends with [process.exit]. *)
Theorem success_line_only_on_success env w w' r :
  main env w = (w', r) ->
  exists shown,
    console w' = console w ++ shown /\
    (r = Ret tt -> successLine ∈ shown) /\
    (r <> Ret tt -> successLine ∉ shown).
Proof.
  unfold main. rewrite bind_run.
  destruct (collectInput env w) as [w1 [name|e|c]] eqn:E1;
    destruct (shows_collectInput env _ _ _ E1) as (l1 & Hl1 & HP1).
  - rewrite bind_run.
    destruct (provision env name w1) as [w4 [[]|e|c]] eqn:E4;
      destruct (shows_provision env name _ _ _ E4) as (l4 & Hl4 & HP4).
    + rewrite bind_run, checkTomcat_run, done_run. intros [= <- <-]. simpl.
      exists (l1 ++ l4 ++ tomcatReport env ++ doneReport name).
      split; [now rewrite Hl4, Hl1, <- !app_assoc|].
      split; [|congruence]. intros _.
      rewrite !elem_of_app. right. right. right. left.
    + intros [= <- <-]. exists (l1 ++ l4).
      split; [now rewrite Hl4, Hl1, app_assoc|]. split; [discriminate|].
      intros _ [H|H]%elem_of_app.
      * eapply (proj1 (Forall_forall _ _) HP1); [exact H | reflexivity].
      * eapply (proj1 (Forall_forall _ _) HP4); [exact H | reflexivity].
    + intros [= <- <-]. exists (l1 ++ l4).
      split; [now rewrite Hl4, Hl1, app_assoc|]. split; [discriminate|].
      intros _ [H|H]%elem_of_app.
      * eapply (proj1 (Forall_forall _ _) HP1); [exact H | reflexivity].
      * eapply (proj1 (Forall_forall _ _) HP4); [exact H | reflexivity].
  - intros [= <- <-]. exists l1. split; [exact Hl1|]. split; [discriminate|].
    intros _ H.
    eapply (proj1 (Forall_forall _ _) HP1); [exact H | reflexivity].
  - intros [= <- <-]. exists l1. split; [exact Hl1|]. split; [discriminate|].
    intros _ H.
    eapply (proj1 (Forall_forall _ _) HP1); [exact H | reflexivity].
Qed.

Lemma success_line_only_on_success_witness :
  let run := main offlineEnv freshWorld in
  exists shown,
    console run.1 = console freshWorld ++ shown /\
    (run.2 = Ret tt -> successLine ∈ shown) /\
    (run.2 <> Ret tt -> successLine ∉ shown).
Proof.
  intros run.
  apply (success_line_only_on_success offlineEnv freshWorld run.1 run.2).
  exact (surjective_pairing run).
Defined.

(** ** When a step fails *)

Lemma writeUnder_keeps (dir : jsstring) (ns : list (jsstring * node))
    (m : gmap jsstring node) (p : jsstring) :
  is_Some (m !! p) -> is_Some (writeUnder dir ns m !! p).
Proof.
  intros H. induction ns as [|[rel n] ns IH]; simpl; [exact H|].
  apply lookup_insert_is_Some'. now right.
Qed.

Lemma installDependencies_failed env appDir w :
  succeeded (npmInstall env) = false ->
  installDependencies env appDir w =
  ({| fs := writeUnder appDir (written (npmInstall env)) (fs w);
      console := console w ++
        [ConsoleLog [[LF]];
         ConsoleLog [str "› "; str "Installing dependencies..."];
         SpinnerStart (str "Installing dependencies...");
         SpinnerFail (str "Failed to install dependencies.");
         ConsoleError
           (ProcessFailed (str "npm install") (failure (npmInstall env)))];
      ops := ops w ++ [OpExec (str "npm install")] |}, Exit 1).
Proof.
  intros Hf. unfold installDependencies, execSync, runProcess. mrun.
  rewrite Hf. mrun. now rewrite <- !app_assoc.
Qed.

(** X13. In a process whose working directory is absolute, when steps 1
    to 3 have succeeded and the install fails, the run ends with exit
    code 1 behind the failed spinner and the error of npm, and nothing is
    undone: the filesystem is the one step 3 left with what npm wrote in
    the app directory, every path that existed still exists, and the data
    directory and what is in it are untouched. *)
Theorem failed_install_keeps_data env w w1 w4 :
  Path.isAbsolute (cwd env) = true ->
  collectInput env w = (w1, Ret (projectNameOf env)) ->
  (logStep (str "Cloning the repository...");;
   cloneRepo env (appDirOf env);;
   provisionData env (dataDirOf env);;
   generateConfig env (appDirOf env) (dataDirOf env)) w1 = (w4, Ret tt) ->
  succeeded (npmInstall env) = false ->
  exists w5,
    main env w = (w5, Exit 1) /\
    fs w5 = writeUnder (appDirOf env) (written (npmInstall env)) (fs w4) /\
    (forall p, is_Some (fs w4 !! p) -> is_Some (fs w5 !! p)) /\
    (forall p, JS.startsWith (dataDirOf env) p = true ->
       fs w5 !! p = fs w4 !! p) /\
    ops w5 = ops w4 ++ [OpExec (str "npm install")] /\
    exists shown,
      console w5 = shown ++
        [SpinnerFail (str "Failed to install dependencies.");
         ConsoleError
           (ProcessFailed (str "npm install") (failure (npmInstall env)))].
Proof.
  intros Habs Hin Hsteps Hfail.
  apply bind_ret in Hsteps as ([] & wa & Hlog & Hsteps).
  apply bind_ret in Hsteps as ([] & w2 & Hclone & Hsteps).
  apply bind_ret in Hsteps as ([] & w3 & Hdata & Hconf).
  eexists. split.
  { unfold main. rewrite bind_run, Hin, bind_run. unfold provision.
    fold (appDirOf env). fold (dataDirOf env). cbv zeta.
    rewrite bind_run, Hlog, bind_run, Hclone, bind_run, Hdata, bind_run,
      Hconf.
    rewrite (installDependencies_failed env _ _ Hfail). reflexivity. }
  simpl. split; [reflexivity|]. split; [|split; [|split; [reflexivity|]]].
  - intros p. apply writeUnder_keeps.
  - intros p Hp. now apply (writeUnder_A_data env Habs).
  - eexists (console w4 ++ [_; _; _]). now rewrite <- app_assoc.
Qed.

Lemma failed_install_keeps_data_witness :
  let env :=
    {| cwd := cwd sampleEnv; dirname := dirname sampleEnv;
       platform := platform sampleEnv;
       projectNameInput := projectNameInput sampleEnv;
       overwriteInput := overwriteInput sampleEnv;
       gitClone := gitClone sampleEnv;
       npmInstall :=
         mkProcessResult false (str "npm ERR! network")
                         [(str "npm-debug.log", File (str "ERR"))];
       catalina := catalina sampleEnv |} in
  let w1 := (collectInput env freshWorld).1 in
  let w4 :=
    ((logStep (str "Cloning the repository...");;
      cloneRepo env (appDirOf env);;
      provisionData env (dataDirOf env);;
      generateConfig env (appDirOf env) (dataDirOf env)) w1).1 in
  exists w5,
    main env freshWorld = (w5, Exit 1) /\
    fs w5 = writeUnder (appDirOf env) (written (npmInstall env)) (fs w4) /\
    (forall p, is_Some (fs w4 !! p) -> is_Some (fs w5 !! p)) /\
    (forall p, JS.startsWith (dataDirOf env) p = true ->
       fs w5 !! p = fs w4 !! p) /\
    ops w5 = ops w4 ++ [OpExec (str "npm install")] /\
    exists shown,
      console w5 = shown ++
        [SpinnerFail (str "Failed to install dependencies.");
         ConsoleError
           (ProcessFailed (str "npm install") (failure (npmInstall env)))].
Proof.
  intros env w1 w4.
  apply (failed_install_keeps_data env freshWorld w1 w4).
  - reflexivity.
  - apply (run_ret (collectInput env freshWorld)). vm_compute. reflexivity.
  - apply (run_ret
             ((logStep (str "Cloning the repository...");;
               cloneRepo env (appDirOf env);;
               provisionData env (dataDirOf env);;
               generateConfig env (appDirOf env) (dataDirOf env)) w1) tt).
    vm_compute. reflexivity.
  - reflexivity.
Defined.

Section MissingTemplate.

Context (env : Env) (Habs : Path.isAbsolute (cwd env) = true).
Context (Hout : templatesOutside env = true).

Let T := targetDirOf env (projectNameOf env).

Lemma templates_outside f :
  f ∈ dataFiles -> within T (templatePath env f) = false.
Proof.
  intros Hf%list_elem_of_In. unfold templatesOutside in Hout.
  rewrite forallb_forall in Hout. now apply negb_true_iff, Hout.
Qed.

(** Steps 1 to 4 from a filesystem in which the template of a data file
    is not a file: the run ends in step 1 or in step 2. *)
Lemma provision_without_template w1 f :
  f ∈ dataFiles ->
  (forall c, fs w1 !! templatePath env f <> Some (File c)) ->
  exists w' shown s e,
    provision env (projectNameOf env) w1 = (w', Exit 1) /\
    console w' = shown ++ [SpinnerFail s; ConsoleError e] /\
    (s = str "Failed to clone repository." \/
     s = str "Failed to set up data folder or copy files.").
Proof.
  intros Hf Hno. unfold provision. cbv zeta.
  rewrite bind_run, logStep_run, bind_run.
  match goal with
  | |- context [cloneRepo env ?a ?x] =>
      destruct (cloneRepo env a x) as [w2 r2] eqn:E2
  end.
  destruct (failsWith_cloneRepo _ _ _ _ _ E2) as [->|[-> (shown & e & Hs)]].
  2:{ exists w2, shown, (str "Failed to clone repository."), e.
      split; [reflexivity|]. split; [exact Hs | now left]. }
  pose proof (cloneRepo_outside env Habs _ _ _ _ E2 (templates_outside f Hf))
    as Hg. simpl in Hg.
  rewrite bind_run.
  match goal with
  | |- context [provisionData env ?d ?x] =>
      destruct (provisionData env d x) as [w3 r3] eqn:E3
  end.
  destruct (failsWith_provisionData _ _ _ _ _ E3)
    as [->|[-> (shown & e & Hs)]].
  - destruct (provisionData_effect env Habs templates_outside _ _ E3)
      as (_ & Hfiles & _).
    destruct (Hfiles f Hf) as (c & Hc & _).
    destruct (Hno c). eapply grows_file; eassumption.
  - exists w3, shown, (str "Failed to set up data folder or copy files."), e.
    split; [reflexivity|]. split; [exact Hs | now right].
Qed.

End MissingTemplate.

(** X18. In a process whose working directory is absolute, with the
    templates of the tool outside the target directory: when the bundled
    template of one of the data files is missing, or is not a file, no run
    completes. The run ends with exit code 0 at a declined overwrite, or
    with exit code 1 behind the failed spinner of step 1 or of step 2:
    it never gets to writing the config. *)
Theorem missing_data_template_is_fatal env w f :
  Path.isAbsolute (cwd env) = true ->
  templatesOutside env = true ->
  f ∈ dataFiles ->
  (forall c, fs w !! templatePath env f <> Some (File c)) ->
  exists w' code,
    main env w = (w', Exit code) /\
    ((code = 0%Z /\
      pathExists (fs w) (targetDirOf env (projectNameOf env)) = true /\
      promptConfirm false (overwriteInput env) = false) \/
     (code = 1%Z /\
      exists shown s e,
        console w' = shown ++ [SpinnerFail s; ConsoleError e] /\
        (s = str "Failed to clone repository." \/
         s = str "Failed to set up data folder or copy files."))).
Proof.
  intros Habs Hout Hf Hno. unfold main. rewrite bind_run.
  pose proof (collectInput_run env w) as E. simpl in E. rewrite E. clear E.
  pose proof (templates_outside env Hout f Hf) as Ho.
  assert (forall w1, fs w1 !! templatePath env f = fs w !! templatePath env f ->
            exists w' code,
              (provision env (projectNameOf env);; checkTomcat env;;
               done (projectNameOf env)) w1 = (w', Exit code) /\
              code = 1%Z /\
              exists shown s e,
                console w' = shown ++ [SpinnerFail s; ConsoleError e] /\
                (s = str "Failed to clone repository." \/
                 s = str "Failed to set up data folder or copy files."))
    as Hrest.
  { intros w1 E1.
    destruct (provision_without_template env Habs Hout w1 f Hf)
      as (w' & shown & s & e & Hp & Hs & Hwhich).
    { intros c. rewrite E1. apply Hno. }
    exists w', 1%Z. rewrite bind_run, Hp. split; [reflexivity|].
    split; [reflexivity|]. eauto. }
  destruct (pathExists (fs w) _) eqn:Hex;
    [destruct (promptConfirm _ _) eqn:Hc|].
  - destruct (Hrest {| fs := filter (fun kv =>
                        within (targetDirOf env (projectNameOf env)) kv.1
                        = false) (fs w);
                       console := console w ++ greeting;
                       ops := ops w ++
                         [OpRemove (targetDirOf env (projectNameOf env))] |})
      as (w' & code & Hrun & H).
    { simpl. now rewrite remove_lookup, Ho. }
    exists w', code. split; [exact Hrun|]. now right.
  - eexists _, _. split; [reflexivity|]. left. auto.
  - destruct (Hrest {| fs := fs w; console := console w ++ greeting;
                       ops := ops w |}) as (w' & code & Hrun & H);
      [reflexivity|].
    exists w', code. split; [exact Hrun|]. now right.
Qed.

Lemma missing_data_template_is_fatal_witness :
  let w :=
    {| fs := delete (str "/opt/parkme/templates/bookings.json")
                    (fs freshWorld);
       console := []; ops := [] |} in
  exists w' code,
    main sampleEnv w = (w', Exit code) /\
    ((code = 0%Z /\
      pathExists (fs w) (targetDirOf sampleEnv (projectNameOf sampleEnv))
        = true /\
      promptConfirm false (overwriteInput sampleEnv) = false) \/
     (code = 1%Z /\
      exists shown s e,
        console w' = shown ++ [SpinnerFail s; ConsoleError e] /\
        (s = str "Failed to clone repository." \/
         s = str "Failed to set up data folder or copy files."))).
Proof.
  intros w.
  apply (missing_data_template_is_fatal sampleEnv w (str "bookings.json")).
  - reflexivity.
  - vm_compute. reflexivity.
  - right. left.
  - intros c. change (templatePath sampleEnv (str "bookings.json"))
      with (str "/opt/parkme/templates/bookings.json").
    simpl. rewrite lookup_delete_eq. discriminate.
Defined.

(** ** The log of operations of any run *)

Section OpsOfAnyRun.

Implicit Types (w : World) (p : jsstring).








End OpsOfAnyRun.



(** ** The config of a run that completes *)

Lemma writeUnder_untouched (dir : jsstring) (ns : list (jsstring * node))
    (m : gmap jsstring node) (p : jsstring) :
  (forall rel n, (rel, n) ∈ ns -> dir ++ "/" :: rel <> p) ->
  writeUnder dir ns m !! p = m !! p.
Proof.
  induction ns as [|[rel n] ns IH]; intros H; simpl; [reflexivity|].
  assert (dir ++ "/" :: rel <> p) as Hne by (apply (H rel n); left).
  rewrite lookup_insert_ne by exact Hne.
  apply IH. intros rel' n' Hin. apply (H rel' n'). now right.
Qed.

(** X23. In a process whose working directory is absolute, with the
    template of the config outside the target directory: after a run that
    completes, if npm has written nothing at the path of the config, the
    config file holds the rendering of the bundled template as it was when
    the run began. *)
Theorem config_after_success env w w' :
  Path.isAbsolute (cwd env) = true ->
  within (targetDirOf env (projectNameOf env)) (configTemplatePath env)
    = false ->
  (forall rel n, (rel, n) ∈ written (npmInstall env) ->
     appDirOf env ++ "/" :: rel <> configPath (appDirOf env)) ->
  main env w = (w', Ret tt) ->
  exists template,
    fs w !! configTemplatePath env = Some (File template) /\
    fs w' !! configPath (appDirOf env)
      = Some (File (result (dataDirOf env) template)).
Proof.
  intros Habs Hout Hnpm Hmain. unfold main in Hmain.
  apply bind_ret in Hmain as (name & w1 & Hin & Hrest).
  pose proof (confined_collectInput env _ _ _ _ Hin Hout) as G1.
  pose proof (collectInput_run env w) as E. simpl in E. rewrite Hin in E.
  assert (name = projectNameOf env) as ->.
  { destruct (pathExists _ _); [destruct (promptConfirm _ _)|]; congruence. }
  clear E.
  apply bind_ret in Hrest as ([] & w5 & Hprov & Htail).
  rewrite bind_run, checkTomcat_run, done_run in Htail.
  injection Htail as <-. simpl.
  unfold provision in Hprov.
  apply bind_ret in Hprov as ([] & wa & Hlog & Hprov).
  rewrite logStep_run in Hlog. injection Hlog as <-.
  apply bind_ret in Hprov as ([] & w2 & Hclone & Hprov).
  apply bind_ret in Hprov as ([] & w3 & Hdata & Hprov).
  apply bind_ret in Hprov as ([] & w4 & Hconf & Hinst).
  pose proof (confined_cloneRepo env Habs _ _ _ _ Hclone Hout) as G2.
  pose proof (confined_provisionData env Habs _ _ _ _ Hdata Hout) as G3.
  simpl in G2.
  fold (appDirOf env) in *. fold (dataDirOf env) in *.
  apply generateConfig_written in Hconf as (template & Ht & Hc & _).
  apply installDependencies_ret in Hinst.
  exists template. split.
  - apply lookupNode_file in Ht as [_ Ht].
    eapply grows_file; [exact G1|].
    eapply grows_file; [exact G2|].
    eapply grows_file; [exact G3 | exact Ht].
  - rewrite Hinst, writeUnder_untouched by exact Hnpm. exact Hc.
Qed.

Lemma config_after_success_witness :
  let w' := (main sampleEnv freshWorld).1 in
  exists template,
    fs freshWorld !! configTemplatePath sampleEnv = Some (File template) /\
    fs w' !! configPath (appDirOf sampleEnv)
      = Some (File (result (dataDirOf sampleEnv) template)).
Proof.
  intros w'.
  apply (config_after_success sampleEnv freshWorld w').
  - reflexivity.
  - vm_compute. reflexivity.
  - intros rel n Hin. apply list_elem_of_singleton in Hin.
    injection Hin as -> ->. vm_compute. discriminate.
  - apply (run_ret (main sampleEnv freshWorld) tt). vm_compute. reflexivity.
Defined.

(** ** The directories of a run that completes *)

Section KeepsDir.

Context (p : jsstring).

Lemma keeps_bind {A B} (m : M A) (k : A -> M B) :
  keepsDir p m -> (forall a, keepsDir p (k a)) -> keepsDir p (m ≫= k).
Proof.
  intros Hm Hk w w' r. rewrite bind_run.
  destruct (m w) as [w1 [a|e|c]] eqn:E; intros H Hp.
  - eapply Hk; [exact H|]. eapply Hm; eassumption.
  - injection H as <- _. eapply Hm; eassumption.
  - injection H as <- _. eapply Hm; eassumption.
Qed.

Lemma keeps_try {A} (m : M A) (h : Error -> M A) :
  keepsDir p m -> (forall e, keepsDir p (h e)) -> keepsDir p (try_catch m h).
Proof.
  intros Hm Hh w w' r. unfold try_catch.
  destruct (m w) as [w1 [a|e|c]] eqn:E; intros H Hp.
  - injection H as <- _. eapply Hm; eassumption.
  - eapply Hh; [exact H|]. eapply Hm; eassumption.
  - injection H as <- _. eapply Hm; eassumption.
Qed.

Lemma keeps_ret {A} (a : A) : keepsDir p (mret a).
Proof. now intros w w' r [= <- _]. Qed.

Lemma keeps_throw {A} e : keepsDir p (@throw A e).
Proof. now intros w w' r [= <- _]. Qed.

Lemma keeps_exit {A} c : keepsDir p (@process_exit A c).
Proof. now intros w w' r [= <- _]. Qed.

Lemma keeps_emit o : keepsDir p (emit o).
Proof. now intros w w' r [= <- _]. Qed.

Lemma keeps_record o : keepsDir p (record o).
Proof. now intros w w' r [= <- _]. Qed.

Lemma keeps_get_fs : keepsDir p get_fs.
Proof. now intros w w' r [= <- _]. Qed.

Lemma keeps_mkdirs d : keepsDir p (mkdirs d).
Proof.
  intros w w' r. unfold mkdirs. mrun.
  destruct (mkdirChain _ _) as [m1 [e|]] eqn:E; mrun; intros [= <- _] Hp;
    simpl; eapply mkdirChain_keep; eassumption.
Qed.

(** [writeFile] never writes over a directory. *)
Lemma keeps_writeFile d data : keepsDir p (writeFile d data).
Proof.
  intros w w' r. unfold writeFile. mrun. intros H Hp. revert H.
  destruct (decide (d = p)) as [->|Hne].
  - assert (lookupNode (fs w) p = Some Dir) as ->
      by (unfold lookupNode; now destruct (bool_decide _)).
    mrun. now intros [= <- _].
  - destruct (lookupNode (fs w) d) as [[c|]|]; mrun;
      try (now intros [= <- _]);
      destruct (lookupNode (fs w) (parentDir d)) as [[c'|]|]; mrun;
      intros [= <- _]; try assumption; simpl;
      now rewrite lookup_insert_ne.
Qed.

Lemma keeps_runProcess c d r :
  JS.startsWith (d ++ ["/"]) p = false -> keepsDir p (runProcess c d r).
Proof.
  intros Hd w w' r'. unfold runProcess. mrun.
  destruct (succeeded r); mrun; intros [= <- _] Hp; simpl;
    now rewrite writeUnder_other.
Qed.

End KeepsDir.

Create HintDb keeps.
#[local] Hint Resolve keeps_ret keeps_throw keeps_exit keeps_emit keeps_record
  keeps_get_fs keeps_mkdirs keeps_writeFile : keeps.

Ltac keeps_with leaf :=
  repeat first
    [ progress (intros)
    | solve [auto with keeps]
    | solve [leaf]
    | apply keeps_bind
    | apply keeps_try
    | match goal with
      | |- keepsDir _ (match ?x with _ => _ end) => destruct x
      | |- keepsDir _ (let (_, _) := ?x in _) => destruct x
      end ].

Section KeepsDirSteps.

Context (p : jsstring).

Lemma keeps_copyDataFiles env d files :
  keepsDir p (copyDataFiles env d files).
Proof.
  induction files as [|f files IH]; simpl; [apply keeps_ret|].
  apply keeps_bind; [|intros _; exact IH].
  unfold copyFile. keeps_with fail.
Qed.

Lemma keeps_provisionData env d : keepsDir p (provisionData env d).
Proof.
  unfold provisionData, ensureDir, logStep, console_log, console_error,
    spinner_start, spinner_succeed, spinner_fail.
  keeps_with ltac:(apply keeps_copyDataFiles).
Qed.

Lemma keeps_generateConfig env a d : keepsDir p (generateConfig env a d).
Proof.
  unfold generateConfig, outputFile, readFile, logStep, console_log,
    console_error, spinner_start, spinner_succeed, spinner_fail.
  keeps_with fail.
Qed.

Lemma keeps_installDependencies env a :
  JS.startsWith (a ++ ["/"]) p = false ->
  keepsDir p (installDependencies env a).
Proof.
  intros Ha.
  unfold installDependencies, execSync, logStep, console_log, console_error,
    spinner_start, spinner_succeed, spinner_fail.
  keeps_with ltac:(now apply keeps_runProcess).
Qed.

End KeepsDirSteps.

Lemma startsWith_longer (x y : jsstring) :
  length y < length x -> JS.startsWith x y = false.
Proof.
  intros Hl. destruct (JS.startsWith x y) eqn:E; [|reflexivity].
  apply startsWith_length in E. lia.
Qed.

(** The target directory and the app directory after steps 1 to 4. *)
Lemma provision_directories env w1 w5 :
  Path.isAbsolute (cwd env) = true ->
  provision env (projectNameOf env) w1 = (w5, Ret tt) ->
  fs w5 !! appDirOf env = Some Dir /\
  lookupNode (fs w5) (targetDirOf env (projectNameOf env)) = Some Dir.
Proof.
  intros Habs Hprov. unfold provision in Hprov.
  apply bind_ret in Hprov as ([] & wa & Hlog & Hprov).
  rewrite logStep_run in Hlog. injection Hlog as <-.
  apply bind_ret in Hprov as ([] & w2 & Hclone & Hprov).
  apply bind_ret in Hprov as ([] & w3 & Hdata & Hprov).
  apply bind_ret in Hprov as ([] & w4 & Hconf & Hinst).
  fold (appDirOf env) in *. fold (dataDirOf env) in *.
  set (T := targetDirOf env (projectNameOf env)) in *.
  pose proof (run_A env Habs) as EA. fold (appDirOf env) in EA. fold T in EA.
  pose proof (run_T env Habs) as HT. fold T in HT.
  assert (forall d, d ∈ dirChain [] (appDirOf env) -> d <> root ->
            JS.startsWith (appDirOf env ++ ["/"]) d = false ->
            fs w5 !! d = Some Dir) as Hkeep.
  { intros d Hd _ Hs.
    eapply (keeps_installDependencies d); [exact Hs | exact Hinst|].
    eapply keeps_generateConfig; [exact Hconf|].
    eapply keeps_provisionData; [exact Hdata|].
    rewrite cloneRepo_run in Hclone.
    destruct (mkdirChain _ _) as [m' [e|]] eqn:Emk; [discriminate|].
    destruct (succeeded _); [|discriminate].
    injection Hclone as <-. simpl. rewrite writeUnder_other by exact Hs.
    eapply mkdirChain_made; [exact Emk | exact Hd]. }
  assert (appDirOf env <> [] /\ Path.endsWithSeparator (appDirOf env) = false)
    as [HA0 HAe].
  { rewrite EA. split.
    - intros E. apply (f_equal (@length _)) in E.
      rewrite length_app in E. simpl in E. lia.
    - unfold Path.endsWithSeparator. now rewrite last_app. }
  split.
  - apply Hkeep.
    + now apply (dirChain_self [] (appDirOf env)).
    + rewrite EA. unfold dirPrefix.
      destruct (Path.endsWithSeparator T); intros E;
        apply (f_equal (@length _)) in E; rewrite ?length_app in E;
        simpl in E; lia.
    + apply startsWith_longer. rewrite length_app. simpl. lia.
  - unfold lookupNode. destruct (bool_decide_reflect (T = root)) as [E|E];
      [reflexivity|].
    destruct (normalAbs_cases T HT) as [?|(HT0 & HTe & HTp)]; [contradiction|].
    apply Hkeep; [| exact E |].
    + rewrite EA, HTp, <- app_assoc. now apply (dirChain_elem [] T).
    + apply startsWith_longer. rewrite EA, HTp, !length_app. simpl. lia.
Qed.

(** X24. In a process whose working directory is absolute, a run that
    completes leaves the target directory and the app directory as
    directories. A second run for the same project from there finds the
    target directory and asks for the overwrite: when that is not
    confirmed it ends with exit code 0 and the filesystem and the log of
    operations as the first run left them. *)
Theorem rerun_asks_before_overwriting env env' w w' :
  Path.isAbsolute (cwd env) = true ->
  main env w = (w', Ret tt) ->
  cwd env' = cwd env ->
  projectNameInput env' = projectNameInput env ->
  promptConfirm false (overwriteInput env') = false ->
  fs w' !! appDirOf env = Some Dir /\
  pathExists (fs w') (targetDirOf env (projectNameOf env)) = true /\
  exists w'',
    main env' w' = (w'', Exit 0) /\ fs w'' = fs w' /\ ops w'' = ops w'.
Proof.
  intros Habs Hmain Hcwd Hname Hno. unfold main in Hmain.
  apply bind_ret in Hmain as (name & w1 & Hin & Hrest).
  pose proof (collectInput_run env w) as E. simpl in E. rewrite Hin in E.
  assert (name = projectNameOf env) as ->.
  { destruct (pathExists _ _);
      [destruct (promptConfirm false (overwriteInput env))|]; congruence. }
  clear E.
  apply bind_ret in Hrest as ([] & w5 & Hprov & Htail).
  rewrite bind_run, checkTomcat_run, done_run in Htail.
  injection Htail as <-. simpl.
  destruct (provision_directories env w1 w5 Habs Hprov) as [HA HT].
  assert (pathExists (fs w5) (targetDirOf env (projectNameOf env)) = true)
    as Hex by (unfold pathExists; rewrite HT; now apply bool_decide_eq_true_2).
  split; [exact HA|]. split; [exact Hex|].
  assert (targetDirOf env' (projectNameOf env')
          = targetDirOf env (projectNameOf env)) as ET
    by (unfold targetDirOf, projectNameOf; now rewrite Hcwd, Hname).
  unfold main. rewrite bind_run.
  pose proof (collectInput_run env'
                {| fs := fs w5;
                   console := (console w5 ++ tomcatReport env)
                              ++ doneReport (projectNameOf env);
                   ops := ops w5 ++ [OpExec (tomcatCommand env)] |}) as E.
  simpl in E. rewrite ET, Hex, Hno in E. rewrite E.
  eexists. repeat split.
Qed.

Lemma rerun_asks_before_overwriting_witness :
  let w' := (main sampleEnv freshWorld).1 in
  fs w' !! appDirOf sampleEnv = Some Dir /\
  pathExists (fs w') (targetDirOf sampleEnv (projectNameOf sampleEnv))
    = true /\
  exists w'',
    main sampleEnv w' = (w'', Exit 0) /\ fs w'' = fs w' /\ ops w'' = ops w'.
Proof.
  intros w'.
  apply (rerun_asks_before_overwriting sampleEnv sampleEnv freshWorld w').
  - reflexivity.
  - apply (run_ret (main sampleEnv freshWorld) tt). vm_compute. reflexivity.
  - reflexivity.
  - reflexivity.
  - reflexivity.
Defined.
